(** * Wesee blockchain gaming platform: escrow, token store and leaderboard

    A shallow embedding of the two Solidity contracts
    ([contracts/PlayGame.sol], [contracts/contracts/TokenStore.sol]) and of the
    event aggregator ([tools/leaderboard.js]), with the properties of the
    specification stated and settled against them.

    Conventions.
    - [uint256], [address] and [bytes32] values are integers of [Z]; the
      range of a [uint256] is written out ([MAX_UINT256]) and arithmetic is
      the checked arithmetic of Solidity 0.8 (overflow reverts).
    - A Solidity [mapping] is a total function with the zero value as
      default, exactly as storage behaves.
    - A contract function is a computation in a state-and-revert monad; a
      transaction ([transact]) commits the final state on success and
      restores the initial state on revert.
    - A JavaScript number is an IEEE 754 binary64 value, a [spec_float] of
      the Standard Library with [prec = 53] and [emax = 1024]; its
      operations round to nearest, ties to even. *)

From Stdlib Require Import ZArith List Bool String Lia Permutation Sorted.
From Stdlib Require Import SpecFloat.
Import ListNotations.

Local Open Scope Z_scope.

(* ================================================================== *)
(** * The EVM side: machine integers and the revert monad             *)
(* ================================================================== *)

Module Evm.

(** [address] (160 bits) and [bytes32] values, as integers. *)
Abbreviation address := Z (only parsing).
Abbreviation bytes32 := Z (only parsing).

Definition MAX_UINT256 : Z := 2 ^ 256 - 1.
Arguments MAX_UINT256 : simpl never.

Definition is_uint256 (x : Z) : bool := (0 <=? x) && (x <=? MAX_UINT256).

(** Result of running a function body: it either runs to its end, or
    reverts.  The state carried by [Reverted] is the state at the point of
    the revert (writes made so far included); [transact] throws it away. *)
Inductive Outcome (S A : Type) : Type :=
| Done (a : A) (s : S)
| Reverted (reason : string) (s : S).
Arguments Done {S A} a s.
Arguments Reverted {S A} reason s.

Definition M (S A : Type) : Type := S -> Outcome S A.

Definition ret {S A} (a : A) : M S A := fun s => Done a s.

Definition bind {S A B} (m : M S A) (k : A -> M S B) : M S B :=
  fun s => match m s with
           | Done a s' => k a s'
           | Reverted r s' => Reverted r s'
           end.

Definition revert {S A} (reason : string) : M S A := fun s => Reverted reason s.

Definition require {S} (cond : bool) (reason : string) : M S unit :=
  if cond then ret tt else revert reason.

Definition gets {S A} (f : S -> A) : M S A := fun s => Done (f s) s.

Definition modify {S} (f : S -> S) : M S unit := fun s => Done tt (f s).

(** Checked arithmetic on [uint256]: Solidity 0.8 reverts with
    [Panic(0x11)] when the mathematical result does not fit. *)
Definition panic_overflow : string := "Panic(0x11)".

Definition checked {S} (x : Z) : M S Z :=
  if is_uint256 x then ret x else revert panic_overflow.

(** What a caller of the contract observes. *)
Inductive Receipt (A : Type) : Type :=
| Ok (a : A)
| Err (reason : string).
Arguments Ok {A} a.
Arguments Err {A} reason.

Definition succeeded {A} (r : Receipt A) : bool :=
  match r with Ok _ => true | Err _ => false end.

(** A transaction: all or nothing. *)
Definition transact {S A} (m : M S A) (s : S) : Receipt A * S :=
  match m s with
  | Done a s' => (Ok a, s')
  | Reverted r _ => (Err r, s)
  end.

(** Point update of a mapping. *)
Definition upd {V} (f : Z -> V) (k : Z) (v : V) : Z -> V :=
  fun k' => if k' =? k then v else f k'.

End Evm.

Import Evm.

Declare Scope evm_scope.
Delimit Scope evm_scope with evm.
Notation "x <- c1 ;; c2" := (bind c1 (fun x => c2))
  (at level 61, c1 at next level, right associativity) : evm_scope.
Notation "c1 ;; c2" := (bind c1 (fun _ => c2))
  (at level 61, right associativity) : evm_scope.
Local Open Scope evm_scope.

(* ================================================================== *)
(** * The token ledger                                                *)
(* ================================================================== *)

Module Ledger.

(** Modelled from the spec: the balance ledger behind [IERC20] and
    [GameToken] ([GameToken.sol] and the OpenZeppelin ERC-20 it extends are
    not among the sources).  Spec 3: a mapping from account to unsigned
    amount; spec 6: [transferFrom], [transfer], [balanceOf] and an
    authority-gated [mint]. *)
Record Token : Type := mkToken {
  balances : address -> Z;
  allowances : address -> address -> Z;   (* owner -> spender -> amount *)
  totalSupply : Z;
  minter : address
}.

(** Modelled from the spec: [balanceOf(account) -> amount] (spec 6). *)
Definition balanceOf (t : Token) (a : address) : Z := balances t a.

(** Modelled from the spec: debit and credit happen together or not at all
    (spec 3); used by [transfer] and [transferFrom] below, [GameToken.sol]
    being absent.  Fails when the sender's balance is insufficient
    (spec 4.1) or when the credit would overflow (spec 4.3, numeric
    semantics). *)
Definition move (from to : address) (amount : Z) (t : Token) : option Token :=
  if balances t from <? amount then None
  else
    let b1 := upd (balances t) from (balances t from - amount) in
    if MAX_UINT256 <? b1 to + amount then None
    else Some (mkToken (upd b1 to (b1 to + amount))
                       (allowances t) (totalSupply t) (minter t)).

(** Modelled from the spec: [transfer(to, amount) -> bool] of the absent
    token contract, called by [sender]; [None] stands for a failed
    transfer. *)
Definition transfer (sender to : address) (amount : Z) (t : Token)
  : option Token :=
  move sender to amount t.

(** Modelled from the spec: [transferFrom(owner, to, amount) -> bool] of
    the absent token contract, called by [spender]: fails if the allowance
    or the balance is insufficient (spec 4.2, 4.3). *)
Definition transferFrom (spender owner to : address) (amount : Z) (t : Token)
  : option Token :=
  if allowances t owner spender <? amount then None
  else
    match move owner to amount t with
    | None => None
    | Some t' =>
        Some (mkToken (balances t')
                (fun o => if o =? owner
                          then upd (allowances t owner) spender
                                   (allowances t owner spender - amount)
                          else allowances t o)
                (totalSupply t') (minter t'))
    end.

(** Modelled from the spec: the allowance-transfer pattern (glossary): the
    owner pre-authorises a spender; [approve] of the absent token
    contract. *)
Definition approve (sender spender : address) (amount : Z) (t : Token)
  : Token :=
  mkToken (balances t)
          (fun o => if o =? sender
                    then upd (allowances t sender) spender amount
                    else allowances t o)
          (totalSupply t) (minter t).

(** Modelled from the spec: [mint(to, amount)] of the absent
    [GameToken.sol]: exactly one authority may increase the total supply,
    any other caller fails (spec 4.1); overflow is an error. *)
Definition mint (sender to : address) (amount : Z) (t : Token)
  : option Token :=
  if negb (sender =? minter t) then None
  else if MAX_UINT256 <? totalSupply t + amount then None
  else if MAX_UINT256 <? balances t to + amount then None
  else Some (mkToken (upd (balances t) to (balances t to + amount))
                     (allowances t) (totalSupply t + amount) (minter t)).

(** Modelled from the spec: the operation that names the minting authority
    ([setTokenStore] of the absent [GameToken.sol], called by the deployment
    script and the tests).  Who may call it is not modelled: here anybody
    can, which only adds behaviours. *)
Definition setTokenStore (a : address) (t : Token) : Token :=
  mkToken (balances t) (allowances t) (totalSupply t) a.

End Ledger.

(* ================================================================== *)
(** * TokenStore.sol                                                  *)
(* ================================================================== *)

Module TokenStore.

Inductive Event : Type :=
| Purchase (buyer : address) (usdtAmount gtOut : Z).

(** The store together with the two ledgers it calls into. *)
Record State : Type := mkState {
  this : address;               (* address(this) *)
  owner : address;              (* Ownable *)
  entered : bool;               (* ReentrancyGuard status *)
  usdt : Ledger.Token;
  gameToken : Ledger.Token;
  gtPerUsdt : Z;
  log : list Event
}.

Definition set_entered (b : bool) (s : State) : State :=
  mkState (this s) (owner s) b (usdt s) (gameToken s) (gtPerUsdt s) (log s).
Definition set_usdt (u : Ledger.Token) (s : State) : State :=
  mkState (this s) (owner s) (entered s) u (gameToken s) (gtPerUsdt s) (log s).
Definition set_gameToken (g : Ledger.Token) (s : State) : State :=
  mkState (this s) (owner s) (entered s) (usdt s) g (gtPerUsdt s) (log s).
Definition emit (e : Event) : M State unit :=
  modify (fun s => mkState (this s) (owner s) (entered s) (usdt s)
                           (gameToken s) (gtPerUsdt s) (log s ++ [e])).

(** OpenZeppelin's [nonReentrant] modifier. *)
Definition nonReentrant {A} (body : M State A) : M State A :=
  e <- gets entered ;;
  require (negb e) "ReentrancyGuardReentrantCall" ;;
  modify (set_entered true) ;;
  a <- body ;;
  modify (set_entered false) ;;
  ret a.

(** OpenZeppelin's [onlyOwner] modifier. *)
Definition onlyOwner {A} (sender : address) (body : M State A) : M State A :=
  o <- gets owner ;;
  require (sender =? o) "OwnableUnauthorizedAccount" ;;
  body.

(** [usdt.transferFrom(msg.sender, address(this), usdtAmount)] *)
Definition usdt_transferFrom (owner_ to : address) (amount : Z) : M State bool :=
  fun s => match Ledger.transferFrom (this s) owner_ to amount (usdt s) with
           | Some u' => Done true (set_usdt u' s)
           | None => Done false s
           end.

(** [usdt.transfer(to, amount)] *)
Definition usdt_transfer (to : address) (amount : Z) : M State bool :=
  fun s => match Ledger.transfer (this s) to amount (usdt s) with
           | Some u' => Done true (set_usdt u' s)
           | None => Done false s
           end.

(** [gameToken.mint(to, amount)]: no return value, reverts on failure. *)
Definition gameToken_mint (to : address) (amount : Z) : M State unit :=
  fun s => match Ledger.mint (this s) to amount (gameToken s) with
           | Some g' => Done tt (set_gameToken g' s)
           | None => Reverted "Only TokenStore can mint" s
           end.

Definition buy (sender : address) (usdtAmount : Z) : M State unit :=
  nonReentrant (
    require (0 <? usdtAmount) "Amount must be greater than 0" ;;
    rate <- gets gtPerUsdt ;;
    prod <- checked (usdtAmount * rate) ;;
    let gtOut := Z.quot prod 1000000 in
    require (0 <? gtOut) "Invalid conversion" ;;
    self <- gets this ;;
    pulled <- usdt_transferFrom sender self usdtAmount ;;
    require pulled "USDT transfer failed" ;;
    gameToken_mint sender gtOut ;;
    emit (Purchase sender usdtAmount gtOut)).

Definition withdrawUSDT (sender to : address) (amount : Z) : M State unit :=
  onlyOwner sender (
    require (negb (to =? 0)) "Invalid address" ;;
    require (0 <? amount) "Amount must be greater than 0" ;;
    sent <- usdt_transfer to amount ;;
    require sent "USDT transfer failed").

End TokenStore.

(* ================================================================== *)
(** * PlayGame.sol                                                    *)
(* ================================================================== *)

Module PlayGame.

(** [24 hours] *)
Definition TIMEOUT_DURATION : Z := 24 * 3600.
Arguments TIMEOUT_DURATION : simpl never.

Inductive MatchStatus : Type := PENDING | STAKED | SETTLED | REFUNDED.

Definition status_eqb (a b : MatchStatus) : bool :=
  match a, b with
  | PENDING, PENDING | STAKED, STAKED
  | SETTLED, SETTLED | REFUNDED, REFUNDED => true
  | _, _ => false
  end.

(** [struct Match].  The field [stake] is called [stakeAmount] here, the
    name [stake] being taken by the function. *)
Record Match : Type := mkMatch {
  p1 : address;
  p2 : address;
  stakeAmount : Z;
  startTime : Z;
  status : MatchStatus;
  p1Staked : bool;
  p2Staked : bool
}.

(** The zero value every key of [matches] holds before it is written. *)
Definition noMatch : Match := mkMatch 0 0 0 0 PENDING false false.

Definition set_status (st : MatchStatus) (m : Match) : Match :=
  mkMatch (p1 m) (p2 m) (stakeAmount m) (startTime m) st (p1Staked m) (p2Staked m).
Definition set_startTime (t : Z) (m : Match) : Match :=
  mkMatch (p1 m) (p2 m) (stakeAmount m) t (status m) (p1Staked m) (p2Staked m).
Definition set_p1Staked (b : bool) (m : Match) : Match :=
  mkMatch (p1 m) (p2 m) (stakeAmount m) (startTime m) (status m) b (p2Staked m).
Definition set_p2Staked (b : bool) (m : Match) : Match :=
  mkMatch (p1 m) (p2 m) (stakeAmount m) (startTime m) (status m) (p1Staked m) b.

Inductive Event : Type :=
| MatchCreated (matchId : bytes32) (p1 p2 : address) (stake : Z)
| Staked (matchId : bytes32) (player : address)
| Settled (matchId : bytes32) (winner : address) (amount : Z)
| Refunded (matchId : bytes32) (p1 p2 : address) (amount : Z).

(** The contract's storage, the ledger it calls into, and the event log. *)
Record State : Type := mkState {
  this : address;               (* address(this) *)
  owner : address;              (* Ownable *)
  backendOperator : address;
  entered : bool;               (* ReentrancyGuard status *)
  gameToken : Ledger.Token;
  matches : bytes32 -> Match;
  log : list Event
}.

(** [msg.sender] and [block.timestamp] of a call. *)
Record Env : Type := mkEnv {
  sender : address;
  timestamp : Z
}.

Definition set_owner (a : address) (s : State) : State :=
  mkState (this s) a (backendOperator s) (entered s) (gameToken s)
          (matches s) (log s).
Definition set_backendOperator (a : address) (s : State) : State :=
  mkState (this s) (owner s) a (entered s) (gameToken s) (matches s) (log s).
Definition set_entered (b : bool) (s : State) : State :=
  mkState (this s) (owner s) (backendOperator s) b (gameToken s)
          (matches s) (log s).
Definition set_gameToken (g : Ledger.Token) (s : State) : State :=
  mkState (this s) (owner s) (backendOperator s) (entered s) g
          (matches s) (log s).
Definition set_matches (ms : bytes32 -> Match) (s : State) : State :=
  mkState (this s) (owner s) (backendOperator s) (entered s) (gameToken s)
          ms (log s).
Definition add_log (e : Event) (s : State) : State :=
  mkState (this s) (owner s) (backendOperator s) (entered s) (gameToken s)
          (matches s) (log s ++ [e]).

Definition emit (e : Event) : M State unit := modify (add_log e).

(** A read of [matches[matchId]] through the storage pointer. *)
Definition getMatch (matchId : bytes32) : M State Match :=
  gets (fun s => matches s matchId).

(** A write of one field of [matches[matchId]] through the storage
    pointer. *)
Definition setMatch (matchId : bytes32) (f : Match -> Match) : M State unit :=
  modify (fun s => set_matches (upd (matches s) matchId (f (matches s matchId))) s).

(** OpenZeppelin's [nonReentrant] modifier. *)
Definition nonReentrant {A} (body : M State A) : M State A :=
  e <- gets entered ;;
  require (negb e) "ReentrancyGuardReentrantCall" ;;
  modify (set_entered true) ;;
  a <- body ;;
  modify (set_entered false) ;;
  ret a.

(** OpenZeppelin's [onlyOwner] modifier. *)
Definition onlyOwner {A} (e : Env) (body : M State A) : M State A :=
  o <- gets owner ;;
  require (sender e =? o) "OwnableUnauthorizedAccount" ;;
  body.

(** [gameToken.transferFrom(from, to, amount)], called by the contract. *)
Definition gameToken_transferFrom (from to : address) (amount : Z)
  : M State bool :=
  fun s => match Ledger.transferFrom (this s) from to amount (gameToken s) with
           | Some g' => Done true (set_gameToken g' s)
           | None => Done false s
           end.

(** [gameToken.transfer(to, amount)], called by the contract. *)
Definition gameToken_transfer (to : address) (amount : Z) : M State bool :=
  fun s => match Ledger.transfer (this s) to amount (gameToken s) with
           | Some g' => Done true (set_gameToken g' s)
           | None => Done false s
           end.

Definition setBackendOperator (e : Env) (_backendOperator : address)
  : M State unit :=
  onlyOwner e (modify (set_backendOperator _backendOperator)).

Definition createMatch (e : Env) (matchId : bytes32) (p1' p2' : address)
    (stake' : Z) : M State unit :=
  onlyOwner e (
    require (negb (p1' =? 0) && negb (p2' =? 0)) "Invalid addresses" ;;
    require (negb (p1' =? p2')) "Players must be different" ;;
    require (0 <? stake') "Stake must be greater than 0" ;;
    old <- getMatch matchId ;;
    require (p1 old =? 0) "Match already exists" ;;
    setMatch matchId (fun _ => mkMatch p1' p2' stake' 0 PENDING false false) ;;
    emit (MatchCreated matchId p1' p2' stake')).

Definition stake (e : Env) (matchId : bytes32) : M State unit :=
  nonReentrant (
    matchData <- getMatch matchId ;;
    require (negb (p1 matchData =? 0)) "Match does not exist" ;;
    require (status_eqb (status matchData) PENDING)
            "Match not in pending status" ;;
    require ((sender e =? p1 matchData) || (sender e =? p2 matchData))
            "Not a player" ;;
    (if sender e =? p1 matchData then
       require (negb (p1Staked matchData)) "Already staked" ;;
       setMatch matchId (set_p1Staked true)
     else
       require (negb (p2Staked matchData)) "Already staked" ;;
       setMatch matchId (set_p2Staked true)) ;;
    (* Pull GT from player *)
    self <- gets this ;;
    pulled <- gameToken_transferFrom (sender e) self (stakeAmount matchData) ;;
    require pulled "GT transfer failed" ;;
    emit (Staked matchId (sender e)) ;;
    (* Check if both players have staked *)
    matchData <- getMatch matchId ;;
    if p1Staked matchData && p2Staked matchData then
      setMatch matchId (set_status STAKED) ;;
      setMatch matchId (set_startTime (timestamp e))
    else ret tt).

Definition commitResult (e : Env) (matchId : bytes32) (winner : address)
  : M State unit :=
  nonReentrant (
    operator <- gets backendOperator ;;
    require (sender e =? operator) "Only backend can commit result" ;;
    matchData <- getMatch matchId ;;
    require (negb (p1 matchData =? 0)) "Match does not exist" ;;
    require (status_eqb (status matchData) STAKED) "Match not staked" ;;
    require ((winner =? p1 matchData) || (winner =? p2 matchData))
            "Invalid winner" ;;
    (* Transfer 2x stake to winner *)
    payout <- checked (stakeAmount matchData * 2) ;;
    sent <- gameToken_transfer winner payout ;;
    require sent "GT transfer failed" ;;
    setMatch matchId (set_status SETTLED) ;;
    emit (Settled matchId winner payout)).

Definition refund (e : Env) (matchId : bytes32) : M State unit :=
  nonReentrant (
    matchData <- getMatch matchId ;;
    require (negb (p1 matchData =? 0)) "Match does not exist" ;;
    require (status_eqb (status matchData) STAKED) "Match not staked" ;;
    deadline <- checked (startTime matchData + TIMEOUT_DURATION) ;;
    require (deadline <=? timestamp e) "Timeout not reached" ;;
    (* Refund stakes to both players *)
    (if p1Staked matchData then
       sent <- gameToken_transfer (p1 matchData) (stakeAmount matchData) ;;
       require sent "GT transfer failed"
     else ret tt) ;;
    (if p2Staked matchData then
       sent <- gameToken_transfer (p2 matchData) (stakeAmount matchData) ;;
       require sent "GT transfer failed"
     else ret tt) ;;
    setMatch matchId (set_status REFUNDED) ;;
    emit (Refunded matchId (p1 matchData) (p2 matchData)
                   (stakeAmount matchData))).

(** ** Transactions *)

(** Everything an account can send that touches this state: the
    contract's external functions, the two ownership functions it inherits
    from [Ownable], and calls made directly to the token ledger. *)
Inductive Call : Type :=
| CreateMatch (matchId : bytes32) (p1 p2 : address) (stake : Z)
| Stake (matchId : bytes32)
| CommitResult (matchId : bytes32) (winner : address)
| Refund (matchId : bytes32)
| SetBackendOperator (a : address)
| TransferOwnership (newOwner : address)
| RenounceOwnership
| TokenTransfer (to : address) (amount : Z)
| TokenApprove (spender : address) (amount : Z)
| TokenTransferFrom (from to : address) (amount : Z)
| TokenMint (to : address) (amount : Z)
| TokenSetTokenStore (a : address).

Definition token_call (f : Ledger.Token -> option Ledger.Token)
  : M State unit :=
  fun s => match f (gameToken s) with
           | Some g' => Done tt (set_gameToken g' s)
           | None => Reverted "token call failed" s
           end.

Definition dispatch (e : Env) (c : Call) : M State unit :=
  match c with
  | CreateMatch matchId a b amount => createMatch e matchId a b amount
  | Stake matchId => stake e matchId
  | CommitResult matchId winner => commitResult e matchId winner
  | Refund matchId => refund e matchId
  | SetBackendOperator a => setBackendOperator e a
  | TransferOwnership newOwner =>
      onlyOwner e (require (negb (newOwner =? 0)) "OwnableInvalidOwner" ;;
                   modify (set_owner newOwner))
  | RenounceOwnership => onlyOwner e (modify (set_owner 0))
  | TokenTransfer to amount =>
      token_call (Ledger.transfer (sender e) to amount)
  | TokenApprove spender amount =>
      token_call (fun g => Some (Ledger.approve (sender e) spender amount g))
  | TokenTransferFrom from to amount =>
      token_call (Ledger.transferFrom (sender e) from to amount)
  | TokenMint to amount =>
      token_call (Ledger.mint (sender e) to amount)
  | TokenSetTokenStore a =>
      token_call (fun g => Some (Ledger.setTokenStore a g))
  end.

Definition exec (e : Env) (c : Call) (s : State) : Receipt unit * State :=
  transact (dispatch e c) s.

(** The ABI decoder accepts only [uint256] amounts. *)
Definition valid_call (c : Call) : bool :=
  match c with
  | CreateMatch _ _ _ amount => is_uint256 amount
  | TokenTransfer _ amount | TokenApprove _ amount
  | TokenTransferFrom _ _ amount | TokenMint _ amount => is_uint256 amount
  | _ => true
  end.

(** The contract has no code that calls itself or the ledger on its own
    initiative, so the sender of a transaction is never the contract; block
    timestamps are positive [uint256] values (Unix time). *)
Definition valid_env (s : State) (e : Env) : bool :=
  negb (sender e =? this s) && (0 <? timestamp e) && (timestamp e <=? MAX_UINT256).

(** ** Invariants *)

Definition sumOver {K} (f : K -> Z) (l : list K) : Z :=
  fold_right (fun k acc => f k + acc) 0 l.

(** A ledger is sound when balances are non-negative, any set of accounts
    holds at most the total supply, and the supply is a [uint256]. *)
Definition ledger_ok (t : Ledger.Token) : Prop :=
  (forall a, 0 <= Ledger.balances t a) /\
  (forall l, NoDup l -> sumOver (Ledger.balances t) l <= Ledger.totalSupply t) /\
  Ledger.totalSupply t <= MAX_UINT256.

(** Tokens the escrow owes to the participants of a match. *)
Definition escrowed (m : Match) : Z :=
  match status m with
  | PENDING | STAKED =>
      stakeAmount m * ((if p1Staked m then 1 else 0) + (if p2Staked m then 1 else 0))
  | SETTLED | REFUNDED => 0
  end.

Definition is_terminal (st : MatchStatus) : bool :=
  match st with SETTLED | REFUNDED => true | _ => false end.

Record match_ok (self : address) (m : Match) : Prop := {
  ok_absent : p1 m = 0 -> m = noMatch;
  ok_players : p1 m <> 0 -> p2 m <> 0 /\ p1 m <> p2 m;
  ok_stake : p1 m <> 0 -> 0 < stakeAmount m <= MAX_UINT256;
  ok_pending : status m = PENDING ->
               startTime m = 0 /\ p1Staked m && p2Staked m = false;
  ok_started : status m <> PENDING ->
               p1Staked m = true /\ p2Staked m = true /\
               0 < startTime m <= MAX_UINT256;
  ok_p1_not_self : p1Staked m = true -> p1 m <> self;
  ok_p2_not_self : p2Staked m = true -> p2 m <> self
}.

Record Inv (s : State) : Prop := {
  inv_guard : entered s = false;
  inv_ledger : ledger_ok (gameToken s);
  inv_no_allowance : forall x, Ledger.allowances (gameToken s) (this s) x = 0;
  inv_matches : forall matchId, match_ok (this s) (matches s matchId);
  inv_solvent : forall l, NoDup l ->
      sumOver (fun matchId => escrowed (matches s matchId)) l
      <= Ledger.balances (gameToken s) (this s)
}.

(** The state right after deployment: no match, guard open, a sound
    ledger on which the new contract has approved nobody. *)
Record genesis (s : State) : Prop := {
  gen_guard : entered s = false;
  gen_matches : forall matchId, matches s matchId = noMatch;
  gen_ledger : ledger_ok (gameToken s);
  gen_no_allowance : forall x, Ledger.allowances (gameToken s) (this s) x = 0
}.

Inductive Reachable : State -> Prop :=
| Reachable_genesis s : genesis s -> Reachable s
| Reachable_step s e c :
    Reachable s -> valid_env s e = true -> valid_call c = true ->
    Reachable (snd (exec e c s)).

(** A run of transactions from one state to another. *)
Inductive Run : State -> State -> Prop :=
| Run_nil s : Run s s
| Run_cons s e c s' :
    valid_env s e = true -> valid_call c = true ->
    Run (snd (exec e c s)) s' -> Run s s'.

(** The moves the status of a match may make in one transaction. *)
Definition status_step (a b : MatchStatus) : bool :=
  match a, b with
  | PENDING, PENDING | PENDING, STAKED
  | STAKED, STAKED | STAKED, SETTLED | STAKED, REFUNDED
  | SETTLED, SETTLED | REFUNDED, REFUNDED => true
  | _, _ => false
  end.

End PlayGame.

(* ================================================================== *)
(** * JavaScript numbers                                              *)
(* ================================================================== *)

Module Binary64.

Definition prec : Z := 53.
Definition emax : Z := 1024.

(** The Number value of a mathematical integer: what [parseInt] returns
    for a string of decimal digits, and what an integer-valued expression
    such as [leaderboardData.size] holds. *)
Definition ofZ (n : Z) : spec_float := binary_normalize prec emax n 0 false.

(** The Number value of the quotient [a / b] of a non-negative by a
    positive integer: what [parseFloat] returns for the decimal numeral of
    [a / 10^k].  The division of [SpecFloat] rounds the exact quotient of
    the two integers once. *)
Definition ofRatio (a b : Z) : spec_float :=
  match a, b with
  | Zpos p, Zpos q =>
      SFdiv prec emax (S754_finite false p 0) (S754_finite false q 0)
  | _, _ => S754_zero false
  end.

(** [Number.prototype.toFixed(2)], step "let n be an integer for which
    n / 10^2 - x is as close to zero as possible; if there are two such n,
    pick the larger": [n] for the number [m * 2^e]. *)
Definition hundredths (m : positive) (e : Z) : Z :=
  if 0 <=? e then 100 * Zpos m * 2 ^ e
  else (200 * Zpos m + 2 ^ (- e)) / 2 ^ (1 - e).

(** [bound <= m * 2^e], on the exact values. *)
Definition atLeast (m : positive) (e : Z) (bound : Z) : bool :=
  if 0 <=? e then bound <=? Zpos m * 2 ^ e else bound * 2 ^ (- e) <=? Zpos m.

(** [parseFloat(x.toFixed(2))].  From 10^21 on, [toFixed] returns
    [ToString(x)], which reads back as [x]; so do [NaN] and the infinities.
    A negative number is rounded on its absolute value and keeps its sign;
    [-0] prints as [0.00]. *)
Definition toFixed2 (x : spec_float) : spec_float :=
  match x with
  | S754_finite s m e =>
      if atLeast m e (10 ^ 21) then x
      else
        let n := hundredths m e in
        if n =? 0 then S754_zero s
        else if s then SFopp (ofRatio n 100) else ofRatio n 100
  | S754_zero _ => S754_zero false
  | _ => x
  end.

(** The mathematical value of a number that holds an integer. *)
Definition toZ (x : spec_float) : option Z :=
  match x with
  | S754_zero _ => Some 0
  | S754_finite s m e =>
      let sign := fun v : Z => if s then - v else v in
      if 0 <=? e then Some (sign (Zpos m * 2 ^ e))
      else if Zpos m mod 2 ^ (- e) =? 0 then Some (sign (Zpos m / 2 ^ (- e)))
      else None
  | _ => None
  end.

(** [Number::toString] picks the decimal numeral with the fewest
    significant digits whose Number value is [x], the closest to [x] among
    those (an even last digit on a tie).  For an integer-valued [x] of
    value [v], a numeral with [z] trailing zeros is a multiple of [10^z];
    the two multiples next to [v] are the candidates. *)
Definition roundTrips (c : Z) (x : spec_float) : bool :=
  (0 <? c) && SFeqb (ofZ c) x.

Definition candidate (P : Z) (x : spec_float) (v : Z) : option Z :=
  let lo := v - v mod P in
  let hi := lo + P in
  match roundTrips lo x, roundTrips hi x with
  | true, true =>
      if v - lo <? hi - v then Some lo
      else if hi - v <? v - lo then Some hi
      else if Z.even (lo / P) then Some lo else Some hi
  | true, false => Some lo
  | false, true => Some hi
  | false, false => None
  end.

(** The most trailing zeros first: the fewest significant digits. *)
Fixpoint shortest (z : nat) (x : spec_float) (v : Z) : Z :=
  match candidate (10 ^ Z.of_nat z) x v, z with
  | Some c, _ => c
  | None, O => v
  | None, S z' => shortest z' x v
  end.

(** [x.toString()] for a number that holds an integer below 10^21 in
    absolute value: the integer that the digits printed denote.  [None]
    when the string is not a plain string of digits: exponent notation
    from 10^21 on, a fraction, [NaN], [Infinity]. *)
Definition toString (x : spec_float) : option Z :=
  match toZ x with
  | Some v =>
      if v =? 0 then Some 0
      else if 10 ^ 21 <=? Z.abs v then None
      else Some (Z.sgn v * shortest 21 (SFabs x) (Z.abs v))
  | None => None
  end.

End Binary64.

(* ================================================================== *)
(** * ethers: contract objects                                        *)
(* ================================================================== *)

Module Ethers.

(** A fragment of a human-readable ABI, by kind and name. *)
Inductive Fragment : Type :=
| EventFragment (name : string)
| FunctionFragment (name : string).

(** [new ethers.Contract(address, abi, provider)] has a method for each
    function fragment of [abi] and for nothing else. *)
Definition hasFunction (abi : list Fragment) (name : string) : bool :=
  existsb (fun f => match f with
                    | FunctionFragment n => String.eqb n name
                    | EventFragment _ => false
                    end) abi.

End Ethers.

(* ================================================================== *)
(** * tools/leaderboard.js                                            *)
(* ================================================================== *)

Module Leaderboard.

(** The JavaScript numbers that hold GT amounts.  [totalGTWon] is a
    Number; the aggregator only adds such numbers, converts a [uint256]
    event amount with [parseFloat(ethers.formatUnits(x, 18))], and rounds
    with [toFixed(2)].  The handlers are written over these four
    operations, so that what is proved of the counters and of the table
    does not depend on the arithmetic; [Binary64Number] below is the
    arithmetic of the program. *)
Record JsNumber : Type := mkJsNumber {
  num : Type;
  nzero : num;                        (* the literal 0 *)
  nadd : num -> num -> num;           (* a + b *)
  ofUnits : Z -> num;                 (* parseFloat(ethers.formatUnits(x, 18)) *)
  toFixed2 : num -> num;              (* parseFloat(x.toFixed(2)) *)
  divFixed2 : num -> Z -> num         (* parseFloat((x / n).toFixed(2)) *)
}.

(** The operations on binary64 numbers.  [ethers.formatUnits(x, 18)] is the
    decimal numeral of [x / 10^18], which [parseFloat] rounds to the nearest
    number; [n] in [x / n] is [leaderboardData.size]. *)
Definition Binary64Number : JsNumber :=
  mkJsNumber spec_float
             (S754_zero false)
             (SFadd Binary64.prec Binary64.emax)
             (fun x => Binary64.ofRatio x (10 ^ 18))
             Binary64.toFixed2
             (fun x n => Binary64.toFixed2
                           (SFdiv Binary64.prec Binary64.emax x (Binary64.ofZ n))).

(** [PLAY_GAME_ABI] of the aggregator: the four events of the escrow and
    no function. *)
Definition PLAY_GAME_ABI : list Ethers.Fragment :=
  [ Ethers.EventFragment "MatchCreated";
    Ethers.EventFragment "Staked";
    Ethers.EventFragment "Settled";
    Ethers.EventFragment "Refunded" ].

(** [await playGameContract.matches(matchId)] inside the [try] of
    [updateLoserStats], on a contract object built from [abi], [chain]
    being the matches the escrow stores: the match read, or [None] when the
    call throws.  Calling a method the contract object does not have throws
    a [TypeError]; a call the object has is taken to return. *)
Definition readMatch (abi : list Ethers.Fragment)
    (chain : bytes32 -> PlayGame.Match) (matchId : bytes32)
  : option PlayGame.Match :=
  if Ethers.hasFunction abi "matches" then Some (chain matchId) else None.

Section Aggregator.

Variable N : JsNumber.

(** The record kept per player: [{ wins, totalGTWon, matchesPlayed }]. *)
Record Stats : Type := mkStats {
  wins : Z;
  totalGTWon : num N;
  matchesPlayed : Z
}.

(** [leaderboardData], a JavaScript [Map]: keys are unique and iteration
    follows insertion order. *)
Definition Table : Type := list (address * Stats).

Fixpoint get (k : address) (t : Table) : option Stats :=
  match t with
  | [] => None
  | (k', v) :: rest => if k' =? k then Some v else get k rest
  end.

Definition has (k : address) (t : Table) : bool :=
  match get k t with Some _ => true | None => false end.

Fixpoint set (k : address) (v : Stats) (t : Table) : Table :=
  match t with
  | [] => [(k, v)]
  | (k', v') :: rest =>
      if k' =? k then (k, v) :: rest else (k', v') :: set k v rest
  end.

Definition newStats : Stats := mkStats 0 (nzero N) 0.

(** [if (!leaderboardData.has(a)) leaderboardData.set(a, {0, 0, 0})] *)
Definition initPlayer (a : address) (t : Table) : Table :=
  if negb (has a t) then set a newStats t else t.

Definition onMatchCreated (p1 p2 : address) (t : Table) : Table :=
  initPlayer p2 (initPlayer p1 t).

(** The synchronous part of the [Settled] listener: the winner's record. *)
Definition onSettled (winner : address) (amount : Z) (t : Table) : Table :=
  match get winner t with
  | Some stats =>
      set winner (mkStats (wins stats + 1)
                          (nadd N (totalGTWon stats) (ofUnits N amount))
                          (matchesPlayed stats + 1)) t
  | None => set winner (mkStats 1 (ofUnits N amount) 1) t
  end.

(** The body of [updateLoserStats] from the outcome of the read-back on:
    the match, or [None] when the read threw (the [catch] branch only
    logs). *)
Definition afterReadBack (readBack : option PlayGame.Match)
    (winner : address) (t : Table) : Table :=
  match readBack with
  | Some m =>
      let loser := if PlayGame.p1 m =? winner then PlayGame.p2 m
                   else PlayGame.p1 m in
      match get loser t with
      | Some stats =>
          set loser (mkStats (wins stats) (totalGTWon stats)
                             (matchesPlayed stats + 1)) t
      | None => set loser (mkStats 0 (nzero N) 1) t
      end
  | None => t
  end.

(** [updateLoserStats(matchId, winner)] on a contract object built from
    [abi]. *)
Definition updateLoserStats (abi : list Ethers.Fragment)
    (chain : bytes32 -> PlayGame.Match) (matchId : bytes32)
    (winner : address) (t : Table) : Table :=
  afterReadBack (readMatch abi chain matchId) winner t.

(** The [Settled] listener as a whole, when nothing else runs between the
    listener and the end of [updateLoserStats]. *)
Definition settledListener (abi : list Ethers.Fragment)
    (chain : bytes32 -> PlayGame.Match) (matchId : bytes32)
    (winner : address) (amount : Z) (t : Table) : Table :=
  updateLoserStats abi chain matchId winner (onSettled winner amount t).

Definition bumpPlayed (a : address) (t : Table) : Table :=
  match get a t with
  | Some stats =>
      set a (mkStats (wins stats) (totalGTWon stats) (matchesPlayed stats + 1)) t
  | None => t
  end.

Definition onRefunded (p1 p2 : address) (t : Table) : Table :=
  bumpPlayed p2 (bumpPlayed p1 t).

Definition onPurchase (buyer : address) (t : Table) : Table :=
  initPlayer buyer t.

(** What the single-threaded event loop runs, one callback at a time: a
    listener for an event of either contract, the rest of an
    [updateLoserStats] started by an earlier [Settled] listener, given what
    its read-back returned, or [POST /reset].  The read-backs of the program
    are those of [readMatch PLAY_GAME_ABI]; see [listen] below. *)
Inductive Input : Type :=
| GameEvent (e : PlayGame.Event)
| StoreEvent (e : TokenStore.Event)
| LoserReadBack (matchId : bytes32) (winner : address)
                (readBack : option PlayGame.Match)
| Reset.

Definition handle (t : Table) (i : Input) : Table :=
  match i with
  | GameEvent (PlayGame.MatchCreated _ p1 p2 _) => onMatchCreated p1 p2 t
  | GameEvent (PlayGame.Staked _ _) => t
  | GameEvent (PlayGame.Settled _ winner amount) => onSettled winner amount t
  | GameEvent (PlayGame.Refunded _ p1 p2 _) => onRefunded p1 p2 t
  | StoreEvent (TokenStore.Purchase buyer _ _) => onPurchase buyer t
  | LoserReadBack _ winner readBack => afterReadBack readBack winner t
  | Reset => []
  end.

Definition process (inputs : list Input) (t : Table) : Table :=
  fold_left handle inputs t.

(** The callbacks run for the events of the escrow, by an aggregator whose
    contract object is built from [abi]: a listener per event and, after a
    [Settled] listener, the rest of its [updateLoserStats]. *)
Definition callbacks (abi : list Ethers.Fragment) (chain : bytes32 -> PlayGame.Match)
    (ev : PlayGame.Event) : list Input :=
  match ev with
  | PlayGame.Settled matchId winner _ =>
      [GameEvent ev; LoserReadBack matchId winner (readMatch abi chain matchId)]
  | _ => [GameEvent ev]
  end.

Definition listen (abi : list Ethers.Fragment) (chain : bytes32 -> PlayGame.Match)
    (events : list PlayGame.Event) : list Input :=
  flat_map (callbacks abi chain) events.

(** [GET /stats] (without the wall-clock [timestamp]). *)
Record Totals : Type := mkTotals {
  totalPlayers : Z;
  totalWins : Z;
  totalGTWonOut : num N;         (* the field [totalGTWon] of the response *)
  totalMatches : Z;
  averageGTPerPlayer : num N
}.

Definition sumWins (t : Table) : Z :=
  fold_left (fun acc kv => acc + wins (snd kv)) t 0.
Definition sumGTWon (t : Table) : num N :=
  fold_left (fun acc kv => nadd N acc (totalGTWon (snd kv))) t (nzero N).
Definition sumMatches (t : Table) : Z :=
  fold_left (fun acc kv => acc + matchesPlayed (snd kv)) t 0.

Definition getStats (t : Table) : Totals :=
  let totalPlayers := Z.of_nat (List.length t) in
  mkTotals totalPlayers
           (sumWins t)
           (toFixed2 N (sumGTWon t))
           (sumMatches t)
           (if 0 <? totalPlayers then divFixed2 N (sumGTWon t) totalPlayers
            else nzero N).

(** The settlement payouts seen since the last reset, oldest first. *)
Fixpoint payoutsSinceReset (inputs : list Input) (acc : list Z) : list Z :=
  match inputs with
  | [] => acc
  | GameEvent (PlayGame.Settled _ _ amount) :: rest =>
      payoutsSinceReset rest (acc ++ [amount])
  | Reset :: rest => payoutsSinceReset rest []
  | _ :: rest => payoutsSinceReset rest acc
  end.

(** The sum of a list of payouts, computed in the aggregator's arithmetic. *)
Definition sumPayouts (l : list Z) : num N :=
  fold_left (fun acc x => nadd N acc (ofUnits N x)) l (nzero N).

End Aggregator.

Arguments wins {N} _.
Arguments totalGTWon {N} _.
Arguments matchesPlayed {N} _.
Arguments mkStats {N} _ _ _.
Arguments get {N} _ _.
Arguments has {N} _ _.
Arguments set {N} _ _ _.
Arguments totalWins {N} _.
Arguments totalMatches {N} _.
Arguments totalGTWonOut {N} _.
Arguments totalPlayers {N} _.
Arguments averageGTPerPlayer {N} _.

End Leaderboard.

(* ================================================================== *)
(** * tools/leaderboard.js: the ranking                               *)
(* ================================================================== *)

Module Ranking.

Section Ranking.

Variable N : Leaderboard.JsNumber.

(** [x > y] on the numbers holding GT.  The comparator of the route,
    [(a, b) => b.totalGTWon - a.totalGTWon], is positive exactly when
    [b.totalGTWon > a.totalGTWon]. *)
Variable gtb : Leaderboard.num N -> Leaderboard.num N -> bool.

(** An element of [Array.from(leaderboardData.entries())], then of the
    mapped array [{ address, wins, totalGTWon, matchesPlayed }]. *)
Definition Row : Type := (address * Leaderboard.Stats N)%type.

Definition won (r : Row) : Leaderboard.num N := Leaderboard.totalGTWon (snd r).

(** [Array.prototype.sort] is stable.  With this comparator a row moves
    behind exactly the rows that won strictly more: [x], which stood before
    every row of [sorted], is put in front of the first row that did not
    win more than it. *)
Fixpoint insertRow (x : Row) (sorted : list Row) : list Row :=
  match sorted with
  | [] => [x]
  | y :: rest => if gtb (won y) (won x) then y :: insertRow x rest
                 else x :: y :: rest
  end.

Definition sortRows (rows : list Row) : list Row :=
  fold_right insertRow [] rows.

(** [GET /leaderboard]: the fields [leaderboard] and [totalPlayers] of the
    response. *)
Definition getLeaderboard (t : Leaderboard.Table N) : list Row * Z :=
  (firstn 10 (sortRows t), Z.of_nat (List.length t)).

End Ranking.

End Ranking.

(* ================================================================== *)
(** * Vocabulary of the statements                                    *)
(* ================================================================== *)

(** What [move] does to the balances, in one formula. *)
Definition moved (from to : address) (amount : Z) (t : Ledger.Token)
    (a : address)
  : Z :=
  Ledger.balances t a - (if a =? from then amount else 0)
               + (if a =? to then amount else 0).

(** The record a successful [stake] leaves under the match id. *)
Definition staked_match (e : PlayGame.Env) (m : PlayGame.Match)
  : PlayGame.Match :=
  let m1 := if PlayGame.sender e =? PlayGame.p1 m
            then PlayGame.set_p1Staked true m
            else PlayGame.set_p2Staked true m in
  if PlayGame.p1Staked m1 && PlayGame.p2Staked m1
  then PlayGame.set_startTime (PlayGame.timestamp e)
         (PlayGame.set_status PlayGame.STAKED m1)
  else m1.

(** The token ledger after the transfers of a successful [refund]. *)
Definition refunded_ledger (self : address) (m : PlayGame.Match)
    (g : Ledger.Token) : option Ledger.Token :=
  match (if PlayGame.p1Staked m
         then Ledger.transfer self (PlayGame.p1 m) (PlayGame.stakeAmount m) g
         else Some g) with
  | Some g1 =>
      if PlayGame.p2Staked m
      then Ledger.transfer self (PlayGame.p2 m) (PlayGame.stakeAmount m) g1
      else Some g1
  | None => None
  end.

(** ** A concrete run of the escrow *)

Module Scenario.

Import PlayGame.

(** Accounts: the escrow contract, its deployer, the result-reporting
    backend, the minting authority and two players. *)
Definition escrow : address := 100.
Definition deployer : address := 1.
Definition backend : address := 2.
Definition store : address := 50.
Definition alice : address := 11.
Definition bob : address := 12.
Definition carol : address := 13.

Definition GT : Z := 10 ^ 18.
Definition matchId : bytes32 := 7.

(** The escrow right after deployment, on a ledger nobody holds yet. *)
Definition deployed : State :=
  mkState escrow deployer deployer false
          (Ledger.mkToken (fun _ => 0) (fun _ _ => 0) 0 store)
          (fun _ => noMatch) [].

Definition run_script (script : list (Env * Call)) (s : State) : State :=
  fold_left (fun st ec => snd (exec (fst ec) (snd ec) st)) script s.

Definition valid_script (s : State) (script : list (Env * Call)) : bool :=
  forallb (fun ec => valid_env s (fst ec) && valid_call (snd ec)) script.

(** Both players receive 20 GT, the backend is named, and alice lets the
    escrow pull her stake ... *)
Definition script_funded : list (Env * Call) :=
  [ (mkEnv store 1000, TokenMint alice (20 * GT));
    (mkEnv store 1000, TokenMint bob (20 * GT));
    (mkEnv deployer 1100, SetBackendOperator backend);
    (mkEnv alice 1150, TokenApprove escrow (5 * GT)) ].

(** ... a match with a stake of 5 GT is created, ... *)
Definition script_created : list (Env * Call) :=
  script_funded ++
  [ (mkEnv deployer 1200, CreateMatch matchId alice bob (5 * GT)) ].

(** ... then only alice stakes, at time 2000, ... *)
Definition script_one_staked : list (Env * Call) :=
  script_created ++
  [ (mkEnv alice 2000, Stake matchId) ].

(** ... then bob stakes too, at time 3000. *)
Definition script_staked : list (Env * Call) :=
  script_one_staked ++
  [ (mkEnv bob 2900, TokenApprove escrow (5 * GT));
    (mkEnv bob 3000, Stake matchId) ].

Definition funded : State := run_script script_funded deployed.
Definition created : State := run_script script_created deployed.
Definition one_staked : State := run_script script_one_staked deployed.
Definition staked : State := run_script script_staked deployed.

End Scenario.

(** ** A concrete token store *)

Module StoreScenario.

Import TokenStore.

Definition storeAddr : address := 50.
Definition buyer : address := 11.

(** The store of the tests: 1 USDT (10^6 units) buys 1 GT (10^18 units).
    The buyer holds 100 USDT and has approved the store for 10 USDT; the
    store is the minting authority of the game token. *)
Definition opened : State :=
  mkState storeAddr 1 false
    (Ledger.mkToken (fun a => if a =? buyer then 100 * 10 ^ 6 else 0)
       (fun o sp => if (o =? buyer) && (sp =? storeAddr) then 10 * 10 ^ 6 else 0)
       (100 * 10 ^ 6) 1)
    (Ledger.mkToken (fun _ => 0) (fun _ _ => 0) 0 storeAddr)
    (10 ^ 18) [].

End StoreScenario.

(** ** Reading the leaderboard *)

(** The record of a player as [GET /player/:address] reports it: zeros
    for a player the table does not hold. *)
Definition statsOf {N : Leaderboard.JsNumber} (t : Leaderboard.Table N)
    (a : address) : Leaderboard.Stats N :=
  match Leaderboard.get a t with
  | Some st => st
  | None => Leaderboard.newStats N
  end.

(** No record counts more wins than matches played. *)
Definition table_sound {N : Leaderboard.JsNumber} (t : Leaderboard.Table N)
  : Prop :=
  Forall (fun kv => Leaderboard.wins (snd kv)
                    <= Leaderboard.matchesPlayed (snd kv)) t.

(** A sequence of callbacks without [POST /reset]. *)
Definition noReset (inputs : list Leaderboard.Input) : bool :=
  forallb (fun i => match i with Leaderboard.Reset => false | _ => true end)
          inputs.

(** Wins are counted from zero and never exceed the matches played. *)
Definition counts_bounded {N : Leaderboard.JsNumber} (st : Leaderboard.Stats N)
  : Prop :=
  0 <= Leaderboard.wins st <= Leaderboard.matchesPlayed st.

(** The loser [updateLoserStats] picks from a read-back match. *)
Definition loserOf (m : PlayGame.Match) (winner : address) : address :=
  if PlayGame.p1 m =? winner then PlayGame.p2 m else PlayGame.p1 m.

(** The match a read-back returns once match 7 between accounts 11 and 12,
    each staking [stake], is settled. *)
Definition settled_chain (stake : Z) : bytes32 -> PlayGame.Match :=
  fun matchId =>
    if matchId =? 7
    then PlayGame.mkMatch 11 12 stake 3000 PlayGame.SETTLED true true
    else PlayGame.noMatch.

(** The events of a match won by account 11, as the aggregator receives
    them from its contract object. *)
Definition settlement (stake : Z) : list Leaderboard.Input :=
  Leaderboard.listen Leaderboard.PLAY_GAME_ABI (settled_chain stake)
    [ PlayGame.MatchCreated 7 11 12 stake;
      PlayGame.Staked 7 11;
      PlayGame.Staked 7 12;
      PlayGame.Settled 7 11 (2 * stake) ].

(** A settlement of 0.002 GT (a stake of 0.001 GT) seen by a fresh
    aggregator. *)
Definition small_settlement : list Leaderboard.Input := settlement (10 ^ 15).

(** A settlement of 10 GT (a stake of 5 GT). *)
Definition whole_settlement : list Leaderboard.Input := settlement (5 * 10 ^ 18).

(** ** Numbers that hold whole amounts *)

(** The number of binary digits of a positive integer. *)
Definition bits (k : Z) : Z := Z.log2 k + 1.

(** The binary64 number that holds the integer [k], for [0 <= k < 2^53]:
    [k] shifted into a mantissa of 53 bits. *)
Definition whole (k : Z) : spec_float :=
  if k =? 0 then S754_zero false
  else S754_finite false (Z.to_pos (k * 2 ^ (53 - bits k))) (bits k - 53).

(** [holdsUnits x u]: the value of the number [x] is exactly [u] units of
    10^-18 GT. *)
Definition holdsUnits (x : spec_float) (u : Z) : Prop :=
  match x with
  | S754_zero _ => u = 0
  | S754_finite false m e =>
      if 0 <=? e then Zpos m * 2 ^ e * 10 ^ 18 = u
      else Zpos m * 10 ^ 18 = u * 2 ^ (- e)
  | _ => False
  end.

(** The sum of a list of amounts. *)
Definition sumUnits (l : list Z) : Z := fold_right Z.add 0 l.

(** Amounts that are whole numbers of GT and add up to less than 2^53 GT. *)
Definition wholeGT (l : list Z) : Prop :=
  Forall (fun a => 0 <= a /\ a mod 10 ^ 18 = 0) l /\
  sumUnits l < 2 ^ 53 * 10 ^ 18.

(** The winnings recorded in a table, in insertion order. *)
Definition winnings (t : Leaderboard.Table Leaderboard.Binary64Number)
  : list spec_float :=
  map (fun kv => Leaderboard.totalGTWon (snd kv)) t.

(** The records of the table hold the whole amounts [ws], in GT. *)
Definition holdsWhole (t : Leaderboard.Table Leaderboard.Binary64Number)
    (ws : list Z) : Prop :=
  winnings t = map whole ws /\ Forall (fun w => 0 <= w) ws.

(** The records of the table hold whole amounts that add up to [K] GT. *)
Definition holdsTotal (t : Leaderboard.Table Leaderboard.Binary64Number)
    (K : Z) : Prop :=
  exists ws, holdsWhole t ws /\ sumUnits ws = K.

(** ** The concrete run, continued *)

Module Outcomes.

Import PlayGame.

(** The staked match of [Scenario], settled for alice at time 4000 ... *)
Definition settled : State :=
  snd (exec (mkEnv Scenario.backend 4000)
            (CommitResult Scenario.matchId Scenario.alice) Scenario.staked).

(** ... or refunded, on carol's call, once 24 hours have passed. *)
Definition refunded : State :=
  snd (exec (mkEnv Scenario.carol (3000 + 86400))
            (Refund Scenario.matchId) Scenario.staked).

(** A second run in which both players approve the escrow first, so that
    creation, the two stakes and the settlement follow one another. *)
Definition approved : State :=
  snd (exec (mkEnv Scenario.bob 1160)
            (TokenApprove Scenario.escrow (5 * Scenario.GT)) Scenario.funded).
Definition game1 : State :=
  snd (exec (mkEnv Scenario.deployer 1200)
            (CreateMatch 8 Scenario.alice Scenario.bob (5 * Scenario.GT))
            approved).
Definition game2 : State :=
  snd (exec (mkEnv Scenario.bob 2000) (Stake 8) game1).
Definition game3 : State :=
  snd (exec (mkEnv Scenario.alice 3000) (Stake 8) game2).
Definition game4 : State :=
  snd (exec (mkEnv Scenario.backend 4000) (CommitResult 8 Scenario.alice) game3).

(** The whole first run, settlement included, as one script. *)
Definition script_settled : list (Env * Call) :=
  Scenario.script_staked ++
  [ (mkEnv Scenario.backend 4000,
     CommitResult Scenario.matchId Scenario.alice) ].

Definition played : State :=
  Scenario.run_script script_settled Scenario.deployed.

End Outcomes.

(** ** Events and the state they report *)

(** What an event of the log says about the match stored under its id. *)
Definition event_ok (s : PlayGame.State) (ev : PlayGame.Event) : Prop :=
  match ev with
  | PlayGame.MatchCreated matchId a b amount =>
      a <> 0 /\
      PlayGame.p1 (PlayGame.matches s matchId) = a /\
      PlayGame.p2 (PlayGame.matches s matchId) = b /\
      PlayGame.stakeAmount (PlayGame.matches s matchId) = amount
  | PlayGame.Staked matchId player =>
      (player = PlayGame.p1 (PlayGame.matches s matchId) /\
       PlayGame.p1Staked (PlayGame.matches s matchId) = true) \/
      (player = PlayGame.p2 (PlayGame.matches s matchId) /\
       PlayGame.p2Staked (PlayGame.matches s matchId) = true)
  | PlayGame.Settled matchId winner amount =>
      PlayGame.status (PlayGame.matches s matchId) = PlayGame.SETTLED /\
      (winner = PlayGame.p1 (PlayGame.matches s matchId) \/
       winner = PlayGame.p2 (PlayGame.matches s matchId)) /\
      amount = 2 * PlayGame.stakeAmount (PlayGame.matches s matchId)
  | PlayGame.Refunded matchId a b amount =>
      PlayGame.status (PlayGame.matches s matchId) = PlayGame.REFUNDED /\
      a = PlayGame.p1 (PlayGame.matches s matchId) /\
      b = PlayGame.p2 (PlayGame.matches s matchId) /\
      amount = PlayGame.stakeAmount (PlayGame.matches s matchId)
  end.

(* ================================================================== *)
(** * api/server.js: the purchase quote                               *)
(* ================================================================== *)

Module Api.

(** [PLAY_GAME_ABI] of the API server: four functions of the escrow, the
    getter [matches] among them. *)
Definition PLAY_GAME_ABI : list Ethers.Fragment :=
  [ Ethers.FunctionFragment "createMatch";
    Ethers.FunctionFragment "commitResult";
    Ethers.FunctionFragment "matches";
    Ethers.FunctionFragment "backendOperator" ].

(** What [GET /purchase?amount=...] answers: status 400, status 500, or
    the quote.  The quote's [usdtAmount] is the integer whose digits the
    response prints; its [gtOut] is kept as the integer the handler
    computes, which the response renders with
    [ethers.formatUnits(gtOut, 18)]. *)
Inductive Response : Type :=
| BadRequest (error : string)
| ServerError (error : string)
| Quote (usdtAmount : Z) (gtOut : Z).

(** The handler, from the integer that [parseInt(amount)] reads ([None]
    when the parameter is missing or does not start with a number) and the
    outcome of the read [await tokenStore.gtPerUsdt()] ([None] when it
    throws).  [usdtAmount] is the Number value of that integer;
    [ethers.parseUnits] is given [usdtAmount.toString()] and throws unless
    that is a plain decimal numeral.  [usdtAmountWei] and [gtOut] are BigInt
    values: no overflow, truncating division. *)
Definition purchase (amount : option Z) (gtPerUsdt : option Z) : Response :=
  match amount with
  | None => BadRequest "Invalid USDT amount"
  | Some n =>
      if n <=? 0 then BadRequest "Invalid USDT amount"
      else
        let usdtAmount := Binary64.ofZ n in
        match Binary64.toString usdtAmount with
        | None => ServerError "Purchase failed"
        | Some printed =>
            let usdtAmountWei := printed * 10 ^ 6 in
            match gtPerUsdt with
            | None => ServerError "Purchase failed"
            | Some rate =>
                let gtOut := Z.quot (usdtAmountWei * rate) (1 * 10 ^ 6) in
                Quote printed gtOut
            end
        end
  end.

End Api.

(* ================================================================== *)
(** * Proofs: sums over mappings                                      *)
(* ================================================================== *)

Import PlayGame.

Lemma MAX_UINT256_pos : 0 < MAX_UINT256.
Proof. reflexivity. Qed.

Lemma is_uint256_true x : is_uint256 x = true <-> 0 <= x <= MAX_UINT256.
Proof. unfold is_uint256. rewrite andb_true_iff, !Z.leb_le. tauto. Qed.

Lemma is_uint256_false x : is_uint256 x = false <-> ~ (0 <= x <= MAX_UINT256).
Proof.
  rewrite <- is_uint256_true. now destruct (is_uint256 x).
Qed.

(** Case analysis on every integer equality test of the goal. *)
Ltac case_eqb :=
  repeat match goal with
         | |- context [?a =? ?b] => destruct (Z.eqb_spec a b)
         end.

Lemma upd_same {V} (f : Z -> V) k v : upd f k v k = v.
Proof. unfold upd. now rewrite Z.eqb_refl. Qed.

Lemma upd_other {V} (f : Z -> V) k v k' : k' <> k -> upd f k v k' = f k'.
Proof. unfold upd. intros H. apply Z.eqb_neq in H. now rewrite H. Qed.

Section Sums.

Variables f g : Z -> Z.
Variable k : Z.
Hypothesis agree : forall a, a <> k -> g a = f a.

Lemma sumOver_absent l : ~ In k l -> sumOver g l = sumOver f l.
Proof.
  induction l as [|a l IH]; simpl; intros Hn; [reflexivity|].
  rewrite agree by (intros ->; apply Hn; now left).
  rewrite IH by tauto. reflexivity.
Qed.

Lemma sumOver_present l :
  NoDup l -> In k l -> sumOver g l = sumOver f l - f k + g k.
Proof.
  induction 1 as [|a l Hna Hnd IH]; simpl; intros Hin; [contradiction|].
  destruct Hin as [-> | Hin].
  - rewrite (sumOver_absent l Hna). lia.
  - rewrite IH by assumption. rewrite agree; [lia|].
    intros ->. contradiction.
Qed.

(** Changing one entry of a mapping whose sums are bounded by [B] moves
    the bound by the change of that entry. *)
Lemma sumOver_bound B :
  (forall l, NoDup l -> sumOver f l <= B) ->
  0 <= g k ->
  forall l, NoDup l -> sumOver g l <= B - f k + g k.
Proof.
  intros Hb Hg l Hnd.
  destruct (in_dec Z.eq_dec k l) as [Hin | Hn].
  - rewrite sumOver_present by assumption. specialize (Hb l Hnd). lia.
  - rewrite sumOver_absent by assumption.
    assert (Hk : NoDup (k :: l)) by now constructor.
    specialize (Hb _ Hk). simpl in Hb. lia.
Qed.

End Sums.

Lemma sumOver_zero (l : list Z) : sumOver (fun _ => 0) l = 0.
Proof. induction l; simpl; lia. Qed.

Lemma sumOver_ext (f g : Z -> Z) l :
  (forall a, g a = f a) -> sumOver g l = sumOver f l.
Proof. intros H. induction l; simpl; [reflexivity|]. now rewrite H, IHl. Qed.

(* ================================================================== *)
(** * Proofs: the ledger                                              *)
(* ================================================================== *)

Section LedgerFacts.

Import Ledger.

Lemma move_done from to amount t t' :
  move from to amount t = Some t' ->
  amount <= balances t from /\
  (forall a, balances t' a = moved from to amount t a) /\
  allowances t' = allowances t /\
  totalSupply t' = totalSupply t /\
  minter t' = minter t.
Proof.
  unfold move. destruct (balances t from <? amount) eqn:Hb; [discriminate|].
  destruct (MAX_UINT256 <? _) eqn:Ho; [discriminate|].
  intros [= <-]. cbn. apply Z.ltb_ge in Hb.
  repeat split; try assumption.
  intros a. unfold moved, upd.
  case_eqb; subst; try congruence; lia.
Qed.

Lemma moved_bound from to amount t :
  ledger_ok t -> 0 <= amount <= balances t from ->
  forall l, NoDup l -> sumOver (moved from to amount t) l <= totalSupply t.
Proof.
  intros (Hpos & Hsum & _) Ha.
  set (f1 := fun a => balances t a - (if a =? from then amount else 0)).
  assert (Hag1 : forall a, a <> from -> f1 a = balances t a).
  { intros a Hne. unfold f1. case_eqb; [contradiction | lia]. }
  assert (E1 : f1 from = balances t from - amount).
  { unfold f1. now rewrite Z.eqb_refl. }
  assert (Hag2 : forall a, a <> to -> moved from to amount t a = f1 a).
  { intros a Hne. unfold moved, f1. case_eqb; try contradiction; lia. }
  assert (E2 : moved from to amount t to = f1 to + amount).
  { unfold moved, f1. case_eqb; try contradiction; lia. }
  assert (Hf1 : 0 <= f1 to).
  { unfold f1. specialize (Hpos to). case_eqb; subst; lia. }
  clearbody f1.
  assert (H1 : forall l, NoDup l -> sumOver f1 l <= totalSupply t - amount).
  { intros l Hl.
    pose proof (sumOver_bound (balances t) f1 from Hag1 (totalSupply t) Hsum
                  ltac:(lia) l Hl).
    lia. }
  intros l Hl.
  pose proof (sumOver_bound f1 (moved from to amount t) to Hag2
                (totalSupply t - amount) H1 ltac:(lia) l Hl).
  lia.
Qed.

Lemma moved_nonneg from to amount t a :
  ledger_ok t -> 0 <= amount <= balances t from ->
  0 <= moved from to amount t a.
Proof.
  intros (Hpos & _) Ha. unfold moved. pose proof (Hpos a).
  case_eqb; subst; lia.
Qed.

Lemma move_ok from to amount t t' :
  ledger_ok t -> 0 <= amount -> move from to amount t = Some t' ->
  ledger_ok t'.
Proof.
  intros Hok Ha Hm. destruct (move_done _ _ _ _ _ Hm) as (Hle & Hb & _ & Hs & _).
  split; [|split].
  - intros a. rewrite Hb. apply moved_nonneg; auto.
  - intros l Hl. rewrite Hs.
    rewrite (sumOver_ext (moved from to amount t)) by apply Hb.
    apply moved_bound; auto.
  - rewrite Hs. apply Hok.
Qed.

(** On a sound ledger a transfer covered by the balance goes through. *)
Lemma move_runs from to amount t :
  ledger_ok t -> 0 <= amount <= balances t from ->
  exists t', move from to amount t = Some t'.
Proof.
  intros Hok Ha. unfold move.
  destruct (balances t from <? amount) eqn:Hb; [apply Z.ltb_lt in Hb; lia|].
  destruct (MAX_UINT256 <? _) eqn:Ho; [|eauto].
  exfalso. apply Z.ltb_lt in Ho.
  pose proof (moved_bound from to amount t Hok Ha [to]
                (NoDup_cons _ (@in_nil _ _) (NoDup_nil _))) as Hs.
  simpl in Hs. unfold moved in Hs. rewrite Z.eqb_refl in Hs.
  destruct Hok as (_ & _ & Hmax).
  unfold upd in Ho. destruct (Z.eqb_spec to from); subst; lia.
Qed.

End LedgerFacts.

(* ================================================================== *)
(** * Proofs: running the contract functions                          *)
(* ================================================================== *)

Lemma status_eqb_eq a b : status_eqb a b = true <-> a = b.
Proof. destruct a, b; simpl; split; congruence. Qed.

Lemma status_eqb_neq a b : status_eqb a b = false <-> a <> b.
Proof. destruct a, b; simpl; split; congruence. Qed.

Lemma status_eqb_refl a : status_eqb a a = true.
Proof. now destruct a. Qed.

Ltac unfold_monad :=
  unfold nonReentrant, onlyOwner, getMatch, setMatch, emit,
    gameToken_transfer, gameToken_transferFrom, token_call,
    bind, require, checked, gets, modify, ret, revert in *.

Ltac break_if H :=
  match type of H with
  | context [if ?c then _ else _] => destruct c eqn:?
  | context [match ?x with Some _ => _ | None => _ end] => destruct x eqn:?
  end.

(** Turn the boolean tests met along a path into propositions. *)
Ltac reflect_tests :=
  repeat match goal with
         | H : negb _ = true |- _ => apply negb_true_iff in H
         | H : negb _ = false |- _ => apply negb_false_iff in H
         | H : _ && _ = true |- _ => apply andb_true_iff in H; destruct H
         | H : _ || _ = false |- _ => apply orb_false_iff in H; destruct H
         | H : (_ =? _) = true |- _ => apply Z.eqb_eq in H
         | H : (_ =? _) = false |- _ => apply Z.eqb_neq in H
         | H : (_ <? _) = true |- _ => apply Z.ltb_lt in H
         | H : (_ <? _) = false |- _ => apply Z.ltb_ge in H
         | H : (_ <=? _) = true |- _ => apply Z.leb_le in H
         | H : (_ <=? _) = false |- _ => apply Z.leb_gt in H
         | H : status_eqb _ _ = true |- _ => apply status_eqb_eq in H
         | H : status_eqb _ _ = false |- _ => apply status_eqb_neq in H
         | H : is_uint256 _ = true |- _ => apply is_uint256_true in H
         | H : is_uint256 _ = false |- _ => apply is_uint256_false in H
         end.

(** Follow a body that ran to its end: every test on the way held. *)
Ltac run_done H :=
  unfold_monad; cbn in H;
  repeat (break_if H; cbn in H; try discriminate H);
  injection H as <-; cbn.

(** Show that a body runs to its end: a failed test contradicts the
    hypotheses. *)
Ltac run_goal :=
  unfold_monad; cbn;
  repeat match goal with
         | |- context [if ?c then _ else _] => destruct c eqn:?; cbn
         | |- context [match ?x with Some _ => _ | None => _ end] =>
             destruct x eqn:?; cbn
         end.

Ltac split_all := repeat match goal with |- _ /\ _ => split end.

Section Running.

Variables (e : Env) (matchId : bytes32) (s s' : State).

Let m := matches s matchId.

Lemma createMatch_done a b amount :
  createMatch e matchId a b amount s = Done tt s' ->
  sender e = owner s /\ a <> 0 /\ b <> 0 /\ a <> b /\ 0 < amount /\
  p1 m = 0 /\
  (forall k, matches s' k =
             if k =? matchId then mkMatch a b amount 0 PENDING false false
             else matches s k) /\
  gameToken s' = gameToken s /\
  this s' = this s /\ owner s' = owner s /\
  backendOperator s' = backendOperator s /\ entered s' = entered s /\
  log s' = log s ++ [MatchCreated matchId a b amount].
Proof.
  intros H. unfold createMatch in H. subst m. run_done H.
  reflect_tests. split_all; auto.
Qed.

Lemma stake_done :
  stake e matchId s = Done tt s' ->
  entered s = false /\ p1 m <> 0 /\ status m = PENDING /\
  (sender e = p1 m \/ sender e = p2 m) /\
  (if sender e =? p1 m then p1Staked m else p2Staked m) = false /\
  (exists g', Ledger.transferFrom (this s) (sender e) (this s)
                (stakeAmount m) (gameToken s) = Some g' /\
              gameToken s' = g') /\
  (forall k, matches s' k =
             if k =? matchId then staked_match e m else matches s k) /\
  this s' = this s /\ owner s' = owner s /\
  backendOperator s' = backendOperator s /\ entered s' = false /\
  log s' = log s ++ [Staked matchId (sender e)].
Proof.
  intros H. unfold stake in H. subst m. run_done H.
  all: rewrite ?upd_same in *; cbn in *.
  all: split_all; eauto.
  all: try (intros k; unfold upd, staked_match; case_eqb; subst;
            try congruence; cbn).
  all: reflect_tests; auto.
  all: rewrite ?andb_true_r;
    match goal with
    | |- context [if ?b then _ else _] => destruct b
    end; simpl in *; congruence.
Qed.

Lemma commitResult_done winner :
  commitResult e matchId winner s = Done tt s' ->
  entered s = false /\ sender e = backendOperator s /\
  p1 m <> 0 /\ status m = STAKED /\
  (winner = p1 m \/ winner = p2 m) /\
  0 <= stakeAmount m * 2 <= MAX_UINT256 /\
  (exists g', Ledger.transfer (this s) winner (stakeAmount m * 2)
                (gameToken s) = Some g' /\
              gameToken s' = g') /\
  (forall k, matches s' k =
             if k =? matchId then set_status SETTLED m else matches s k) /\
  this s' = this s /\ owner s' = owner s /\
  backendOperator s' = backendOperator s /\ entered s' = false /\
  log s' = log s ++ [Settled matchId winner (stakeAmount m * 2)].
Proof.
  intros H. unfold commitResult in H. subst m. run_done H.
  apply orb_true_iff in Heqb3.
  reflect_tests. split_all; eauto; try tauto.
  destruct Heqb3 as [E | E]; apply Z.eqb_eq in E; auto.
Qed.

Lemma refund_done :
  refund e matchId s = Done tt s' ->
  entered s = false /\ p1 m <> 0 /\ status m = STAKED /\
  0 <= startTime m + TIMEOUT_DURATION <= MAX_UINT256 /\
  startTime m + TIMEOUT_DURATION <= timestamp e /\
  (exists g', refunded_ledger (this s) m (gameToken s) = Some g' /\
              gameToken s' = g') /\
  (forall k, matches s' k =
             if k =? matchId then set_status REFUNDED m else matches s k) /\
  this s' = this s /\ owner s' = owner s /\
  backendOperator s' = backendOperator s /\ entered s' = false /\
  log s' = log s ++ [Refunded matchId (p1 m) (p2 m) (stakeAmount m)].
Proof.
  intros H. unfold refund in H. subst m. run_done H.
  all: reflect_tests; split_all; eauto; try tauto.
  all: unfold refunded_ledger;
    repeat match goal with
           | H : ?x = _ |- context [?x] => rewrite H
           end; cbn; eauto.
Qed.

End Running.

Section RunningOn.

Variables (e : Env) (matchId : bytes32) (s : State).

Let m := matches s matchId.

Ltac contradict_tests := exfalso; reflect_tests; (congruence || lia || tauto).

Lemma createMatch_runs a b amount :
  sender e = owner s -> a <> 0 -> b <> 0 -> a <> b -> 0 < amount ->
  p1 m = 0 ->
  exists s', createMatch e matchId a b amount s = Done tt s'.
Proof.
  intros. subst m. unfold createMatch. run_goal.
  all: try (eexists; reflexivity).
  all: contradict_tests.
Qed.

Lemma stake_runs g' :
  entered s = false -> p1 m <> 0 -> status m = PENDING ->
  (sender e = p1 m \/ sender e = p2 m) ->
  (if sender e =? p1 m then p1Staked m else p2Staked m) = false ->
  Ledger.transferFrom (this s) (sender e) (this s) (stakeAmount m)
    (gameToken s) = Some g' ->
  exists s', stake e matchId s = Done tt s'.
Proof.
  intros. subst m. unfold stake. run_goal.
  all: try (eexists; reflexivity).
  all: contradict_tests.
Qed.

Lemma commitResult_runs winner g' :
  entered s = false -> sender e = backendOperator s ->
  p1 m <> 0 -> status m = STAKED -> (winner = p1 m \/ winner = p2 m) ->
  0 <= stakeAmount m * 2 <= MAX_UINT256 ->
  Ledger.transfer (this s) winner (stakeAmount m * 2) (gameToken s) = Some g' ->
  exists s', commitResult e matchId winner s = Done tt s'.
Proof.
  intros. subst m. unfold commitResult. run_goal.
  all: try (eexists; reflexivity).
  all: contradict_tests.
Qed.

Lemma refund_runs g' :
  entered s = false -> p1 m <> 0 -> status m = STAKED ->
  0 <= startTime m + TIMEOUT_DURATION <= MAX_UINT256 ->
  startTime m + TIMEOUT_DURATION <= timestamp e ->
  refunded_ledger (this s) m (gameToken s) = Some g' ->
  exists s', refund e matchId s = Done tt s'.
Proof.
  intros He Hp Hs Hr Hd Ht. unfold refunded_ledger in Ht. subst m.
  unfold refund. run_goal.
  all: try (eexists; reflexivity).
  all: contradict_tests.
Qed.

End RunningOn.

(** ** Transactions *)

Lemma transact_done {S A} (m : M S A) s a s' :
  m s = Done a s' -> transact m s = (Ok a, s').
Proof. unfold transact. now intros ->. Qed.

Lemma transact_reverted {S A} (m : M S A) s r s' :
  m s = Reverted r s' -> transact m s = (Err r, s).
Proof. unfold transact. now intros ->. Qed.

(** A rejected transaction leaves the state as it was. *)
Lemma transact_err_unchanged {S A} (m : M S A) s r :
  fst (transact m s) = Err r -> snd (transact m s) = s.
Proof. unfold transact. destruct (m s); simpl; [discriminate | reflexivity]. Qed.

Lemma transact_ok_done {S A} (m : M S A) s a :
  fst (transact m s) = Ok a -> m s = Done a (snd (transact m s)).
Proof.
  unfold transact. destruct (m s); simpl; [|discriminate]. now intros [= ->].
Qed.

(** A body that cannot run to its end is rejected. *)
Lemma transact_not_done {S} (m : M S unit) s :
  (forall s', m s <> Done tt s') ->
  exists r, transact m s = (Err r, s).
Proof.
  intros H. unfold transact. destruct (m s) as [[] s'|r s'] eqn:E.
  - now destruct (H s').
  - eauto.
Qed.

(** ** More on the ledger *)

Section LedgerCalls.

Import Ledger.

Lemma transferFrom_done spender from to amount t t' :
  transferFrom spender from to amount t = Some t' ->
  amount <= allowances t from spender /\
  amount <= balances t from /\
  (forall a, balances t' a = moved from to amount t a) /\
  (forall o x, allowances t' o x =
     allowances t o x - (if (o =? from) && (x =? spender) then amount else 0)) /\
  totalSupply t' = totalSupply t /\
  minter t' = minter t.
Proof.
  unfold transferFrom.
  destruct (allowances t from spender <? amount) eqn:Ha; [discriminate|].
  destruct (move from to amount t) as [t1|] eqn:Hm; [|discriminate].
  intros [= <-]. cbn. apply Z.ltb_ge in Ha.
  destruct (move_done _ _ _ _ _ Hm) as (Hle & Hb & _ & Hs & Hmi).
  split_all; auto.
  intros o x. unfold upd. case_eqb; subst; cbn; lia.
Qed.

Lemma transferFrom_ok spender from to amount t t' :
  ledger_ok t -> 0 <= amount ->
  transferFrom spender from to amount t = Some t' -> ledger_ok t'.
Proof.
  intros Hok Ha Ht.
  destruct (transferFrom_done _ _ _ _ _ _ Ht) as (_ & Hle & Hb & _ & Hs & _).
  split; [|split].
  - intros a. rewrite Hb. apply moved_nonneg; auto.
  - intros l Hl. rewrite Hs.
    rewrite (sumOver_ext (moved from to amount t)) by apply Hb.
    apply moved_bound; auto.
  - rewrite Hs. apply Hok.
Qed.

Lemma transferFrom_runs spender from to amount t :
  ledger_ok t -> 0 <= amount <= balances t from ->
  amount <= allowances t from spender ->
  exists t', transferFrom spender from to amount t = Some t'.
Proof.
  intros Hok Ha Hal. unfold transferFrom.
  destruct (allowances t from spender <? amount) eqn:E;
    [apply Z.ltb_lt in E; lia|].
  destruct (move_runs from to amount t Hok Ha) as [t1 ->]. eauto.
Qed.

Lemma mint_done sender to amount t t' :
  mint sender to amount t = Some t' ->
  sender = minter t /\
  totalSupply t + amount <= MAX_UINT256 /\
  (forall a, balances t' a = balances t a + (if a =? to then amount else 0)) /\
  allowances t' = allowances t /\
  totalSupply t' = totalSupply t + amount /\
  minter t' = minter t.
Proof.
  unfold mint.
  destruct (Z.eqb_spec sender (minter t)); [|discriminate]. cbn.
  destruct (MAX_UINT256 <? totalSupply t + amount) eqn:E1; [discriminate|].
  destruct (MAX_UINT256 <? balances t to + amount) eqn:E2; [discriminate|].
  intros [= <-]. cbn. apply Z.ltb_ge in E1.
  split_all; auto.
  intros a. unfold upd. case_eqb; subst; lia.
Qed.

Lemma mint_ok sender to amount t t' :
  ledger_ok t -> 0 <= amount -> mint sender to amount t = Some t' ->
  ledger_ok t'.
Proof.
  intros (Hpos & Hsum & Hmax) Ha Hm.
  destruct (mint_done _ _ _ _ _ Hm) as (_ & Hle & Hb & _ & Hs & _).
  split; [|split].
  - intros a. rewrite Hb. specialize (Hpos a). case_eqb; lia.
  - intros l Hl. rewrite Hs.
    assert (Hag : forall a, a <> to -> balances t' a = balances t a).
    { intros a Hne. rewrite Hb. case_eqb; [contradiction | lia]. }
    pose proof (sumOver_bound (balances t) (balances t') to Hag
                  (totalSupply t) Hsum) as Hbd.
    rewrite (Hb to), Z.eqb_refl in Hbd.
    specialize (Hpos to). specialize (Hbd ltac:(lia) l Hl). lia.
  - lia.
Qed.

End LedgerCalls.

(* ================================================================== *)
(** * Proofs: the invariant of the escrow                             *)
(* ================================================================== *)

Lemma valid_env_true s e :
  valid_env s e = true <->
  sender e <> this s /\ 0 < timestamp e <= MAX_UINT256.
Proof.
  unfold valid_env. rewrite !andb_true_iff, negb_true_iff.
  rewrite Z.eqb_neq, Z.ltb_lt, Z.leb_le. tauto.
Qed.

Lemma noMatch_ok self : match_ok self noMatch.
Proof. constructor; cbn; try easy. Qed.

Lemma escrowed_nonneg self m : match_ok self m -> 0 <= escrowed m.
Proof.
  intros Hok. unfold escrowed.
  assert (0 <= stakeAmount m).
  { destruct (Z.eq_dec (p1 m) 0) as [E|E].
    - rewrite (ok_absent _ _ Hok E). cbn. lia.
    - pose proof (ok_stake _ _ Hok E). lia. }
  destruct (status m), (p1Staked m), (p2Staked m); lia.
Qed.

(** Solvency after the record of one match changed. *)
Lemma solvent_update (ms ms' : bytes32 -> Match) matchId B B' :
  (forall l, NoDup l -> sumOver (fun k => escrowed (ms k)) l <= B) ->
  (forall k, k <> matchId -> ms' k = ms k) ->
  0 <= escrowed (ms' matchId) ->
  B - escrowed (ms matchId) + escrowed (ms' matchId) <= B' ->
  forall l, NoDup l -> sumOver (fun k => escrowed (ms' k)) l <= B'.
Proof.
  intros Hs Hag Hpos Hb l Hl.
  pose proof (sumOver_bound (fun k => escrowed (ms k))
                (fun k => escrowed (ms' k)) matchId) as H.
  cbv beta in H.
  specialize (H (fun k Hk => f_equal escrowed (Hag k Hk)) B Hs Hpos l Hl).
  lia.
Qed.

(** Solvency when no match changed and the escrow's balance did not
    decrease. *)
Lemma solvent_same (ms ms' : bytes32 -> Match) B B' :
  (forall l, NoDup l -> sumOver (fun k => escrowed (ms k)) l <= B) ->
  (forall k, ms' k = ms k) -> B <= B' ->
  forall l, NoDup l -> sumOver (fun k => escrowed (ms' k)) l <= B'.
Proof.
  intros Hs Hag Hb l Hl.
  rewrite (sumOver_ext (fun k => escrowed (ms k))).
  - specialize (Hs l Hl). lia.
  - intros a. cbv beta. now rewrite Hag.
Qed.

Section Preservation.

Variables (e : Env) (s s' : State).
Hypothesis HInv : Inv s.
Hypothesis Henv : valid_env s e = true.

Lemma createMatch_inv matchId a b amount :
  is_uint256 amount = true ->
  createMatch e matchId a b amount s = Done tt s' -> Inv s'.
Proof.
  intros Hu H. apply is_uint256_true in Hu.
  destruct (createMatch_done _ _ _ _ _ _ _ H)
    as (_ & Ha & Hb & Hab & Hamt & Hold & Hms & Hg & Hthis & _ & _ & Hen & _).
  destruct HInv as [I1 I2 I3 I4 I5].
  constructor.
  - congruence.
  - now rewrite Hg.
  - now rewrite Hg, Hthis.
  - intros k. rewrite Hms, Hthis. case_eqb; [|apply I4].
    constructor; cbn; intros; try easy; auto; try lia.
  - rewrite Hg, Hthis.
    apply (solvent_update (matches s) (matches s') matchId
             (Ledger.balances (gameToken s) (this s))); auto.
    + intros k Hk. rewrite Hms. case_eqb; [contradiction | reflexivity].
    + rewrite Hms, Z.eqb_refl. cbn. lia.
    + rewrite Hms, Z.eqb_refl. cbn.
      pose proof (escrowed_nonneg _ _ (I4 matchId)). lia.
Qed.

Lemma staked_match_ok m :
  match_ok (this s) m -> p1 m <> 0 -> status m = PENDING ->
  (sender e = p1 m \/ sender e = p2 m) ->
  (if sender e =? p1 m then p1Staked m else p2Staked m) = false ->
  match_ok (this s) (staked_match e m) /\
  escrowed (staked_match e m) = escrowed m + stakeAmount m.
Proof.
  intros Hok Hp Hst Hc Hf. apply valid_env_true in Henv.
  destruct Henv as (Hne & Hts).
  destruct Hok as [A1 A2 A3 A4 A5 A6 A7].
  destruct (A4 Hst) as (Hz & Hboth). destruct (A2 Hp) as (Hp2 & Hdiff).
  unfold staked_match, escrowed.
  destruct (Z.eqb_spec (sender e) (p1 m)) as [E|E].
  - destruct m as [q1 q2 st t0 stt f1 f2]; cbn in *. subst.
    destruct f2; cbn; split; try lia;
      constructor; cbn; intros; try easy; auto; try lia.
  - destruct Hc as [Hc | Hc]; [contradiction|].
    destruct m as [q1 q2 st t0 stt f1 f2]; cbn in *. subst.
    destruct f1; cbn; split; try lia;
      constructor; cbn; intros; try easy; auto; try lia.
Qed.

Lemma stake_inv matchId :
  stake e matchId s = Done tt s' -> Inv s'.
Proof.
  intros H.
  destruct (stake_done _ _ _ _ H)
    as (_ & Hp & Hst & Hc & Hf & (g' & Ht & Hg) & Hms & Hthis & _ & _ & Hen & _).
  pose proof Henv as Hv. apply valid_env_true in Hv. destruct Hv as (Hne & Hts).
  destruct HInv as [I1 I2 I3 I4 I5].
  destruct (staked_match_ok _ (I4 matchId) Hp Hst Hc Hf) as (Hok' & Hesc).
  pose proof (ok_stake _ _ (I4 matchId) Hp) as Hstake.
  destruct (transferFrom_done _ _ _ _ _ _ Ht) as (_ & _ & Hb & Hal & _ & _).
  constructor.
  - exact Hen.
  - rewrite Hg. eapply transferFrom_ok; eauto. lia.
  - intros x. rewrite Hg, Hthis, Hal, I3.
    destruct (Z.eqb_spec (this s) (sender e)); [congruence|]. cbn. lia.
  - intros k. rewrite Hms, Hthis. case_eqb; [exact Hok' | apply I4].
  - rewrite Hg, Hthis, Hb.
    apply (solvent_update (matches s) (matches s') matchId
             (Ledger.balances (gameToken s) (this s))); auto.
    + intros k Hk. rewrite Hms. case_eqb; [contradiction | reflexivity].
    + rewrite Hms, Z.eqb_refl. eapply escrowed_nonneg; eauto.
    + rewrite Hms, Z.eqb_refl, Hesc. unfold moved.
      rewrite Z.eqb_refl.
      destruct (Z.eqb_spec (this s) (sender e)); [congruence|]. lia.
Qed.

End Preservation.

(** What the invariant says of a match that both participants staked. *)
Lemma staked_facts s matchId :
  Inv s -> status (matches s matchId) = STAKED ->
  let m := matches s matchId in
  p1 m <> 0 /\ p1Staked m = true /\ p2Staked m = true /\
  p1 m <> this s /\ p2 m <> this s /\ 0 < stakeAmount m /\
  escrowed m = stakeAmount m * 2 /\
  stakeAmount m * 2 <= Ledger.balances (gameToken s) (this s) /\
  0 < startTime m <= MAX_UINT256.
Proof.
  intros [I1 I2 I3 I4 I5] Hst m.
  pose proof (I4 matchId) as Hok. fold m in Hok, Hst.
  assert (Hp : p1 m <> 0).
  { intros E. rewrite (ok_absent _ _ Hok E) in Hst. discriminate. }
  destruct (ok_started _ _ Hok) as (F1 & F2 & Hts); [congruence|].
  pose proof (ok_stake _ _ Hok Hp).
  assert (Hesc : escrowed m = stakeAmount m * 2).
  { unfold escrowed. rewrite Hst, F1, F2. lia. }
  pose proof (I5 [matchId] (NoDup_cons _ (@in_nil _ _) (NoDup_nil _))) as Hs.
  cbn in Hs. fold m in Hs.
  split_all; auto; try lia.
  - now apply (ok_p1_not_self _ _ Hok).
  - now apply (ok_p2_not_self _ _ Hok).
Qed.

Lemma ledger_balance_max t a :
  ledger_ok t -> Ledger.balances t a <= MAX_UINT256.
Proof.
  intros (_ & Hsum & Hmax).
  pose proof (Hsum [a] (NoDup_cons _ (@in_nil _ _) (NoDup_nil _))) as H.
  cbn in H. lia.
Qed.

Lemma set_status_ok self m st :
  match_ok self m -> status m = STAKED -> st <> PENDING ->
  match_ok self (set_status st m).
Proof.
  intros [A1 A2 A3 A4 A5 A6 A7] Hst Hne.
  assert (Hp : p1 m <> 0).
  { intros E. rewrite (A1 E) in Hst. discriminate. }
  constructor; cbn; intros; try easy; auto.
  apply A5. congruence.
Qed.

(** The two transfers of a refund, when both participants have staked. *)
Lemma refunded_ledger_both self m g :
  p1Staked m = true -> p2Staked m = true ->
  refunded_ledger self m g =
  match Ledger.move self (p1 m) (stakeAmount m) g with
  | Some g1 => Ledger.move self (p2 m) (stakeAmount m) g1
  | None => None
  end.
Proof. unfold refunded_ledger, Ledger.transfer. now intros -> ->. Qed.

Section PreservationSettle.

Variables (e : Env) (s s' : State).
Hypothesis HInv : Inv s.
Hypothesis Henv : valid_env s e = true.

Lemma commitResult_inv matchId winner :
  commitResult e matchId winner s = Done tt s' -> Inv s'.
Proof.
  intros H.
  destruct (commitResult_done _ _ _ _ _ H)
    as (_ & _ & Hp & Hst & Hw & Hr & (g' & Ht & Hg) & Hms & Hthis & _ & _
        & Hen & _).
  destruct (staked_facts _ _ HInv Hst)
    as (_ & F1 & F2 & N1 & N2 & Hpos & Hesc & Hbal & _).
  destruct HInv as [I1 I2 I3 I4 I5].
  unfold Ledger.transfer in Ht.
  destruct (move_done _ _ _ _ _ Ht) as (_ & Hb & Hal & _ & _).
  constructor.
  - exact Hen.
  - rewrite Hg. eapply move_ok; eauto. lia.
  - intros x. now rewrite Hg, Hthis, Hal.
  - intros k. rewrite Hms, Hthis. case_eqb; [|apply I4].
    apply set_status_ok; auto. discriminate.
  - rewrite Hg, Hthis, Hb.
    apply (solvent_update (matches s) (matches s') matchId
             (Ledger.balances (gameToken s) (this s))); auto.
    + intros k Hk. rewrite Hms. case_eqb; [contradiction | reflexivity].
    + rewrite Hms, Z.eqb_refl. cbn. lia.
    + rewrite Hms, Z.eqb_refl, Hesc. cbn. unfold moved.
      rewrite Z.eqb_refl. case_eqb; lia.
Qed.

Lemma refund_inv matchId :
  refund e matchId s = Done tt s' -> Inv s'.
Proof.
  intros H.
  destruct (refund_done _ _ _ _ H)
    as (_ & Hp & Hst & _ & _ & (g' & Ht & Hg) & Hms & Hthis & _ & _ & Hen & _).
  destruct (staked_facts _ _ HInv Hst)
    as (_ & F1 & F2 & N1 & N2 & Hpos & Hesc & Hbal & _).
  destruct HInv as [I1 I2 I3 I4 I5].
  rewrite refunded_ledger_both in Ht by assumption.
  destruct (Ledger.move (this s) (p1 (matches s matchId)) _ (gameToken s))
    as [g1|] eqn:Hm1; [|discriminate].
  destruct (move_done _ _ _ _ _ Hm1) as (_ & Hb1 & Hal1 & _ & _).
  destruct (move_done _ _ _ _ _ Ht) as (_ & Hb2 & Hal2 & _ & _).
  assert (Hok1 : ledger_ok g1) by (eapply move_ok; eauto; lia).
  constructor.
  - exact Hen.
  - rewrite Hg. eapply move_ok; eauto. lia.
  - intros x. now rewrite Hg, Hthis, Hal2, Hal1.
  - intros k. rewrite Hms, Hthis. case_eqb; [|apply I4].
    apply set_status_ok; auto. discriminate.
  - rewrite Hg, Hthis, Hb2.
    apply (solvent_update (matches s) (matches s') matchId
             (Ledger.balances (gameToken s) (this s))); auto.
    + intros k Hk. rewrite Hms. case_eqb; [contradiction | reflexivity].
    + rewrite Hms, Z.eqb_refl. cbn. lia.
    + rewrite Hms, Z.eqb_refl, Hesc. cbn. unfold moved. rewrite Hb1.
      unfold moved. rewrite Z.eqb_refl. case_eqb; lia.
Qed.

(** Calls made to the ledger by other accounts never take tokens out of
    the escrow. *)
Lemma token_call_inv f :
  token_call f s = Done tt s' ->
  (forall g', f (gameToken s) = Some g' ->
     ledger_ok g' /\
     (forall x, Ledger.allowances g' (this s) x = 0) /\
     Ledger.balances (gameToken s) (this s) <= Ledger.balances g' (this s)) ->
  Inv s'.
Proof.
  unfold token_call. destruct (f (gameToken s)) as [g'|] eqn:E; [|discriminate].
  intros [= <-] Hf. destruct (Hf g' eq_refl) as (Hok & Hal & Hb).
  destruct HInv as [I1 I2 I3 I4 I5].
  constructor; cbn; auto.
  apply (solvent_same (matches s) (matches s)
           (Ledger.balances (gameToken s) (this s))); auto.
Qed.

End PreservationSettle.

Lemma genesis_inv s : genesis s -> Inv s.
Proof.
  intros [G1 G2 G3 G4]. constructor; auto.
  - intros k. rewrite G2. apply noMatch_ok.
  - intros l Hl.
    rewrite (sumOver_ext (fun _ => 0)) by (intros a; now rewrite G2).
    destruct G3 as (Hpos & _). specialize (Hpos (this s)).
    rewrite sumOver_zero. lia.
Qed.

Lemma step_inv s e c :
  Inv s -> valid_env s e = true -> valid_call c = true ->
  Inv (snd (exec e c s)).
Proof.
  intros HInv Henv Hc. unfold exec, transact.
  destruct (dispatch e c s) as [[] s'|r s'] eqn:D; cbn; [|assumption].
  pose proof Henv as Hv. apply valid_env_true in Hv. destruct Hv as (Hne & _).
  destruct c; unfold dispatch in D; cbn in Hc.
  - eapply createMatch_inv; eauto.
  - eapply stake_inv; eauto.
  - eapply commitResult_inv; eauto.
  - eapply refund_inv; eauto.
  - unfold setBackendOperator in D. run_done D.
    destruct HInv. now constructor.
  - run_done D. destruct HInv. now constructor.
  - run_done D. destruct HInv. now constructor.
  - (* transfer *)
    apply is_uint256_true in Hc.
    eapply token_call_inv; eauto. intros g' Hg. unfold Ledger.transfer in Hg.
    destruct (move_done _ _ _ _ _ Hg) as (_ & Hb & Hal & _ & _).
    split_all.
    + eapply move_ok; eauto; [apply HInv | lia].
    + intros x. rewrite Hal. apply HInv.
    + rewrite Hb. unfold moved. case_eqb; try congruence; lia.
  - (* approve *)
    eapply token_call_inv; eauto. intros g' [= <-]. cbn. split_all.
    + apply HInv.
    + intros x. case_eqb; [congruence | apply HInv].
    + lia.
  - (* transferFrom *)
    apply is_uint256_true in Hc.
    eapply token_call_inv; eauto. intros g' Hg.
    destruct (transferFrom_done _ _ _ _ _ _ Hg) as (Ha & _ & Hb & Hal & _ & _).
    pose proof (inv_no_allowance _ HInv) as I3.
    split_all.
    + eapply transferFrom_ok; eauto; [apply HInv | lia].
    + intros x. rewrite Hal, I3.
      destruct (Z.eqb_spec (this s) from); cbn; [|lia].
      subst from. rewrite I3 in Ha. case_eqb; lia.
    + rewrite Hb. unfold moved.
      destruct (Z.eqb_spec (this s) from).
      * subst from. rewrite I3 in Ha. case_eqb; lia.
      * case_eqb; lia.
  - (* mint *)
    apply is_uint256_true in Hc.
    eapply token_call_inv; eauto. intros g' Hg.
    destruct (mint_done _ _ _ _ _ Hg) as (_ & _ & Hb & Hal & _ & _).
    split_all.
    + eapply mint_ok; eauto; [apply HInv | lia].
    + intros x. rewrite Hal. apply HInv.
    + rewrite Hb. case_eqb; lia.
  - (* setTokenStore *)
    eapply token_call_inv; eauto. intros g' [= <-]. cbn. split_all.
    + apply HInv.
    + apply HInv.
    + lia.
Qed.

Lemma step_this s e c : this (snd (exec e c s)) = this s.
Proof.
  unfold exec, transact.
  destruct (dispatch e c s) as [[] s'|r s'] eqn:D; cbn; [|reflexivity].
  destruct c; unfold dispatch in D.
  - now destruct (createMatch_done _ _ _ _ _ _ _ D)
      as (_ & _ & _ & _ & _ & _ & _ & _ & -> & _).
  - now destruct (stake_done _ _ _ _ D)
      as (_ & _ & _ & _ & _ & _ & _ & -> & _).
  - now destruct (commitResult_done _ _ _ _ _ D)
      as (_ & _ & _ & _ & _ & _ & _ & _ & -> & _).
  - now destruct (refund_done _ _ _ _ D)
      as (_ & _ & _ & _ & _ & _ & _ & -> & _).
  - unfold setBackendOperator in D. now run_done D.
  - now run_done D.
  - now run_done D.
  - now run_done D.
  - now run_done D.
  - now run_done D.
  - now run_done D.
  - now run_done D.
Qed.

Lemma reachable_inv s : Reachable s -> Inv s.
Proof.
  induction 1 as [s Hg | s e c _ IH Henv Hc].
  - now apply genesis_inv.
  - now apply step_inv.
Qed.

Lemma run_reachable s s' : Run s s' -> Reachable s -> Reachable s'.
Proof.
  induction 1 as [|s e c s' Henv Hc _ IH]; intros Hr; [assumption|].
  apply IH. now constructor.
Qed.

(** ** The concrete run is a run of the contract *)

Lemma script_reachable script s :
  Reachable s -> Scenario.valid_script s script = true ->
  Reachable (Scenario.run_script script s).
Proof.
  revert s. induction script as [|[e c] script IH]; intros s Hr Hv; [exact Hr|].
  cbn in Hv. apply andb_true_iff in Hv. destruct Hv as (Hv1 & Hv2).
  apply andb_true_iff in Hv1. destruct Hv1 as (He & Hc).
  cbn. apply IH.
  - now constructor.
  - unfold Scenario.valid_script, valid_env in *.
    rewrite step_this. exact Hv2.
Qed.

Lemma deployed_genesis : genesis Scenario.deployed.
Proof.
  constructor; try reflexivity.
  split; [|split]; cbn.
  - intros _. lia.
  - intros l _. change (sumOver (fun _ : Z => 0) l <= 0).
    now rewrite sumOver_zero.
  - discriminate.
Qed.

Lemma deployed_reachable : Reachable Scenario.deployed.
Proof. apply Reachable_genesis, deployed_genesis. Qed.

Lemma created_reachable : Reachable Scenario.created.
Proof. apply script_reachable; [apply deployed_reachable | reflexivity]. Qed.

Lemma one_staked_reachable : Reachable Scenario.one_staked.
Proof. apply script_reachable; [apply deployed_reachable | reflexivity]. Qed.

Lemma staked_reachable : Reachable Scenario.staked.
Proof. apply script_reachable; [apply deployed_reachable | reflexivity]. Qed.

Example staked_status :
  status (matches Scenario.staked Scenario.matchId) = STAKED /\
  startTime (matches Scenario.staked Scenario.matchId) = 3000 /\
  Ledger.balances (gameToken Scenario.staked) Scenario.escrow = 10 * 10 ^ 18 /\
  Ledger.balances (gameToken Scenario.staked) Scenario.alice = 15 * 10 ^ 18.
Proof. vm_compute. auto. Qed.

Example one_staked_status :
  status (matches Scenario.one_staked Scenario.matchId) = PENDING /\
  p1Staked (matches Scenario.one_staked Scenario.matchId) = true /\
  p2Staked (matches Scenario.one_staked Scenario.matchId) = false /\
  Ledger.balances (gameToken Scenario.one_staked) Scenario.escrow = 5 * 10 ^ 18.
Proof. vm_compute. auto. Qed.

(* ================================================================== *)
(** * The escrow: settlement                                          *)
(* ================================================================== *)

(** In any state at all, [commitResult] with a winner who is not one of
    the two declared participants is rejected. *)
Lemma commitResult_rejects_outsider s e matchId winner :
  winner <> p1 (matches s matchId) -> winner <> p2 (matches s matchId) ->
  exists r, exec e (CommitResult matchId winner) s = (Err r, s).
Proof.
  intros H1 H2. apply transact_not_done. intros s' D.
  destruct (commitResult_done _ _ _ _ _ D) as (_ & _ & _ & _ & [E|E] & _);
    contradiction.
Qed.

(** C1.  In every reachable state, for a match in status STAKED,
    [commitResult(id, winner)] sent by the backend operator with [winner]
    one of the two declared participants succeeds: exactly [2 * stake] of
    the token moves from the escrow to [winner] (no other balance changes),
    the match becomes SETTLED and [Settled(id, winner, 2 * stake)] is
    emitted.  With any other [winner] the call is rejected with "Invalid
    winner" and nothing changes. *)
Theorem commitResult_pays_winner s e matchId winner :
  Reachable s -> valid_env s e = true ->
  status (matches s matchId) = STAKED ->
  sender e = backendOperator s ->
  ((winner = p1 (matches s matchId) \/ winner = p2 (matches s matchId)) ->
   exists s',
     exec e (CommitResult matchId winner) s = (Ok tt, s') /\
     Ledger.balanceOf (gameToken s') winner =
       Ledger.balanceOf (gameToken s) winner + 2 * stakeAmount (matches s matchId) /\
     Ledger.balanceOf (gameToken s') (this s) =
       Ledger.balanceOf (gameToken s) (this s) - 2 * stakeAmount (matches s matchId) /\
     (forall a, a <> winner -> a <> this s ->
        Ledger.balanceOf (gameToken s') a = Ledger.balanceOf (gameToken s) a) /\
     status (matches s' matchId) = SETTLED /\
     log s' = log s ++ [Settled matchId winner (2 * stakeAmount (matches s matchId))])
  /\
  (winner <> p1 (matches s matchId) -> winner <> p2 (matches s matchId) ->
   exec e (CommitResult matchId winner) s = (Err "Invalid winner", s)).
Proof.
  intros Hr Henv Hst Hop. pose proof (reachable_inv _ Hr) as HInv.
  destruct (staked_facts _ _ HInv Hst)
    as (Hp & F1 & F2 & N1 & N2 & Hpos & Hesc & Hbal & _).
  pose proof (inv_guard _ HInv) as Hg.
  pose proof (inv_ledger _ HInv) as Hl.
  pose proof (ledger_balance_max _ (this s) Hl) as Hmax.
  split.
  - intros Hw.
    destruct (move_runs (this s) winner (stakeAmount (matches s matchId) * 2)
                (gameToken s) Hl ltac:(lia)) as [g' Hm].
    destruct (commitResult_runs e matchId s winner g' Hg Hop Hp Hst Hw
                ltac:(lia) Hm) as [s' D].
    exists s'. split; [now apply transact_done|].
    destruct (commitResult_done _ _ _ _ _ D)
      as (_ & _ & _ & _ & _ & _ & (g2 & Ht & Hg2) & Hms & _ & _ & _ & _ & Hlog).
    unfold Ledger.transfer in Ht.
    destruct (move_done _ _ _ _ _ Ht) as (_ & Hb & _).
    assert (Hwn : winner <> this s) by (destruct Hw; congruence).
    unfold Ledger.balanceOf. rewrite Hg2. split_all.
    + rewrite Hb. unfold moved. case_eqb; try congruence; lia.
    + rewrite Hb. unfold moved. case_eqb; try congruence; lia.
    + intros a Ha1 Ha2. rewrite Hb. unfold moved. case_eqb; try congruence; lia.
    + now rewrite Hms, Z.eqb_refl.
    + rewrite Hlog. do 3 f_equal. lia.
  - intros H1 H2. apply transact_reverted with (s' := set_entered true s).
    unfold dispatch, commitResult. unfold_monad. cbn.
    rewrite Hg. cbn. rewrite Hop, Z.eqb_refl. cbn.
    destruct (Z.eqb_spec (p1 (matches s matchId)) 0); [contradiction|]. cbn.
    rewrite Hst. cbn.
    destruct (Z.eqb_spec winner (p1 (matches s matchId))); [contradiction|].
    destruct (Z.eqb_spec winner (p2 (matches s matchId))); [contradiction|].
    reflexivity.
Qed.

Lemma commitResult_pays_winner_witness :
  (exists s',
     exec (mkEnv Scenario.backend 4000)
          (CommitResult Scenario.matchId Scenario.alice) Scenario.staked
       = (Ok tt, s') /\
     Ledger.balanceOf (gameToken s') Scenario.alice = 25 * 10 ^ 18 /\
     status (matches s' Scenario.matchId) = SETTLED)
  /\
  exec (mkEnv Scenario.backend 4000)
       (CommitResult Scenario.matchId Scenario.carol) Scenario.staked
    = (Err "Invalid winner", Scenario.staked).
Proof.
  split.
  - destruct (commitResult_pays_winner Scenario.staked
                (mkEnv Scenario.backend 4000) Scenario.matchId Scenario.alice
                staked_reachable eq_refl eq_refl eq_refl)
      as (Hpay & _).
    destruct (Hpay (or_introl eq_refl)) as (s' & He & Hw & _ & _ & Hs & _).
    exists s'. split; [exact He|]. split; [|exact Hs].
    rewrite Hw. reflexivity.
  - apply (commitResult_pays_winner Scenario.staked
             (mkEnv Scenario.backend 4000) Scenario.matchId Scenario.carol
             staked_reachable eq_refl eq_refl eq_refl);
      vm_compute; discriminate.
Defined.

(* ================================================================== *)
(** * The escrow: the life cycle of a match                           *)
(* ================================================================== *)

Lemma status_step_refl a : status_step a a = true.
Proof. now destruct a. Qed.

(** The calls that do not touch the matches. *)
Ltac matches_untouched D :=
  run_done D; apply status_step_refl.

Lemma step_status s e c matchId :
  Inv s ->
  status_step (status (matches s matchId))
              (status (matches (snd (exec e c s)) matchId)) = true.
Proof.
  intros HInv. unfold exec, transact.
  destruct (dispatch e c s) as [[] s'|r s'] eqn:D; cbn;
    [|apply status_step_refl].
  destruct c; unfold dispatch in D.
  - destruct (createMatch_done _ _ _ _ _ _ _ D)
      as (_ & _ & _ & _ & _ & Hold & Hms & _).
    rewrite Hms. case_eqb; [|apply status_step_refl]. subst.
    rewrite (ok_absent _ _ (inv_matches _ HInv _) Hold). reflexivity.
  - destruct (stake_done _ _ _ _ D) as (_ & _ & Hst & _ & _ & _ & Hms & _).
    rewrite Hms. case_eqb; [|apply status_step_refl]. subst.
    rewrite Hst. unfold staked_match.
    repeat match goal with
           | |- context [if ?b then _ else _] => destruct b
           end; cbn; now rewrite ?Hst.
  - destruct (commitResult_done _ _ _ _ _ D)
      as (_ & _ & _ & Hst & _ & _ & _ & Hms & _).
    rewrite Hms. case_eqb; [|apply status_step_refl]. subst.
    now rewrite Hst.
  - destruct (refund_done _ _ _ _ D) as (_ & _ & Hst & _ & _ & _ & Hms & _).
    rewrite Hms. case_eqb; [|apply status_step_refl]. subst.
    now rewrite Hst.
  - unfold setBackendOperator in D. matches_untouched D.
  - matches_untouched D.
  - matches_untouched D.
  - matches_untouched D.
  - matches_untouched D.
  - matches_untouched D.
  - matches_untouched D.
  - matches_untouched D.
Qed.

Lemma run_inv s s' : Run s s' -> Inv s -> Inv s'.
Proof.
  induction 1 as [|s e c s' Henv Hc _ IH]; intros HInv; [assumption|].
  apply IH. now apply step_inv.
Qed.

Lemma run_terminal s s' matchId :
  Run s s' -> Inv s ->
  is_terminal (status (matches s matchId)) = true ->
  status (matches s' matchId) = status (matches s matchId).
Proof.
  induction 1 as [|s e c s' Henv Hc _ IH]; intros HInv Ht; [reflexivity|].
  pose proof (step_status s e c matchId HInv) as Hstep.
  assert (E : status (matches (snd (exec e c s)) matchId)
              = status (matches s matchId)).
  { destruct (status (matches s matchId)),
             (status (matches (snd (exec e c s)) matchId));
      cbn in *; congruence. }
  rewrite <- E. apply IH.
  - now apply step_inv.
  - now rewrite E.
Qed.

(** C2.  After any sequence of transactions (that is, in any reachable
    state), one more transaction of any kind moves the status of a match
    only along PENDING -> STAKED -> SETTLED | REFUNDED: a SETTLED or
    REFUNDED match keeps its status, and a PENDING match is never moved to
    SETTLED or REFUNDED; and a terminal status survives any further
    sequence of transactions. *)
Theorem status_only_moves_forward s matchId :
  Reachable s ->
  (forall e c,
     status_step (status (matches s matchId))
                 (status (matches (snd (exec e c s)) matchId)) = true /\
     (is_terminal (status (matches s matchId)) = true ->
      status (matches (snd (exec e c s)) matchId) = status (matches s matchId)) /\
     (status (matches s matchId) = PENDING ->
      status (matches (snd (exec e c s)) matchId) <> SETTLED /\
      status (matches (snd (exec e c s)) matchId) <> REFUNDED)) /\
  (forall s', Run s s' ->
     is_terminal (status (matches s matchId)) = true ->
     status (matches s' matchId) = status (matches s matchId)).
Proof.
  intros Hr. pose proof (reachable_inv _ Hr) as HInv. split.
  - intros e c. pose proof (step_status s e c matchId HInv) as Hstep.
    destruct (status (matches s matchId)),
             (status (matches (snd (exec e c s)) matchId));
      cbn in *; repeat split; congruence.
  - intros s' Hrun. now apply run_terminal.
Qed.

Lemma status_only_moves_forward_witness :
  status (matches Scenario.staked Scenario.matchId) = STAKED /\
  status_step
    (status (matches Scenario.staked Scenario.matchId))
    (status (matches
       (snd (exec (mkEnv Scenario.backend 4000)
                  (CommitResult Scenario.matchId Scenario.bob)
                  Scenario.staked)) Scenario.matchId)) = true.
Proof.
  split; [reflexivity|].
  apply (status_only_moves_forward Scenario.staked Scenario.matchId
           staked_reachable).
Defined.

(* ================================================================== *)
(** * The escrow: status, flags and start time agree                  *)
(* ================================================================== *)

(** C10.  In every reachable state: a match that is STAKED, SETTLED or
    REFUNDED has both staked-flags set and a non-zero start time; a PENDING
    match has start time zero; and whenever the body of [refund] runs to its
    end both flags are set, so that neither guarded transfer is skipped. *)
Theorem flags_and_start_time_agree s matchId :
  Reachable s ->
  (status (matches s matchId) <> PENDING ->
   p1Staked (matches s matchId) = true /\
   p2Staked (matches s matchId) = true /\
   startTime (matches s matchId) <> 0) /\
  (status (matches s matchId) = PENDING ->
   startTime (matches s matchId) = 0) /\
  (forall e s', refund e matchId s = Done tt s' ->
   p1Staked (matches s matchId) = true /\
   p2Staked (matches s matchId) = true /\
   refunded_ledger (this s) (matches s matchId) (gameToken s) =
     match Ledger.transfer (this s) (p1 (matches s matchId))
             (stakeAmount (matches s matchId)) (gameToken s) with
     | Some g1 => Ledger.transfer (this s) (p2 (matches s matchId))
                    (stakeAmount (matches s matchId)) g1
     | None => None
     end).
Proof.
  intros Hr. pose proof (reachable_inv _ Hr) as HInv.
  pose proof (inv_matches _ HInv matchId) as Hok.
  split_all.
  - intros Hne. destruct (ok_started _ _ Hok Hne) as (E1 & E2 & Hts).
    split_all; auto. lia.
  - intros Hp. now destruct (ok_pending _ _ Hok Hp).
  - intros e s' D. destruct (refund_done _ _ _ _ D) as (_ & _ & Hst & _).
    destruct (staked_facts _ _ HInv Hst) as (_ & F1 & F2 & _).
    split_all; auto. now apply refunded_ledger_both.
Qed.

Lemma flags_and_start_time_agree_witness :
  p1Staked (matches Scenario.staked Scenario.matchId) = true /\
  p2Staked (matches Scenario.staked Scenario.matchId) = true /\
  startTime (matches Scenario.staked Scenario.matchId) <> 0.
Proof.
  apply (flags_and_start_time_agree Scenario.staked Scenario.matchId
           staked_reachable).
  vm_compute. discriminate.
Defined.

(* ================================================================== *)
(** * The escrow: refunds                                             *)
(* ================================================================== *)

(** In a reachable state the escrow holds what both refunds of a STAKED
    match need. *)
Lemma refund_transfers_run s matchId :
  Inv s -> status (matches s matchId) = STAKED ->
  exists g', refunded_ledger (this s) (matches s matchId) (gameToken s)
             = Some g'.
Proof.
  intros HInv Hst.
  destruct (staked_facts _ _ HInv Hst)
    as (_ & F1 & F2 & N1 & N2 & Hpos & _ & Hbal & _).
  pose proof (inv_ledger _ HInv) as Hl.
  rewrite refunded_ledger_both by assumption.
  destruct (move_runs (this s) (p1 (matches s matchId))
              (stakeAmount (matches s matchId)) (gameToken s) Hl ltac:(lia))
    as [g1 Hm1].
  rewrite Hm1.
  destruct (move_done _ _ _ _ _ Hm1) as (_ & Hb1 & _).
  apply move_runs.
  - eapply move_ok; eauto. lia.
  - rewrite Hb1. unfold moved. rewrite Z.eqb_refl. case_eqb; try congruence; lia.
Qed.

(** C4.  In every reachable state, for a match in status STAKED,
    [refund(id)] succeeds if and only if the block timestamp is at least
    [startTime + 24 hours]. *)
Theorem refund_succeeds_iff_timeout s e matchId :
  Reachable s -> valid_env s e = true ->
  status (matches s matchId) = STAKED ->
  (succeeded (fst (exec e (Refund matchId) s)) = true <->
   startTime (matches s matchId) + TIMEOUT_DURATION <= timestamp e).
Proof.
  intros Hr Henv Hst. pose proof (reachable_inv _ Hr) as HInv.
  apply valid_env_true in Henv. destruct Henv as (_ & Hts).
  split.
  - intros Hs. unfold exec, transact in Hs. unfold dispatch in Hs.
    destruct (refund e matchId s) as [[] s'|r s'] eqn:D; [|discriminate].
    now destruct (refund_done _ _ _ _ D) as (_ & _ & _ & _ & Hd & _).
  - intros Hd.
    destruct (staked_facts _ _ HInv Hst) as (Hp & _ & _ & _ & _ & _ & _ & _ & H0).
    destruct (refund_transfers_run _ _ HInv Hst) as [g' Hg].
    assert (Hrange : 0 <= startTime (matches s matchId) + TIMEOUT_DURATION
                     <= MAX_UINT256).
    { unfold TIMEOUT_DURATION in *. lia. }
    destruct (refund_runs e matchId s g' (inv_guard _ HInv) Hp Hst Hrange Hd Hg)
      as [s' D].
    unfold exec. unfold dispatch.
    now rewrite (transact_done _ _ _ _ D).
Qed.

(** At the boundary and one second before it, in the concrete run (both
    players staked at time 3000). *)
Lemma refund_succeeds_iff_timeout_witness :
  succeeded (fst (exec (mkEnv Scenario.carol (3000 + 86400))
                       (Refund Scenario.matchId) Scenario.staked)) = true /\
  succeeded (fst (exec (mkEnv Scenario.carol (3000 + 86400 - 1))
                       (Refund Scenario.matchId) Scenario.staked)) = false.
Proof.
  split.
  - apply (refund_succeeds_iff_timeout Scenario.staked
             (mkEnv Scenario.carol (3000 + 86400)) Scenario.matchId
             staked_reachable eq_refl eq_refl).
    vm_compute. discriminate.
  - apply not_true_is_false. intros H.
    apply (refund_succeeds_iff_timeout Scenario.staked
             (mkEnv Scenario.carol (3000 + 86400 - 1)) Scenario.matchId
             staked_reachable eq_refl eq_refl) in H.
    vm_compute in H. now apply H.
Defined.

(** What a successful refund does: each participant gets the stake back
    and the match becomes REFUNDED. *)
Lemma refund_returns_stakes s e matchId s' :
  Reachable s -> exec e (Refund matchId) s = (Ok tt, s') ->
  status (matches s' matchId) = REFUNDED /\
  Ledger.balanceOf (gameToken s') (p1 (matches s matchId)) =
    Ledger.balanceOf (gameToken s) (p1 (matches s matchId))
    + stakeAmount (matches s matchId) /\
  Ledger.balanceOf (gameToken s') (p2 (matches s matchId)) =
    Ledger.balanceOf (gameToken s) (p2 (matches s matchId))
    + stakeAmount (matches s matchId).
Proof.
  intros Hr He. pose proof (reachable_inv _ Hr) as HInv.
  assert (D : refund e matchId s = Done tt s').
  { pose proof (transact_ok_done (dispatch e (Refund matchId)) s tt) as H.
    unfold exec in He. rewrite He in H. now apply H. }
  destruct (refund_done _ _ _ _ D)
    as (_ & Hp & Hst & _ & _ & (g' & Ht & Hg) & Hms & _).
  destruct (staked_facts _ _ HInv Hst)
    as (_ & F1 & F2 & N1 & N2 & Hpos & _ & Hbal & _).
  destruct (ok_players _ _ (inv_matches _ HInv matchId) Hp) as (_ & Hdiff).
  rewrite refunded_ledger_both in Ht by assumption.
  destruct (Ledger.move (this s) (p1 (matches s matchId)) _ (gameToken s))
    as [g1|] eqn:Hm1; [|discriminate].
  destruct (move_done _ _ _ _ _ Hm1) as (_ & Hb1 & _).
  destruct (move_done _ _ _ _ _ Ht) as (_ & Hb2 & _).
  unfold Ledger.balanceOf. rewrite Hg, !Hb2. unfold moved. rewrite !Hb1.
  unfold moved. split_all.
  - now rewrite Hms, Z.eqb_refl.
  - case_eqb; try congruence; lia.
  - case_eqb; try congruence; lia.
Qed.

(** A match that is not STAKED cannot be refunded, whatever the time. *)
Lemma refund_rejects_unstaked s e matchId :
  status (matches s matchId) <> STAKED ->
  exists r, exec e (Refund matchId) s = (Err r, s).
Proof.
  intros Hne. apply transact_not_done. intros s' D.
  now destruct (refund_done _ _ _ _ D) as (_ & _ & Hst & _).
Qed.

(** C3, as the code has it.  When a match is created and one participant
    stakes, the match is still PENDING with start time unset, the stake is
    held by the escrow, and [refund(id)] is rejected with "Match not
    staked" at any time, leaving every balance as it was. *)
Theorem refund_after_single_stake s e1 e2 matchId a b amount s1 s2 :
  Reachable s -> valid_env s e1 = true -> valid_env s e2 = true ->
  is_uint256 amount = true ->
  exec e1 (CreateMatch matchId a b amount) s = (Ok tt, s1) ->
  exec e2 (Stake matchId) s1 = (Ok tt, s2) ->
  status (matches s2 matchId) = PENDING /\
  startTime (matches s2 matchId) = 0 /\
  Ledger.balanceOf (gameToken s2) (this s) =
    Ledger.balanceOf (gameToken s) (this s) + amount /\
  forall e, exec e (Refund matchId) s2 = (Err "Match not staked", s2).
Proof.
  intros Hr Hv1 Hv2 Hu He1 He2.
  pose proof (reachable_inv _ Hr) as HInv.
  assert (D1 : createMatch e1 matchId a b amount s = Done tt s1).
  { pose proof (transact_ok_done (dispatch e1 (CreateMatch matchId a b amount)) s tt) as H.
    unfold exec in He1. rewrite He1 in H. now apply H. }
  assert (D2 : stake e2 matchId s1 = Done tt s2).
  { pose proof (transact_ok_done (dispatch e2 (Stake matchId)) s1 tt) as H.
    unfold exec in He2. rewrite He2 in H. now apply H. }
  pose proof (createMatch_inv e1 s s1 HInv matchId a b amount Hu D1) as HInv1.
  destruct (createMatch_done _ _ _ _ _ _ _ D1)
    as (_ & Ha & Hb & Hab & Hamt & _ & Hms1 & Hg1 & Hthis1 & _).
  assert (Hv2' : valid_env s1 e2 = true).
  { unfold valid_env in *. now rewrite Hthis1. }
  pose proof (stake_inv e2 s1 s2 HInv1 Hv2' matchId D2) as HInv2.
  destruct (stake_done _ _ _ _ D2)
    as (_ & _ & _ & Hc & _ & (g' & Ht & Hg2) & Hms2 & Hthis2 & _).
  apply valid_env_true in Hv2. destruct Hv2 as (Hne2 & _).
  destruct (transferFrom_done _ _ _ _ _ _ Ht) as (_ & _ & Hbal & _).
  assert (Hm : matches s2 matchId =
               staked_match e2 (mkMatch a b amount 0 PENDING false false)).
  { now rewrite Hms2, Z.eqb_refl, Hms1, Z.eqb_refl. }
  assert (Hst : status (matches s2 matchId) = PENDING
                /\ startTime (matches s2 matchId) = 0
                /\ p1 (matches s2 matchId) = a).
  { rewrite Hm. unfold staked_match. cbn.
    destruct (sender e2 =? a); cbn; auto. }
  destruct Hst as (Hst & Hz & Hp1).
  split_all; auto.
  - unfold Ledger.balanceOf. rewrite Hg2, Hbal, Hthis1, Hg1. unfold moved.
    rewrite Hms1, Z.eqb_refl. cbn. rewrite Z.eqb_refl.
    destruct (Z.eqb_spec (this s) (sender e2)); [congruence | lia].
  - intros e. apply transact_reverted with (s' := set_entered true s2).
    unfold dispatch, refund. unfold_monad. cbn.
    rewrite (inv_guard _ HInv2). cbn. rewrite Hp1.
    destruct (Z.eqb_spec a 0); [contradiction|]. cbn.
    now rewrite Hst.
Qed.

Lemma refund_after_single_stake_witness :
  status (matches Scenario.one_staked Scenario.matchId) = PENDING /\
  startTime (matches Scenario.one_staked Scenario.matchId) = 0 /\
  Ledger.balanceOf (gameToken Scenario.one_staked) Scenario.escrow =
    Ledger.balanceOf (gameToken Scenario.funded) Scenario.escrow
    + 5 * Scenario.GT /\
  forall e, exec e (Refund Scenario.matchId) Scenario.one_staked
            = (Err "Match not staked", Scenario.one_staked).
Proof.
  apply (refund_after_single_stake Scenario.funded
           (mkEnv Scenario.deployer 1200) (mkEnv Scenario.alice 2000)
           Scenario.matchId Scenario.alice Scenario.bob (5 * Scenario.GT)
           Scenario.created Scenario.one_staked).
  - apply script_reachable; [apply deployed_reachable | reflexivity].
  - reflexivity.
  - reflexivity.
  - reflexivity.
  - vm_compute. reflexivity.
  - vm_compute. reflexivity.
Defined.

(** C3 does not hold.  The scenario of the specification, run on the
    code: the match is created, only alice stakes, and more than 24 hours
    and one second later a refund is asked for.  The call is rejected; the match is still
    PENDING and alice's 5 GT are still with the escrow. *)
Lemma refund_after_single_stake_fails :
  exec (mkEnv Scenario.deployer 1200)
       (CreateMatch Scenario.matchId Scenario.alice Scenario.bob (5 * 10 ^ 18))
       Scenario.funded = (Ok tt, Scenario.created) /\
  exec (mkEnv Scenario.alice 2000) (Stake Scenario.matchId) Scenario.created
    = (Ok tt, Scenario.one_staked) /\
  p2Staked (matches Scenario.one_staked Scenario.matchId) = false /\
  succeeded (fst (exec (mkEnv Scenario.alice (2000 + 86400 + 2))
                       (Refund Scenario.matchId) Scenario.one_staked)) = false /\
  status (matches (snd (exec (mkEnv Scenario.alice (2000 + 86400 + 2))
                             (Refund Scenario.matchId) Scenario.one_staked))
                  Scenario.matchId) = PENDING /\
  Ledger.balanceOf (gameToken Scenario.funded) Scenario.alice = 20 * 10 ^ 18 /\
  Ledger.balanceOf
    (gameToken (snd (exec (mkEnv Scenario.alice (2000 + 86400 + 2))
                          (Refund Scenario.matchId) Scenario.one_staked)))
    Scenario.alice = 15 * 10 ^ 18.
Proof. split_all; vm_compute; reflexivity. Qed.

(* ================================================================== *)
(** * The escrow: staking                                             *)
(* ================================================================== *)

(** C6.  In every reachable state, [stake(id)] is rejected when the id is
    unknown, when the match is not PENDING, when the caller is not one of
    the two participants, or when the caller has already staked; and a
    rejected [stake] leaves the whole state (flags and balances included)
    as it was. *)
Theorem stake_rejections s e matchId :
  Reachable s ->
  (p1 (matches s matchId) = 0 \/
   status (matches s matchId) <> PENDING \/
   (sender e <> p1 (matches s matchId) /\ sender e <> p2 (matches s matchId)) \/
   (sender e = p1 (matches s matchId) /\ p1Staked (matches s matchId) = true) \/
   (sender e = p2 (matches s matchId) /\ p2Staked (matches s matchId) = true) ->
   exists r, exec e (Stake matchId) s = (Err r, s)) /\
  (forall r, fst (exec e (Stake matchId) s) = Err r ->
             snd (exec e (Stake matchId) s) = s).
Proof.
  intros Hr. pose proof (reachable_inv _ Hr) as HInv. split.
  - intros Hcase. apply transact_not_done. intros s' D.
    destruct (stake_done _ _ _ _ D) as (_ & Hp & Hst & Hc & Hf & _).
    destruct (ok_players _ _ (inv_matches _ HInv matchId) Hp) as (_ & Hdiff).
    destruct Hcase as [H | [H | [[H1 H2] | [[H1 H2] | [H1 H2]]]]];
      try contradiction.
    + destruct Hc; contradiction.
    + rewrite H1, Z.eqb_refl in Hf. congruence.
    + destruct (Z.eqb_spec (sender e) (p1 (matches s matchId))); congruence.
  - intros r. apply transact_err_unchanged.
Qed.

Lemma stake_rejections_witness :
  exists r, exec (mkEnv Scenario.alice 2500) (Stake Scenario.matchId)
                 Scenario.one_staked = (Err r, Scenario.one_staked).
Proof.
  apply (stake_rejections Scenario.one_staked (mkEnv Scenario.alice 2500)
           Scenario.matchId one_staked_reachable).
  right. right. right. left. split; reflexivity.
Defined.

(** The rollback at work: bob stakes without having approved the escrow.
    The body of [stake] sets his flag and then reverts at the failed pull;
    the transaction restores the flag. *)
Example stake_rolls_flag_back :
  (exists dirty,
     stake (mkEnv Scenario.bob 2500) Scenario.matchId Scenario.one_staked
       = Reverted "GT transfer failed" dirty /\
     p2Staked (matches dirty Scenario.matchId) = true) /\
  exec (mkEnv Scenario.bob 2500) (Stake Scenario.matchId) Scenario.one_staked
    = (Err "GT transfer failed", Scenario.one_staked) /\
  p2Staked (matches Scenario.one_staked Scenario.matchId) = false.
Proof.
  split; [|split; reflexivity].
  eexists. split; [vm_compute; reflexivity | reflexivity].
Qed.

(* ================================================================== *)
(** * The escrow: match identifiers                                   *)
(* ================================================================== *)

(** The participants and the stake of an existing match never change. *)
Lemma step_keeps_identity s e c matchId :
  p1 (matches s matchId) <> 0 ->
  p1 (matches (snd (exec e c s)) matchId) = p1 (matches s matchId) /\
  p2 (matches (snd (exec e c s)) matchId) = p2 (matches s matchId) /\
  stakeAmount (matches (snd (exec e c s)) matchId)
    = stakeAmount (matches s matchId).
Proof.
  intros Hp. unfold exec, transact.
  destruct (dispatch e c s) as [[] s'|r s'] eqn:D; cbn; [|auto].
  destruct c; unfold dispatch in D.
  - destruct (createMatch_done _ _ _ _ _ _ _ D)
      as (_ & _ & _ & _ & _ & Hold & Hms & _).
    rewrite Hms. case_eqb; [|auto]. subst. contradiction.
  - destruct (stake_done _ _ _ _ D) as (_ & _ & _ & _ & _ & _ & Hms & _).
    rewrite Hms. case_eqb; [|auto]. subst. unfold staked_match.
    repeat match goal with
           | |- context [if ?b then _ else _] => destruct b
           end; cbn; auto.
  - destruct (commitResult_done _ _ _ _ _ D)
      as (_ & _ & _ & _ & _ & _ & _ & Hms & _).
    rewrite Hms. case_eqb; subst; cbn; auto.
  - destruct (refund_done _ _ _ _ D) as (_ & _ & _ & _ & _ & _ & Hms & _).
    rewrite Hms. case_eqb; subst; cbn; auto.
  - unfold setBackendOperator in D. run_done D. auto.
  - run_done D. auto.
  - run_done D. auto.
  - run_done D. auto.
  - run_done D. auto.
  - run_done D. auto.
  - run_done D. auto.
  - run_done D. auto.
Qed.

Lemma run_keeps_identity s s' matchId :
  Run s s' -> p1 (matches s matchId) <> 0 ->
  p1 (matches s' matchId) = p1 (matches s matchId) /\
  p2 (matches s' matchId) = p2 (matches s matchId) /\
  stakeAmount (matches s' matchId) = stakeAmount (matches s matchId).
Proof.
  induction 1 as [|s e c s' Henv Hc _ IH]; intros Hp; [auto|].
  destruct (step_keeps_identity s e c matchId Hp) as (E1 & E2 & E3).
  destruct IH as (F1 & F2 & F3); [congruence|].
  split_all; congruence.
Qed.

(** C7.  Once [createMatch(id, ...)] has succeeded, then after any
    further sequence of transactions the participants and the stake stored
    under [id] are those of that first call, every other [createMatch] with
    the same id is rejected, and the rejected call leaves the stored match
    (participants, stake, status, flags, start time) untouched. *)
Theorem createMatch_twice_rejected s e matchId a b amount s1 s2 :
  exec e (CreateMatch matchId a b amount) s = (Ok tt, s1) ->
  Run s1 s2 ->
  (p1 (matches s2 matchId) = a /\ p2 (matches s2 matchId) = b /\
   stakeAmount (matches s2 matchId) = amount) /\
  forall e' a' b' amount',
    (exists r, exec e' (CreateMatch matchId a' b' amount') s2 = (Err r, s2)) /\
    matches (snd (exec e' (CreateMatch matchId a' b' amount') s2)) matchId
      = matches s2 matchId.
Proof.
  intros He Hrun.
  assert (D : createMatch e matchId a b amount s = Done tt s1).
  { pose proof (transact_ok_done (dispatch e (CreateMatch matchId a b amount)) s tt) as H.
    unfold exec in He. rewrite He in H. now apply H. }
  destruct (createMatch_done _ _ _ _ _ _ _ D) as (_ & Ha & _ & _ & _ & _ & Hms & _).
  assert (Hm : matches s1 matchId = mkMatch a b amount 0 PENDING false false)
    by now rewrite Hms, Z.eqb_refl.
  assert (Hp : p1 (matches s1 matchId) <> 0) by now rewrite Hm.
  destruct (run_keeps_identity _ _ matchId Hrun Hp) as (E1 & E2 & E3).
  rewrite Hm in E1, E2, E3. cbn in E1, E2, E3.
  split; [auto|].
  intros e' a' b' amount'.
  assert (Hrej : exists r, exec e' (CreateMatch matchId a' b' amount') s2
                           = (Err r, s2)).
  { apply transact_not_done. intros s' D'.
    destruct (createMatch_done _ _ _ _ _ _ _ D') as (_ & _ & _ & _ & _ & Hold & _).
    congruence. }
  split; [exact Hrej|].
  destruct Hrej as [r ->]. reflexivity.
Qed.

Lemma createMatch_twice_rejected_witness :
  exists r,
    exec (mkEnv Scenario.deployer 5000)
         (CreateMatch Scenario.matchId Scenario.carol Scenario.bob (10 ^ 18))
         Scenario.created = (Err r, Scenario.created).
Proof.
  apply (createMatch_twice_rejected Scenario.funded
           (mkEnv Scenario.deployer 1200) Scenario.matchId
           Scenario.alice Scenario.bob (5 * Scenario.GT)
           Scenario.created Scenario.created eq_refl (Run_nil _)).
Defined.

(* ================================================================== *)
(** * The token store                                                 *)
(* ================================================================== *)

Section StoreFacts.

Import TokenStore.

Ltac unfold_store :=
  unfold TokenStore.nonReentrant, TokenStore.onlyOwner, TokenStore.emit,
    usdt_transferFrom, usdt_transfer, gameToken_mint,
    bind, require, checked, gets, modify, ret, revert in *.

Lemma buy_done sender usdtAmount s s' :
  buy sender usdtAmount s = Done tt s' ->
  entered s = false /\ 0 < usdtAmount /\
  0 <= usdtAmount * gtPerUsdt s <= MAX_UINT256 /\
  0 < Z.quot (usdtAmount * gtPerUsdt s) 1000000 /\
  (exists u', Ledger.transferFrom (this s) sender (this s) usdtAmount (usdt s)
              = Some u' /\ usdt s' = u') /\
  (exists g', Ledger.mint (this s) sender
                (Z.quot (usdtAmount * gtPerUsdt s) 1000000) (gameToken s)
              = Some g' /\ gameToken s' = g') /\
  this s' = this s /\ gtPerUsdt s' = gtPerUsdt s /\ entered s' = false /\
  log s' = log s ++ [Purchase sender usdtAmount
                       (Z.quot (usdtAmount * gtPerUsdt s) 1000000)].
Proof.
  intros H. unfold buy in H. unfold_store. cbn in H.
  repeat (break_if H; cbn in H; try discriminate H).
  injection H as <-. cbn. reflect_tests. split_all; eauto; tauto.
Qed.

(** A call whose checks all pass runs to its end. *)
Lemma buy_runs sender usdtAmount s u' g' :
  entered s = false -> 0 < usdtAmount ->
  0 <= usdtAmount * gtPerUsdt s <= MAX_UINT256 ->
  0 < Z.quot (usdtAmount * gtPerUsdt s) 1000000 ->
  Ledger.transferFrom (this s) sender (this s) usdtAmount (usdt s) = Some u' ->
  Ledger.mint (this s) sender (Z.quot (usdtAmount * gtPerUsdt s) 1000000)
              (gameToken s) = Some g' ->
  buy sender usdtAmount s
  = Done tt (mkState (this s) (owner s) false u' g' (gtPerUsdt s)
               (log s ++ [Purchase sender usdtAmount
                            (Z.quot (usdtAmount * gtPerUsdt s) 1000000)])).
Proof.
  intros He Ha Hr Hq Hpull Hmint.
  apply Z.ltb_lt in Ha, Hq. apply is_uint256_true in Hr.
  unfold buy. unfold_store. cbn.
  rewrite He. cbn. rewrite Ha. cbn. rewrite Hr. cbn. rewrite Hq. cbn.
  rewrite Hpull. cbn. rewrite Hmint. reflexivity.
Qed.

(** C5.  [buy(amount)] goes through exactly when the guard is open, the
    amount is positive, [amount * rate] fits a [uint256], the output
    [amount * rate / 10^6] (truncated) is positive, the pull of [amount]
    from the caller succeeds and so does the mint of the output; on sound
    ledgers of which the store is the minting authority, that is whenever
    the caller's allowance and balance cover the amount and the supply has
    room for the output.  When the call succeeds, the pull of [amount] has
    succeeded and exactly the output is minted to the caller.  A
    non-positive amount, a product that overflows, a zero output and a
    failed pull are rejected, leaving the state (hence both ledgers) as it
    was; the game-token ledger never changes without the pull having
    succeeded. *)
Theorem buy_converts_after_pull s sender usdtAmount :
  (succeeded (fst (transact (buy sender usdtAmount) s)) = true <->
   entered s = false /\ 0 < usdtAmount /\
   0 <= usdtAmount * gtPerUsdt s <= MAX_UINT256 /\
   0 < usdtAmount * gtPerUsdt s / 10 ^ 6 /\
   (exists u', Ledger.transferFrom (this s) sender (this s) usdtAmount (usdt s)
               = Some u') /\
   (exists g', Ledger.mint (this s) sender (usdtAmount * gtPerUsdt s / 10 ^ 6)
                 (gameToken s) = Some g')) /\
  (entered s = false ->
   ledger_ok (usdt s) -> ledger_ok (gameToken s) ->
   this s = Ledger.minter (gameToken s) ->
   0 < usdtAmount ->
   10 ^ 6 <= usdtAmount * gtPerUsdt s <= MAX_UINT256 ->
   usdtAmount <= Ledger.allowances (usdt s) sender (this s) ->
   usdtAmount <= Ledger.balanceOf (usdt s) sender ->
   Ledger.totalSupply (gameToken s) + usdtAmount * gtPerUsdt s / 10 ^ 6
     <= MAX_UINT256 ->
   succeeded (fst (transact (buy sender usdtAmount) s)) = true) /\
  (usdtAmount <= 0 ->
   exists r, transact (buy sender usdtAmount) s = (Err r, s)) /\
  (MAX_UINT256 < usdtAmount * gtPerUsdt s ->
   exists r, transact (buy sender usdtAmount) s = (Err r, s)) /\
  (Z.quot (usdtAmount * gtPerUsdt s) 1000000 = 0 ->
   exists r, transact (buy sender usdtAmount) s = (Err r, s)) /\
  (Ledger.transferFrom (this s) sender (this s) usdtAmount (usdt s) = None ->
   exists r, transact (buy sender usdtAmount) s = (Err r, s)) /\
  (forall s', transact (buy sender usdtAmount) s = (Ok tt, s') ->
     0 < usdtAmount /\
     Z.quot (usdtAmount * gtPerUsdt s) 1000000
       = usdtAmount * gtPerUsdt s / 10 ^ 6 /\
     0 < usdtAmount * gtPerUsdt s / 10 ^ 6 /\
     (exists u', Ledger.transferFrom (this s) sender (this s) usdtAmount
                   (usdt s) = Some u' /\ usdt s' = u') /\
     Ledger.balanceOf (gameToken s') sender =
       Ledger.balanceOf (gameToken s) sender
       + usdtAmount * gtPerUsdt s / 10 ^ 6 /\
     (forall a, a <> sender ->
        Ledger.balanceOf (gameToken s') a = Ledger.balanceOf (gameToken s) a) /\
     log s' = log s ++ [Purchase sender usdtAmount
                          (usdtAmount * gtPerUsdt s / 10 ^ 6)]) /\
  (gameToken (snd (transact (buy sender usdtAmount) s)) <> gameToken s ->
   exists u', Ledger.transferFrom (this s) sender (this s) usdtAmount (usdt s)
              = Some u').
Proof.
  assert (Hrej : forall P : Prop,
            (forall s', buy sender usdtAmount s = Done tt s' -> ~ P) ->
            P -> exists r, transact (buy sender usdtAmount) s = (Err r, s)).
  { intros P HP Hp. apply transact_not_done. intros s' D. exact (HP s' D Hp). }
  assert (Hq : 0 <= usdtAmount * gtPerUsdt s ->
               Z.quot (usdtAmount * gtPerUsdt s) 1000000
               = usdtAmount * gtPerUsdt s / 10 ^ 6).
  { intros H. change (10 ^ 6) with 1000000. apply Z.quot_div_nonneg; lia. }
  assert (Hgo : entered s = false -> 0 < usdtAmount ->
                0 <= usdtAmount * gtPerUsdt s <= MAX_UINT256 ->
                0 < usdtAmount * gtPerUsdt s / 10 ^ 6 ->
                (exists u', Ledger.transferFrom (this s) sender (this s)
                              usdtAmount (usdt s) = Some u') ->
                (exists g', Ledger.mint (this s) sender
                              (usdtAmount * gtPerUsdt s / 10 ^ 6) (gameToken s)
                            = Some g') ->
                succeeded (fst (transact (buy sender usdtAmount) s)) = true).
  { intros He Ha Hr Hout [u' Hu] [g' Hg]. rewrite <- Hq in Hout, Hg by lia.
    unfold transact.
    now rewrite (buy_runs _ _ _ _ _ He Ha Hr Hout Hu Hg). }
  split; [split|]; [| |split_all].
  - intros Hs. unfold transact in Hs.
    destruct (buy sender usdtAmount s) as [[] s'|r s'] eqn:D; [|discriminate].
    destruct (buy_done _ _ _ _ D)
      as (He & Ha & Hr & Hout & (u' & Hu & _) & (g' & Hg & _) & _).
    rewrite Hq in Hout, Hg by lia. split_all; eauto; lia.
  - intros (He & Ha & Hr & Hout & Hu & Hg). now apply Hgo.
  - intros He Husdt Hgt Hminter Ha Hr Hal Hbal Hroom.
    assert (Hout : 0 < usdtAmount * gtPerUsdt s / 10 ^ 6).
    { apply Z.div_str_pos. lia. }
    apply Hgo; auto; try lia.
    + apply transferFrom_runs; auto. unfold Ledger.balanceOf in Hbal. lia.
    + unfold Ledger.mint. rewrite Hminter, Z.eqb_refl. cbn [negb].
      destruct Hgt as (_ & Hsum & _).
      pose proof (Hsum [sender] (NoDup_cons _ (@in_nil _ _) (NoDup_nil _)))
        as Hone. simpl in Hone.
      destruct (Z.ltb_spec MAX_UINT256
                  (Ledger.totalSupply (gameToken s)
                   + usdtAmount * gtPerUsdt s / 10 ^ 6)); [lia|].
      destruct (Z.ltb_spec MAX_UINT256
                  (Ledger.balances (gameToken s) sender
                   + usdtAmount * gtPerUsdt s / 10 ^ 6)); [lia|].
      eauto.
  - apply Hrej. intros s' D. destruct (buy_done _ _ _ _ D) as (_ & H & _). lia.
  - apply Hrej. intros s' D. destruct (buy_done _ _ _ _ D) as (_ & _ & H & _). lia.
  - apply Hrej. intros s' D. destruct (buy_done _ _ _ _ D) as (_ & _ & _ & H & _).
    lia.
  - apply Hrej. intros s' D.
    destruct (buy_done _ _ _ _ D) as (_ & _ & _ & _ & (u' & H & _) & _).
    congruence.
  - intros s' He.
    assert (D : buy sender usdtAmount s = Done tt s').
    { pose proof (transact_ok_done (buy sender usdtAmount) s tt) as H.
      rewrite He in H. now apply H. }
    destruct (buy_done _ _ _ _ D)
      as (_ & Hpos & Hr & Hout & Hpull & (g' & Hm & Hg) & _ & _ & _ & Hlog).
    destruct (mint_done _ _ _ _ _ Hm) as (_ & _ & Hb & _).
    rewrite <- Hq by lia. unfold Ledger.balanceOf. rewrite Hg.
    split_all; auto.
    + rewrite Hb, Z.eqb_refl. lia.
    + intros a Ha. rewrite Hb. case_eqb; [contradiction | lia].
  - intros Hne. unfold transact in Hne.
    destruct (buy sender usdtAmount s) as [[] s'|r s'] eqn:D; cbn in Hne;
      [|contradiction].
    destruct (buy_done _ _ _ _ D) as (_ & _ & _ & _ & (u' & H & _) & _). eauto.
Qed.

End StoreFacts.

(** The scenario of the tests: 10 USDT at the rate of 10^18 buy 10 GT, and
    the 10 USDT end up with the store. *)
Example buy_ten_usdt :
  exists s',
    transact (TokenStore.buy StoreScenario.buyer (10 * 10 ^ 6))
             StoreScenario.opened = (Ok tt, s') /\
    Ledger.balanceOf (TokenStore.gameToken s') StoreScenario.buyer = 10 * 10 ^ 18 /\
    Ledger.balanceOf (TokenStore.usdt s') StoreScenario.buyer = 90 * 10 ^ 6 /\
    Ledger.balanceOf (TokenStore.usdt s') StoreScenario.storeAddr = 10 * 10 ^ 6 /\
    TokenStore.log s' =
      [TokenStore.Purchase StoreScenario.buyer (10 * 10 ^ 6) (10 * 10 ^ 18)].
Proof. eexists. split; [vm_compute; reflexivity|]. repeat split. Qed.

(** Without allowance the pull fails and nothing is minted. *)
Example buy_without_allowance :
  transact (TokenStore.buy StoreScenario.buyer (11 * 10 ^ 6))
           StoreScenario.opened
    = (Err "USDT transfer failed", StoreScenario.opened) /\
  transact (TokenStore.buy StoreScenario.buyer 0) StoreScenario.opened
    = (Err "Amount must be greater than 0", StoreScenario.opened).
Proof. split; reflexivity. Qed.

Lemma buy_converts_after_pull_witness :
  succeeded (fst (transact (TokenStore.buy StoreScenario.buyer (10 * 10 ^ 6))
                           StoreScenario.opened)) = true /\
  forall s',
    transact (TokenStore.buy StoreScenario.buyer (10 * 10 ^ 6))
             StoreScenario.opened = (Ok tt, s') ->
    Ledger.balanceOf (TokenStore.gameToken s') StoreScenario.buyer
    = Ledger.balanceOf (TokenStore.gameToken StoreScenario.opened)
        StoreScenario.buyer
      + 10 * 10 ^ 6 * TokenStore.gtPerUsdt StoreScenario.opened / 10 ^ 6.
Proof.
  destruct (buy_converts_after_pull StoreScenario.opened StoreScenario.buyer
              (10 * 10 ^ 6)) as ((_ & Hgo) & _ & _ & _ & _ & _ & Heff & _).
  split; [|intros s' H; apply (Heff s' H)].
  apply Hgo. split_all.
  - reflexivity.
  - vm_compute. reflexivity.
  - vm_compute. discriminate.
  - vm_compute. discriminate.
  - vm_compute. reflexivity.
  - vm_compute. eexists. reflexivity.
  - vm_compute. eexists. reflexivity.
Defined.

(* ================================================================== *)
(** * Binary64 numbers that hold integers                             *)
(* ================================================================== *)

(** Below 2^53 every integer is a binary64 number, and sums and quotients
    whose exact result is such an integer are computed without rounding. *)

Lemma bits_pos p : Zpos (digits2_pos p) = bits (Zpos p).
Proof.
  unfold bits. induction p as [p IH|p IH|]; simpl digits2_pos.
  - rewrite Pos2Z.inj_succ, IH. 
    change (Zpos p~1) with (2 * Zpos p + 1).
    rewrite Z.log2_succ_double by lia. lia.
  - rewrite Pos2Z.inj_succ, IH.
    change (Zpos p~0) with (2 * Zpos p).
    rewrite Z.log2_double by lia. lia.
  - reflexivity.
Qed.

Lemma bits_bounds k : 0 < k -> 2 ^ (bits k - 1) <= k < 2 ^ bits k.
Proof.
  intros Hk. unfold bits. pose proof (Z.log2_spec k Hk).
  replace (Z.log2 k + 1 - 1) with (Z.log2 k) by lia.
  replace (Z.log2 k + 1) with (Z.succ (Z.log2 k)) by lia. exact H.
Qed.

Lemma bits_shift k s : 0 < k -> 0 <= s -> bits (k * 2 ^ s) = bits k + s.
Proof. intros Hk Hs. unfold bits. rewrite Z.log2_mul_pow2 by lia. lia. Qed.

Lemma bits_ge1 k : 0 < k -> 1 <= bits k.
Proof. intros. unfold bits. pose proof (Z.log2_nonneg k). lia. Qed.

Lemma bits_le k n : 0 < k -> 0 <= n -> k < 2 ^ n -> bits k <= n.
Proof.
  intros Hk Hn Hlt. unfold bits.
  assert (Z.log2 k < n) by (apply Z.log2_lt_pow2; lia). lia.
Qed.

Lemma shr_1_double m :
  0 < m ->
  shr_1 (Build_shr_record (2 * m) false false) = Build_shr_record m false false.
Proof. destruct m; try lia. reflexivity. Qed.

Lemma pow2_xO p : 2 ^ Zpos p~0 = 2 ^ Zpos p * 2 ^ Zpos p.
Proof.
  replace (Zpos p~0) with (Zpos p + Zpos p) by lia.
  now rewrite Z.pow_add_r by lia.
Qed.

Lemma pow2_xI p : 2 ^ Zpos p~1 = 2 * (2 ^ Zpos p * 2 ^ Zpos p).
Proof.
  replace (Zpos p~1) with (1 + (Zpos p + Zpos p)) by lia.
  now rewrite !Z.pow_add_r, Z.pow_1_r by lia.
Qed.

Lemma iter_shr_exact p : forall a,
  0 < a ->
  iter_pos shr_1 p (Build_shr_record (a * 2 ^ Zpos p) false false)
  = Build_shr_record a false false.
Proof.
  induction p as [p IH|p IH|]; intros a Ha; cbn [iter_pos].
  - replace (a * 2 ^ Zpos p~1) with (2 * (a * 2 ^ Zpos p * 2 ^ Zpos p))
      by (rewrite pow2_xI; ring).
    rewrite shr_1_double by (apply Z.mul_pos_pos; [apply Z.mul_pos_pos|]; lia).
    rewrite IH by (apply Z.mul_pos_pos; lia). now apply IH.
  - replace (a * 2 ^ Zpos p~0) with (a * 2 ^ Zpos p * 2 ^ Zpos p)
      by (rewrite pow2_xO; ring).
    rewrite IH by (apply Z.mul_pos_pos; lia). now apply IH.
  - rewrite Z.pow_1_r, Z.mul_comm. now apply shr_1_double.
Qed.

Lemma iter_xO m d : Zpos (Pos.iter xO m d) = Zpos m * 2 ^ Zpos d.
Proof.
  revert m. induction d as [|d IH] using Pos.peano_ind; intros m.
  - simpl. lia.
  - rewrite Pos.iter_succ, Pos2Z.inj_xO, IH, Pos2Z.inj_succ, Z.pow_succ_r by lia.
    ring.
Qed.

Lemma fexp_normal x : -1074 <= x - 53 -> fexp 53 1024 x = x - 53.
Proof. intros H. unfold fexp, emin. lia. Qed.

(** A mantissa whose bits beyond the 53rd are zero is rounded to itself. *)
Lemma round_exact m e :
  53 <= bits (Zpos m) ->
  Zpos m mod 2 ^ (bits (Zpos m) - 53) = 0 ->
  -1074 <= e + bits (Zpos m) - 53 <= 971 ->
  binary_round_aux 53 1024 false (Zpos m) e loc_Exact
  = S754_finite false (Z.to_pos (Zpos m / 2 ^ (bits (Zpos m) - 53)))
                (e + bits (Zpos m) - 53).
Proof.
  intros HD Hdiv He.
  unfold binary_round_aux, shr_fexp, shr_record_of_loc. cbn [Zdigits2].
  rewrite bits_pos, fexp_normal by lia.
  replace (bits (Zpos m) + e - 53 - e) with (bits (Zpos m) - 53) by lia.
  destruct (bits (Zpos m) - 53) as [|n|n] eqn:En; [| |lia].
  - cbn [shr shr_m loc_of_shr_record round_nearest_even Zdigits2].
    rewrite bits_pos, fexp_normal by lia.
    replace (bits (Zpos m) + e - 53 - e) with 0 by lia.
    cbn [shr shr_m]. rewrite Z.pow_0_r, Z.div_1_r. cbn [Z.to_pos].
    replace (e <=? 1024 - 53) with true by (symmetry; apply Z.leb_le; lia).
    f_equal. lia.
  - assert (Hq : Zpos m = Zpos m / 2 ^ Zpos n * 2 ^ Zpos n).
    { rewrite (Z.div_mod (Zpos m) (2 ^ Zpos n)) at 1 by lia. lia. }
    assert (Hqpos : 0 < Zpos m / 2 ^ Zpos n).
    { apply Z.div_str_pos. split; [lia|].
      apply Z.le_trans with (2 ^ (bits (Zpos m) - 1)); [|apply bits_bounds; lia].
      apply Z.pow_le_mono_r; lia. }
    destruct (Zpos m / 2 ^ Zpos n) as [|q|q] eqn:Eq; try lia.
    replace (e + bits (Zpos m) - 53) with (e + Zpos n) by lia.
    cbn [shr]. rewrite Hq, iter_shr_exact by lia.
    cbn [shr_m loc_of_shr_record round_nearest_even Zdigits2].
    rewrite bits_pos.
    assert (Hb : bits (Zpos q) = 53).
    { pose proof (bits_shift (Zpos q) (Zpos n) ltac:(lia) ltac:(lia)) as Hs.
      rewrite <- Hq in Hs. lia. }
    rewrite Hb, fexp_normal by lia.
    replace (53 + (e + Zpos n) - 53 - (e + Zpos n)) with 0 by lia.
    cbn [shr shr_m].
    replace (e + Zpos n <=? 1024 - 53) with true by (symmetry; apply Z.leb_le; lia).
    reflexivity.
Qed.

Lemma whole_pos k :
  0 < k ->
  whole k = S754_finite false (Z.to_pos (k * 2 ^ (53 - bits k))) (bits k - 53).
Proof. intros H. unfold whole. destruct (Z.eqb_spec k 0); [lia | reflexivity]. Qed.

Lemma whole_round k s m :
  0 < k < 2 ^ 53 -> 0 <= s -> 53 <= bits k + s -> Zpos m = k * 2 ^ s ->
  binary_round_aux 53 1024 false (Zpos m) (- s) loc_Exact = whole k.
Proof.
  intros Hk Hs Hb Hm.
  assert (Hbk : 1 <= bits k <= 53).
  { split; [apply bits_ge1; lia | apply bits_le; lia]. }
  assert (HD : bits (Zpos m) = bits k + s).
  { rewrite Hm. apply bits_shift; lia. }
  assert (Hsplit : Zpos m = k * 2 ^ (53 - bits k) * 2 ^ (bits k + s - 53)).
  { rewrite Hm, <- Z.mul_assoc, <- Z.pow_add_r by lia. do 2 f_equal. lia. }
  rewrite round_exact; rewrite ?HD; try lia.
  - rewrite whole_pos by lia. rewrite Hsplit at 1.
    rewrite Z.div_mul by (apply Z.pow_nonzero; lia).
    f_equal. lia.
  - rewrite Hsplit. apply Z.mod_mul. apply Z.pow_nonzero; lia.
Qed.

Lemma whole_normalize k s m :
  0 < k < 2 ^ 53 -> 0 <= s -> Zpos m = k * 2 ^ s ->
  binary_round 53 1024 false m (- s) = whole k.
Proof.
  intros Hk Hs Hm.
  assert (Hbk : 1 <= bits k <= 53).
  { split; [apply bits_ge1; lia | apply bits_le; lia]. }
  assert (HD : bits (Zpos m) = bits k + s).
  { rewrite Hm. apply bits_shift; lia. }
  unfold binary_round, shl_align. rewrite bits_pos, HD, fexp_normal by lia.
  destruct (bits k + s + - s - 53 - - s) as [|d|d] eqn:Ed.
  - apply whole_round; auto; lia.
  - apply whole_round; auto; lia.
  - replace (bits k + s + - s - 53) with (- (s + Zpos d)) by lia.
    apply whole_round; try lia.
    rewrite iter_xO, Hm, Z.pow_add_r by lia. ring.
Qed.

(** The Number value of an integer below 2^53 is that integer. *)
Lemma ofZ_whole k : 0 <= k < 2 ^ 53 -> Binary64.ofZ k = whole k.
Proof.
  intros Hk. unfold Binary64.ofZ, binary_normalize.
  destruct k as [|p|p]; [reflexivity| |lia].
  apply (whole_normalize (Zpos p) 0 p); lia.
Qed.

Lemma shl_align_value m ex ez :
  ez <= ex -> Zpos (fst (shl_align m ex ez)) = Zpos m * 2 ^ (ex - ez).
Proof.
  intros H. unfold shl_align. destruct (ez - ex) as [|d|d] eqn:E; cbn [fst].
  - replace (ex - ez) with 0 by lia. lia.
  - lia.
  - rewrite iter_xO. do 2 f_equal. lia.
Qed.

Lemma whole_mantissa k :
  0 < k < 2 ^ 53 -> Zpos (Z.to_pos (k * 2 ^ (53 - bits k))) = k * 2 ^ (53 - bits k).
Proof.
  intros Hk. apply Z2Pos.id. apply Z.mul_pos_pos; [lia|].
  apply Z.pow_pos_nonneg; [lia|].
  assert (bits k <= 53) by (apply bits_le; lia). lia.
Qed.

(** Addition is exact as long as the sum stays below 2^53. *)
Lemma whole_add a b :
  0 <= a -> 0 <= b -> a + b < 2 ^ 53 ->
  SFadd 53 1024 (whole a) (whole b) = whole (a + b).
Proof.
  intros Ha Hb Hab.
  destruct (Z.eq_dec b 0) as [->|Hbne].
  { rewrite Z.add_0_r. change (whole 0) with (S754_zero false).
    unfold whole. destruct (a =? 0); reflexivity. }
  destruct (Z.eq_dec a 0) as [->|Hane].
  { cbn [Z.add]. change (whole 0) with (S754_zero false).
    rewrite whole_pos by lia. reflexivity. }
  assert (Hba : 1 <= bits a <= 53).
  { split; [apply bits_ge1; lia | apply bits_le; lia]. }
  assert (Hbb : 1 <= bits b <= 53).
  { split; [apply bits_ge1; lia | apply bits_le; lia]. }
  rewrite (whole_pos a), (whole_pos b) by lia.
  cbn [SFadd cond_Zopp].
  change IntDef.Z.min with Z.min.
  set (ez := Z.min (bits a - 53) (bits b - 53)).
  assert (Hez : ez <= bits a - 53 /\ ez <= bits b - 53 /\ ez <= 0) by (unfold ez; lia).
  rewrite !shl_align_value, !whole_mantissa by lia.
  replace (a * 2 ^ (53 - bits a) * 2 ^ (bits a - 53 - ez)
           + b * 2 ^ (53 - bits b) * 2 ^ (bits b - 53 - ez))
    with ((a + b) * 2 ^ (- ez)).
  - assert (Hp : 0 < (a + b) * 2 ^ (- ez)).
    { apply Z.mul_pos_pos; [lia|]. apply Z.pow_pos_nonneg; lia. }
    destruct ((a + b) * 2 ^ (- ez)) as [|m|m] eqn:Em; try lia.
    cbn [binary_normalize].
    replace ez with (- (- ez)) by lia.
    apply whole_normalize; lia.
  - rewrite <- !Z.mul_assoc, <- !Z.pow_add_r by lia.
    replace (53 - bits a + (bits a - 53 - ez)) with (- ez) by lia.
    replace (53 - bits b + (bits b - 53 - ez)) with (- ez) by lia.
    ring.
Qed.

Lemma even_loc m : new_location m 0 = loc_Exact.
Proof.
  unfold new_location, new_location_even, new_location_odd.
  now destruct (Z.even m).
Qed.

Lemma bits_mul k b :
  0 < k -> 0 < b -> bits k + bits b - 1 <= bits (k * b) <= bits k + bits b.
Proof.
  intros Hk Hb. unfold bits.
  pose proof (Z.log2_mul_below k b Hk Hb).
  pose proof (Z.log2_mul_above k b ltac:(lia) ltac:(lia)). lia.
Qed.

(** A quotient that is an integer below 2^53 is computed exactly. *)
Lemma whole_div k b p q :
  0 < k < 2 ^ 53 -> 0 < b -> Zpos p = k * b -> Zpos q = b ->
  SFdiv 53 1024 (S754_finite false p 0) (S754_finite false q 0) = whole k.
Proof.
  intros Hk Hb Hp Hq.
  assert (Hbk : 1 <= bits k <= 53).
  { split; [apply bits_ge1; lia | apply bits_le; lia]. }
  pose proof (bits_mul k b ltac:(lia) Hb) as Hm.
  cbn [SFdiv xorb]. unfold SFdiv_core_binary. cbn [Zdigits2].
  rewrite !bits_pos, Hp, Hq, !Z.add_0_r.
  rewrite fexp_normal by lia.
  change IntDef.Z.min with Z.min.
  rewrite Z.min_l by lia.
  set (s := 0 - 0 - (bits (k * b) - bits b - 53)).
  assert (Hs : 0 <= s /\ 53 <= bits k + s) by (unfold s; lia).
  change IntDef.Z.div_eucl with Z.div_eucl.
  change IntDef.Z.shiftl with Z.shiftl.
  replace (match s with 0 => k * b | Zpos _ => Z.shiftl (k * b) s | Zneg _ => 0 end)
    with (k * 2 ^ s * b).
  2:{ destruct s as [|s'|s'] eqn:Es; [rewrite Z.pow_0_r; ring| |lia].
      rewrite Z.shiftl_mul_pow2 by lia. ring. }
  destruct (Z.div_eucl (k * 2 ^ s * b) b) as [q0 r] eqn:E.
  assert (Hq0 : q0 = k * 2 ^ s).
  { rewrite <- (Z.div_mul (k * 2 ^ s) b) by lia. unfold Z.div. now rewrite E. }
  assert (Hr : r = 0).
  { rewrite <- (Z.mod_mul (k * 2 ^ s) b) by lia. unfold Z.modulo. now rewrite E. }
  subst q0 r. rewrite even_loc.
  assert (Hpos : 0 < k * 2 ^ s).
  { apply Z.mul_pos_pos; [lia|]. apply Z.pow_pos_nonneg; lia. }
  destruct (k * 2 ^ s) as [|m|m] eqn:Em; try lia.
  replace (bits (k * b) - bits b - 53) with (- s) by (unfold s; lia).
  apply whole_round with (s := s); lia.
Qed.

Lemma ofRatio_whole k b :
  0 <= k < 2 ^ 53 -> 0 < b -> Binary64.ofRatio (k * b) b = whole k.
Proof.
  intros Hk Hb. unfold Binary64.ofRatio.
  destruct (Z.eq_dec k 0) as [->|Hne]; [reflexivity|].
  assert (Hp : 0 < k * b) by (apply Z.mul_pos_pos; lia).
  destruct (k * b) as [|p|p] eqn:Ep; try lia.
  destruct b as [|q|q] eqn:Eb; try lia.
  apply (whole_div k (Zpos q)); lia.
Qed.

Lemma hundredths_whole m k t :
  0 <= t -> Zpos m = k * 2 ^ t -> Binary64.hundredths m (- t) = 100 * k.
Proof.
  intros Ht Hm. unfold Binary64.hundredths. rewrite Hm.
  assert (Hp : 0 < 2 ^ t) by (apply Z.pow_pos_nonneg; lia).
  destruct (Z.leb_spec 0 (- t)).
  - replace t with 0 by lia. rewrite Z.pow_0_r. cbn [Z.opp]. rewrite Z.pow_0_r. ring.
  - rewrite Z.opp_involutive.
    replace (1 - - t) with (t + 1) by lia.
    rewrite Z.pow_add_r, Z.pow_1_r by lia.
    replace (200 * (k * 2 ^ t) + 2 ^ t) with ((200 * k + 1) * 2 ^ t) by ring.
    replace (2 ^ t * 2) with (2 * 2 ^ t) by ring.
    rewrite Z.div_mul_cancel_r by lia.
    replace (200 * k + 1) with (1 + (100 * k) * 2) by ring.
    rewrite Z.div_add by lia. reflexivity.
Qed.

Lemma atLeast_whole m k t bound :
  0 <= t -> Zpos m = k * 2 ^ t ->
  Binary64.atLeast m (- t) bound = (bound <=? k).
Proof.
  intros Ht Hm. unfold Binary64.atLeast. rewrite Hm.
  assert (Hp : 0 < 2 ^ t) by (apply Z.pow_pos_nonneg; lia).
  destruct (Z.leb_spec 0 (- t)).
  - replace t with 0 by lia. rewrite Z.pow_0_r. cbn [Z.opp]. rewrite Z.pow_0_r.
    now rewrite !Z.mul_1_r.
  - rewrite Z.opp_involutive.
    destruct (Z.leb_spec bound k), (Z.leb_spec (bound * 2 ^ t) (k * 2 ^ t));
      try reflexivity; nia.
Qed.

(** [toFixed(2)] prints an integer with two zeros, which read back as the
    integer. *)
Lemma toFixed2_whole k : 0 <= k < 2 ^ 53 -> Binary64.toFixed2 (whole k) = whole k.
Proof.
  intros Hk. destruct (Z.eq_dec k 0) as [->|Hne]; [reflexivity|].
  assert (Hbk : 1 <= bits k <= 53).
  { split; [apply bits_ge1; lia | apply bits_le; lia]. }
  rewrite whole_pos at 1 by lia. cbn [Binary64.toFixed2].
  replace (bits k - 53) with (- (53 - bits k)) by lia.
  rewrite (atLeast_whole _ k), (hundredths_whole _ k)
    by (try apply whole_mantissa; lia).
  replace (10 ^ 21 <=? k) with false by (symmetry; apply Z.leb_gt; lia).
  replace (100 * k =? 0) with false by (symmetry; apply Z.eqb_neq; lia).
  rewrite (Z.mul_comm 100 k). apply ofRatio_whole; lia.
Qed.

Lemma toZ_whole k : 0 <= k < 2 ^ 53 -> Binary64.toZ (whole k) = Some k.
Proof.
  intros Hk. destruct (Z.eq_dec k 0) as [->|Hne]; [reflexivity|].
  assert (Hbk : 1 <= bits k <= 53).
  { split; [apply bits_ge1; lia | apply bits_le; lia]. }
  rewrite whole_pos by lia. cbn [Binary64.toZ]. rewrite whole_mantissa by lia.
  assert (Hp : 0 < 2 ^ (53 - bits k)) by (apply Z.pow_pos_nonneg; lia).
  destruct (Z.leb_spec 0 (bits k - 53)).
  - replace (53 - bits k) with 0 by lia. replace (bits k - 53) with 0 by lia.
    rewrite Z.pow_0_r. f_equal. ring.
  - replace (- (bits k - 53)) with (53 - bits k) by lia.
    rewrite Z.mod_mul, Z.eqb_refl, Z.div_mul by lia. reflexivity.
Qed.

Lemma shr_exponent mrs e n : e <= snd (shr mrs e n).
Proof. unfold shr. destruct n; cbn [snd]; lia. Qed.

(** An integer of more than 53 bits rounds to a number whose exponent is
    positive. *)
Lemma ofZ_big c :
  2 ^ 53 <= c ->
  match Binary64.ofZ c with
  | S754_finite _ _ e => 1 <= e
  | _ => True
  end.
Proof.
  intros Hc. destruct c as [|p|p]; try lia.
  assert (Hb : 54 <= bits (Zpos p)).
  { unfold bits. assert (53 <= Z.log2 (Zpos p)); [|lia].
    apply Z.log2_le_pow2; lia. }
  unfold Binary64.ofZ, binary_normalize, binary_round, shl_align.
  rewrite bits_pos, fexp_normal by lia.
  destruct (bits (Zpos p) + 0 - 53 - 0) as [|n|n] eqn:En; try lia.
  unfold binary_round_aux, shr_fexp. cbn [Zdigits2].
  rewrite bits_pos, fexp_normal by lia.
  replace (bits (Zpos p) + 0 - 53 - 0) with (Zpos n) by lia.
  cbn [shr]. 
  match goal with
  | |- context [shr ?r ?e ?k] =>
      pose proof (shr_exponent r e k) as Hle; destruct (shr r e k) as [mrs e2]
  end.
  cbn [snd] in Hle.
  destruct (shr_m mrs); auto.
  destruct (e2 <=? _); auto. lia.
Qed.

Lemma SFeqb_finite m1 e1 m2 e2 :
  SFeqb (S754_finite false m1 e1) (S754_finite false m2 e2) = true ->
  e1 = e2 /\ m1 = m2.
Proof.
  unfold SFeqb, SFcompare.
  change IntDef.Z.compare with Z.compare.
  destruct (Z.compare_spec e1 e2); try discriminate.
  change PosDef.Pos.compare_cont with Pos.compare_cont.
  fold (Pos.compare m1 m2).
  destruct (Pos.compare_spec m1 m2); try discriminate. auto.
Qed.

Lemma whole_inj a b :
  0 < a < 2 ^ 53 -> 0 < b < 2 ^ 53 -> whole a = whole b -> a = b.
Proof.
  intros Ha Hb H.
  pose proof (toZ_whole a ltac:(lia)) as Ea.
  pose proof (toZ_whole b ltac:(lia)) as Eb.
  rewrite H in Ea. congruence.
Qed.

(** Only [n] itself rounds to the number [n], when [n] is below 2^53. *)
Lemma ofZ_eqb_whole c n :
  0 < n < 2 ^ 53 -> 0 < c ->
  SFeqb (Binary64.ofZ c) (whole n) = true -> c = n.
Proof.
  intros Hn Hc H.
  destruct (Z.lt_ge_cases c (2 ^ 53)) as [Hlt|Hge].
  - rewrite ofZ_whole in H by lia.
    rewrite (whole_pos c), (whole_pos n) in H by lia.
    apply SFeqb_finite in H. destruct H as [He Hm].
    apply whole_inj; try lia.
    rewrite (whole_pos c), (whole_pos n) by lia. now rewrite He, Hm.
  - pose proof (ofZ_big c Hge) as Hbig.
    assert (Hbn : bits n <= 53) by (apply bits_le; lia).
    rewrite (whole_pos n) in H by lia.
    destruct (Binary64.ofZ c) as [s|s| |s m e]; try discriminate;
      destruct s; try discriminate.
    apply SFeqb_finite in H. lia.
Qed.

Lemma roundTrips_whole c n :
  0 < n < 2 ^ 53 -> Binary64.roundTrips c (whole n) = true -> c = n.
Proof.
  intros Hn H. unfold Binary64.roundTrips in H.
  apply andb_true_iff in H. destruct H as [Hc H]. apply Z.ltb_lt in Hc.
  now apply ofZ_eqb_whole.
Qed.

Lemma candidate_whole P n c :
  0 < n < 2 ^ 53 -> 0 < P -> Binary64.candidate P (whole n) n = Some c -> c = n.
Proof.
  intros Hn HP. unfold Binary64.candidate.
  pose proof (Z.mod_pos_bound n P HP) as Hm.
  destruct (Binary64.roundTrips (n - n mod P) _) eqn:Elo;
    destruct (Binary64.roundTrips (n - n mod P + P) _) eqn:Ehi;
    try (apply roundTrips_whole in Ehi; [lia | exact Hn]).
  - apply roundTrips_whole in Elo; [|exact Hn]. intros [= <-]. exact Elo.
  - discriminate.
Qed.

Lemma shortest_whole z n :
  0 < n < 2 ^ 53 -> Binary64.shortest z (whole n) n = n.
Proof.
  intros Hn. induction z as [|z IH]; cbn [Binary64.shortest].
  - destruct (Binary64.candidate _ _ _) as [c|] eqn:E; [|reflexivity].
    apply candidate_whole in E; auto. apply Z.pow_pos_nonneg; lia.
  - destruct (Binary64.candidate _ _ _) as [c|] eqn:E; [|exact IH].
    apply candidate_whole in E; auto. apply Z.pow_pos_nonneg; lia.
Qed.

(** Below 2^53, [toString] prints the digits of the integer. *)
Lemma toString_whole n :
  0 < n < 2 ^ 53 -> Binary64.toString (Binary64.ofZ n) = Some n.
Proof.
  intros Hn. rewrite ofZ_whole by lia. unfold Binary64.toString.
  rewrite toZ_whole by lia.
  replace (n =? 0) with false by (symmetry; apply Z.eqb_neq; lia).
  rewrite Z.abs_eq by lia.
  replace (10 ^ 21 <=? n) with false by (symmetry; apply Z.leb_gt; lia).
  rewrite (whole_pos n) by lia. cbn [SFabs]. rewrite <- whole_pos by lia.
  rewrite shortest_whole by lia. rewrite Z.sgn_pos by lia. f_equal. lia.
Qed.

(** The model on numbers whose binary64 value is well known: 0.1 and
    1.005 are rounded, 2^53 + 1 is not a number, 0.1 + 0.2 is not 0.3, and
    [(0.125).toFixed(2)] is ["0.13"]. *)
Example binary64_known_values :
  Binary64.ofRatio 1 10 = S754_finite false 7205759403792794 (-56) /\
  Binary64.ofRatio (1005 * 10 ^ 15) (10 ^ 18)
    = S754_finite false 4526117625507348 (-52) /\
  Binary64.ofZ (2 ^ 53 + 1) = Binary64.ofZ (2 ^ 53) /\
  SFadd 53 1024 (Binary64.ofRatio 1 10) (Binary64.ofRatio 2 10)
    <> Binary64.ofRatio 3 10 /\
  Binary64.toFixed2 (Binary64.ofRatio 125 1000) = Binary64.ofRatio 13 100 /\
  Binary64.toString (Binary64.ofZ (2 ^ 60)) = Some 1152921504606847000.
Proof.
  split_all; vm_compute; try reflexivity. discriminate.
Qed.

(* ================================================================== *)
(** * The leaderboard: the table                                      *)
(* ================================================================== *)

Section TableFacts.

Import Leaderboard.

Variable N : JsNumber.

Implicit Types (t : Table N) (k a : address) (v : Stats N).

Lemma get_set_same k v t : get k (set k v t) = Some v.
Proof.
  induction t as [|[k' v'] t IH]; simpl.
  - now rewrite Z.eqb_refl.
  - destruct (Z.eqb_spec k' k); simpl.
    + now rewrite Z.eqb_refl.
    + destruct (Z.eqb_spec k' k); [contradiction | exact IH].
Qed.

Lemma get_set_other k v t a : a <> k -> get a (set k v t) = get a t.
Proof.
  intros Hne. induction t as [|[k' v'] t IH]; simpl.
  - destruct (Z.eqb_spec k a); [congruence | reflexivity].
  - destruct (Z.eqb_spec k' k); simpl.
    + subst. destruct (Z.eqb_spec k a); [congruence | reflexivity].
    + now rewrite IH.
Qed.

Lemma statsOf_set_same k v t : statsOf (set k v t) k = v.
Proof. unfold statsOf. now rewrite get_set_same. Qed.

Lemma statsOf_set_other k v t a : a <> k -> statsOf (set k v t) a = statsOf t a.
Proof. intros H. unfold statsOf. now rewrite get_set_other. Qed.

End TableFacts.

(* ================================================================== *)
(** * The leaderboard: aggregate statistics                           *)
(* ================================================================== *)

Section Aggregates.

Import Leaderboard.

Variable N : JsNumber.

Implicit Types (t : Table N) (v : Stats N).

Lemma get_sound k t v :
  table_sound t -> get k t = Some v -> wins v <= matchesPlayed v.
Proof.
  induction 1 as [|[k' v'] t Hh Ht IH]; simpl; [discriminate|].
  destruct (k' =? k); [now intros [= <-] | exact IH].
Qed.

Lemma set_sound k v t :
  table_sound t -> wins v <= matchesPlayed v -> table_sound (set k v t).
Proof.
  intros Ht Hv. induction Ht as [|[k' v'] t Hh Ht IH]; simpl.
  - repeat constructor. exact Hv.
  - destruct (k' =? k); constructor; auto.
Qed.

Lemma initPlayer_sound a t : table_sound t -> table_sound (initPlayer N a t).
Proof.
  intros Ht. unfold initPlayer. destruct (negb (has a t)); [|exact Ht].
  apply set_sound; [exact Ht | cbn; lia].
Qed.

Lemma bumpPlayed_sound a t : table_sound t -> table_sound (bumpPlayed N a t).
Proof.
  intros Ht. unfold bumpPlayed. destruct (get a t) as [st|] eqn:E; [|exact Ht].
  apply set_sound; [exact Ht|]. cbn. pose proof (get_sound _ _ _ Ht E). lia.
Qed.

Lemma handle_sound t i : table_sound t -> table_sound (handle N t i).
Proof.
  intros Ht. destruct i as [[]|[]| |]; cbn.
  - unfold onMatchCreated. now do 2 apply initPlayer_sound.
  - exact Ht.
  - unfold onSettled. destruct (get winner t) as [st|] eqn:E;
      (apply set_sound; [exact Ht|]); cbn; [|lia].
    pose proof (get_sound _ _ _ Ht E). lia.
  - unfold onRefunded. now do 2 apply bumpPlayed_sound.
  - now apply initPlayer_sound.
  - unfold afterReadBack. destruct readBack as [m|]; [|exact Ht].
    destruct (get _ t) as [st|] eqn:E;
      (apply set_sound; [exact Ht|]); cbn; [|lia].
    pose proof (get_sound _ _ _ Ht E). lia.
  - constructor.
Qed.

Lemma process_sound inputs t :
  table_sound t -> table_sound (process N inputs t).
Proof.
  revert t. induction inputs as [|i inputs IH]; intros t Ht; [exact Ht|].
  cbn. apply IH. now apply handle_sound.
Qed.

Lemma sums_ordered t a b :
  table_sound t -> a <= b ->
  fold_left (fun acc kv => acc + wins (snd kv)) t a
  <= fold_left (fun acc (kv : address * Stats N) => acc + matchesPlayed (snd kv)) t b.
Proof.
  intros Ht. revert a b. induction Ht as [|kv t Hh Ht IH]; intros a b Hab;
    simpl; [exact Hab|].
  apply IH. lia.
Qed.

End Aggregates.

(* ================================================================== *)
(** * The leaderboard: winnings in binary64                           *)
(* ================================================================== *)

Section Winnings.

Import Leaderboard.

Local Abbreviation B := Binary64Number.

Implicit Types (t : Table B) (v old : Stats B) (ws : list Z).

Lemma sumUnits_app l1 l2 : sumUnits (l1 ++ l2) = sumUnits l1 + sumUnits l2.
Proof. induction l1 as [|x l1 IH]; simpl; [reflexivity|]. rewrite IH. ring. Qed.

Lemma sumUnits_nonneg ws : Forall (fun w => 0 <= w) ws -> 0 <= sumUnits ws.
Proof. induction 1 as [|w ws Hw _ IH]; simpl; lia. Qed.

Lemma winnings_cons k v t : winnings ((k, v) :: t) = totalGTWon v :: winnings t.
Proof. reflexivity. Qed.

Lemma winnings_set_present k v old t :
  get k t = Some old -> totalGTWon v = totalGTWon old ->
  winnings (set k v t) = winnings t.
Proof.
  intros Hg Hv. induction t as [|[k' v'] t IH]; simpl in *; [discriminate|].
  destruct (k' =? k).
  - injection Hg as ->. now rewrite !winnings_cons, Hv.
  - now rewrite !winnings_cons, IH.
Qed.

Lemma winnings_set_absent k v t :
  get k t = None -> winnings (set k v t) = winnings t ++ [totalGTWon v].
Proof.
  intros Hg. induction t as [|[k' v'] t IH]; simpl in *; [reflexivity|].
  destruct (k' =? k); [discriminate|].
  now rewrite !winnings_cons, IH.
Qed.

Lemma holdsTotal_same k v old t K :
  get k t = Some old -> totalGTWon v = totalGTWon old ->
  holdsTotal t K -> holdsTotal (set k v t) K.
Proof.
  intros Hg Hv (ws & (Hw & Hpos) & Hs). exists ws. split; [split|]; auto.
  now rewrite (winnings_set_present _ _ _ _ Hg Hv).
Qed.

Lemma holdsTotal_absent k v w t K :
  get k t = None -> 0 <= w -> totalGTWon v = whole w ->
  holdsTotal t K -> holdsTotal (set k v t) (K + w).
Proof.
  intros Hg Hw0 Hv (ws & (Hw & Hpos) & Hs). exists (ws ++ [w]).
  split; [split|].
  - now rewrite (winnings_set_absent _ _ _ Hg), map_app, Hw, Hv.
  - apply Forall_app. split; [exact Hpos | now constructor].
  - rewrite sumUnits_app. simpl. lia.
Qed.

(** The record under [k] holds a whole amount, which can be raised. *)
Lemma holdsWhole_present k old t :
  get k t = Some old ->
  forall ws, holdsWhole t ws ->
  exists w, totalGTWon old = whole w /\ 0 <= w <= sumUnits ws /\
    forall x v, 0 <= x -> totalGTWon v = whole (w + x) ->
      holdsTotal (set k v t) (sumUnits ws + x).
Proof.
  induction t as [|[k' v'] t IH]; simpl; [discriminate|].
  intros Hg ws (Hw & Hpos). rewrite winnings_cons in Hw.
  destruct ws as [|w0 ws]; [discriminate|]. simpl in Hw.
  injection Hw as Hw0 Hw. inversion Hpos as [|? ? Hp0 Hp]; subst.
  pose proof (sumUnits_nonneg _ Hp) as Hnn.
  destruct (k' =? k).
  - injection Hg as ->. exists w0. simpl. split_all; auto; try lia.
    intros x v Hx Hv. exists ((w0 + x) :: ws). split; [split|].
    + rewrite winnings_cons. simpl. now rewrite Hv, Hw.
    + constructor; [lia | exact Hp].
    + simpl. lia.
  - destruct (IH Hg ws (conj Hw Hp)) as (w & Ho & Hle & Hup).
    exists w. simpl. split_all; auto; try lia.
    intros x v Hx Hv. destruct (Hup x v Hx Hv) as (ws' & (Hw' & Hp') & Hs').
    exists (w0 :: ws'). split; [split|].
    + rewrite winnings_cons. simpl. now rewrite Hw0, Hw'.
    + now constructor.
    + simpl. lia.
Qed.

Lemma fold_whole t : forall ws a,
  holdsWhole t ws -> 0 <= a -> a + sumUnits ws < 2 ^ 53 ->
  fold_left (fun acc (kv : address * Stats B) => nadd B acc (totalGTWon (snd kv)))
            t (whole a)
  = whole (a + sumUnits ws).
Proof.
  induction t as [|[k v] t IH]; intros ws a (Hw & Hpos) Ha Hlt.
  - destruct ws; [|discriminate]. simpl. now rewrite Z.add_0_r.
  - rewrite winnings_cons in Hw.
    destruct ws as [|w0 ws]; [discriminate|]. simpl in Hw.
    injection Hw as Hw0 Hw. inversion Hpos as [|? ? Hp0 Hp]; subst.
    pose proof (sumUnits_nonneg _ Hp) as Hnn.
    change (sumUnits (w0 :: ws)) with (w0 + sumUnits ws) in *.
    cbn [fold_left snd]. rewrite Hw0.
    change (nadd B (whole a) (whole w0)) with (SFadd 53 1024 (whole a) (whole w0)).
    rewrite whole_add by lia.
    rewrite (IH ws (a + w0)); [f_equal; lia | now split | lia | lia].
Qed.

Lemma sumGTWon_whole t K :
  holdsTotal t K -> K < 2 ^ 53 -> sumGTWon B t = whole K.
Proof.
  intros (ws & Hw & <-) Hlt. unfold sumGTWon.
  change (nzero B) with (whole 0). now rewrite (fold_whole t ws 0).
Qed.

Lemma initPlayer_total a t K : holdsTotal t K -> holdsTotal (initPlayer B a t) K.
Proof.
  intros H. unfold initPlayer, has. destruct (get a t) eqn:E; cbn [negb]; [exact H|].
  rewrite <- (Z.add_0_r K). now apply holdsTotal_absent.
Qed.

Lemma bumpPlayed_total a t K : holdsTotal t K -> holdsTotal (bumpPlayed B a t) K.
Proof.
  intros H. unfold bumpPlayed. destruct (get a t) as [st|] eqn:E; [|exact H].
  now apply holdsTotal_same with (old := st).
Qed.

Lemma afterReadBack_total readBack winner t K :
  holdsTotal t K -> holdsTotal (afterReadBack B readBack winner t) K.
Proof.
  intros H. unfold afterReadBack. destruct readBack as [m|]; [|exact H].
  destruct (get _ t) as [st|] eqn:E.
  - now apply holdsTotal_same with (old := st).
  - rewrite <- (Z.add_0_r K). now apply holdsTotal_absent.
Qed.

(** A whole payout is converted and added without rounding. *)
Lemma onSettled_total winner k t K :
  0 <= k -> K + k < 2 ^ 53 -> holdsTotal t K ->
  holdsTotal (onSettled B winner (k * 10 ^ 18) t) (K + k).
Proof.
  intros Hk Hlt H. unfold onSettled.
  assert (Hu : ofUnits B (k * 10 ^ 18) = whole k).
  { destruct H as (ws & (_ & Hpos) & Hs).
    pose proof (sumUnits_nonneg _ Hpos).
    apply ofRatio_whole; lia. }
  destruct (get winner t) as [st|] eqn:E.
  - destruct H as (ws & Hw & <-).
    destruct (holdsWhole_present _ _ _ E ws Hw) as (w & Ho & Hle & Hup).
    apply Hup; [exact Hk|]. cbn [totalGTWon]. rewrite Ho, Hu.
    change (nadd B) with (SFadd 53 1024). apply whole_add; lia.
  - now apply holdsTotal_absent.
Qed.

Lemma wholeGT_total l :
  wholeGT l -> exists K, sumUnits l = K * 10 ^ 18 /\ 0 <= K < 2 ^ 53.
Proof.
  intros (Hall & Hlt).
  assert (H : 0 <= sumUnits l /\ sumUnits l mod 10 ^ 18 = 0).
  { clear Hlt. induction Hall as [|a l (Ha & Hm) _ IH]; [now split|].
    change (sumUnits (a :: l)) with (a + sumUnits l).
    destruct IH as (IH1 & IH2). split; [lia|].
    rewrite Z.add_mod, Hm, IH2 by lia. reflexivity. }
  destruct H as (Hnn & Hm). exists (sumUnits l / 10 ^ 18).
  pose proof (Z.div_mod (sumUnits l) (10 ^ 18) ltac:(lia)) as Hd.
  rewrite Hm in Hd. split; [lia|].
  split; [apply Z.div_pos; lia|].
  apply Z.div_lt_upper_bound; lia.
Qed.

Lemma wholeGT_snoc acc a :
  wholeGT (acc ++ [a]) ->
  wholeGT acc /\ exists k, a = k * 10 ^ 18 /\ 0 <= k.
Proof.
  intros (Hall & Hlt). apply Forall_app in Hall. destruct Hall as (Hacc & Ha).
  inversion Ha as [|? ? (Ha0 & Hm) _]; subst.
  rewrite sumUnits_app in Hlt. change (sumUnits [a]) with (a + 0) in Hlt.
  split; [split; [exact Hacc | lia]|].
  exists (a / 10 ^ 18).
  pose proof (Z.div_mod a (10 ^ 18) ltac:(lia)) as Hd. rewrite Hm in Hd.
  split; [lia | apply Z.div_pos; lia].
Qed.

(** As long as the payouts seen since the last reset are whole numbers of
    GT, the table holds them exactly. *)
Lemma process_total inputs : forall t acc,
  (wholeGT acc -> exists K, sumUnits acc = K * 10 ^ 18 /\ holdsTotal t K) ->
  wholeGT (payoutsSinceReset inputs acc) ->
  exists K, sumUnits (payoutsSinceReset inputs acc) = K * 10 ^ 18 /\
            holdsTotal (process B inputs t) K.
Proof.
  induction inputs as [|i inputs IH]; intros t acc Hinv Hw; [now apply Hinv|].
  cbn [process fold_left]. change (fold_left (handle B) inputs (handle B t i))
    with (process B inputs (handle B t i)).
  destruct i as [[matchId q1 q2 amount | matchId player | matchId winner amount
                 | matchId q1 q2 amount] | [buyer u g] | matchId winner readBack | ];
    cbn [payoutsSinceReset handle] in *; apply IH; try exact Hw.
  - intros Hacc. destruct (Hinv Hacc) as (K & HK & Ht). exists K. split; [exact HK|].
    unfold onMatchCreated. now do 2 apply initPlayer_total.
  - exact Hinv.
  - intros Hacc. destruct (wholeGT_snoc _ _ Hacc) as (Hacc' & k & -> & Hk).
    destruct (Hinv Hacc') as (K & HK & Ht).
    destruct (wholeGT_total _ Hacc) as (K' & HK' & Hb).
    rewrite sumUnits_app in HK' |- *.
    change (sumUnits [k * 10 ^ 18]) with (k * 10 ^ 18 + 0) in HK' |- *.
    exists (K + k). split; [lia|]. apply onSettled_total; auto. lia.
  - intros Hacc. destruct (Hinv Hacc) as (K & HK & Ht). exists K. split; [exact HK|].
    unfold onRefunded. now do 2 apply bumpPlayed_total.
  - intros Hacc. destruct (Hinv Hacc) as (K & HK & Ht). exists K. split; [exact HK|].
    now apply initPlayer_total.
  - intros Hacc. destruct (Hinv Hacc) as (K & HK & Ht). exists K. split; [exact HK|].
    now apply afterReadBack_total.
  - intros _. exists 0. split; [reflexivity|]. exists []. now repeat split.
Qed.

Lemma holdsUnits_whole K : 0 <= K < 2 ^ 53 -> holdsUnits (whole K) (K * 10 ^ 18).
Proof.
  intros HK. destruct (Z.eq_dec K 0) as [->|Hne]; [reflexivity|].
  assert (Hbk : 1 <= bits K <= 53).
  { split; [apply bits_ge1; lia | apply bits_le; lia]. }
  rewrite whole_pos by lia. cbn [holdsUnits]. rewrite whole_mantissa by lia.
  destruct (Z.leb_spec 0 (bits K - 53)).
  - replace (53 - bits K) with 0 by lia. replace (bits K - 53) with 0 by lia.
    rewrite Z.pow_0_r. ring.
  - replace (- (bits K - 53)) with (53 - bits K) by lia. ring.
Qed.

End Winnings.

(** With the ABI of the aggregator no callback ever holds a match read
    back. *)
Lemma listen_never_reads chain events :
  Forall (fun i => match i with
                   | Leaderboard.LoserReadBack _ _ (Some _) => False
                   | _ => True
                   end)
         (Leaderboard.listen Leaderboard.PLAY_GAME_ABI chain events).
Proof.
  unfold Leaderboard.listen. induction events as [|ev events IH]; simpl.
  - constructor.
  - apply Forall_app. split; [|exact IH].
    destruct ev; repeat constructor.
Qed.

(** C8.  What the [Settled] listener of the aggregator does, in binary64
    and with the contract object it builds.  The winner's record (created
    if absent) gains one win and one match played, and the payout is added
    to its winnings: exactly, when the winnings and the payout are whole
    numbers of GT and stay below 2^53 GT.  The read-back of the match
    always throws, because the ABI of the aggregator names no function: the
    table after the listener is the table after the winner's update, the
    handler does not fail, and no other record changes; the loser's matches
    played stay as they were.  With the ABI of the API server, which names
    [matches], the same listener adds one match played to the loser. *)
Theorem settled_listener_skips_the_loser
    (t : Leaderboard.Table Leaderboard.Binary64Number)
    (chain : bytes32 -> PlayGame.Match) matchId winner payout :
  let t' := Leaderboard.settledListener Leaderboard.Binary64Number
              Leaderboard.PLAY_GAME_ABI chain matchId winner payout t in
  let loser := loserOf (chain matchId) winner in
  Leaderboard.readMatch Leaderboard.PLAY_GAME_ABI chain matchId = None /\
  t' = Leaderboard.onSettled Leaderboard.Binary64Number winner payout t /\
  Leaderboard.wins (statsOf t' winner)
    = Leaderboard.wins (statsOf t winner) + 1 /\
  Leaderboard.matchesPlayed (statsOf t' winner)
    = Leaderboard.matchesPlayed (statsOf t winner) + 1 /\
  (forall w k,
     0 <= w -> 0 <= k -> w + k < 2 ^ 53 ->
     Leaderboard.totalGTWon (statsOf t winner) = Binary64.ofZ w ->
     payout = k * 10 ^ 18 ->
     Leaderboard.totalGTWon (statsOf t' winner) = Binary64.ofZ (w + k)) /\
  (forall a, a <> winner -> Leaderboard.get a t' = Leaderboard.get a t) /\
  (loser <> winner ->
   Leaderboard.matchesPlayed (statsOf t' loser)
     = Leaderboard.matchesPlayed (statsOf t loser)) /\
  (loser <> winner ->
   Leaderboard.matchesPlayed
     (statsOf (Leaderboard.settledListener Leaderboard.Binary64Number
                 Api.PLAY_GAME_ABI chain matchId winner payout t) loser)
   = Leaderboard.matchesPlayed (statsOf t loser) + 1).
Proof.
  intros t' loser.
  assert (Ht' : t' = Leaderboard.onSettled Leaderboard.Binary64Number
                       winner payout t) by reflexivity.
  assert (Hothers : forall a, a <> winner ->
            Leaderboard.get a t' = Leaderboard.get a t).
  { intros a Ha. rewrite Ht'. unfold Leaderboard.onSettled.
    destruct (Leaderboard.get winner t); now rewrite get_set_other. }
  split; [reflexivity|]. split; [exact Ht'|].
  split_all; auto.
  - rewrite Ht'. unfold Leaderboard.onSettled, statsOf at 2.
    destruct (Leaderboard.get winner t); now rewrite statsOf_set_same.
  - rewrite Ht'. unfold Leaderboard.onSettled, statsOf at 2.
    destruct (Leaderboard.get winner t); now rewrite statsOf_set_same.
  - intros w k Hw Hk Hlt Hold ->. rewrite Ht'.
    rewrite !ofZ_whole in * by lia.
    assert (Hu : Leaderboard.ofUnits Leaderboard.Binary64Number (k * 10 ^ 18)
                 = whole k) by (apply ofRatio_whole; lia).
    unfold Leaderboard.onSettled. unfold statsOf in Hold.
    destruct (Leaderboard.get winner t) as [st|];
      rewrite statsOf_set_same; cbn [Leaderboard.totalGTWon]; rewrite Hu.
    + rewrite Hold. apply whole_add; lia.
    + cbn in Hold. f_equal.
      destruct (Z.eq_dec w 0) as [->|Hne]; [reflexivity|].
      rewrite whole_pos in Hold by lia. discriminate.
  - intros Hne. unfold statsOf. now rewrite Hothers.
  - intros Hne. unfold Leaderboard.settledListener, Leaderboard.updateLoserStats.
    change (Leaderboard.readMatch Api.PLAY_GAME_ABI chain matchId)
      with (Some (chain matchId)).
    unfold Leaderboard.afterReadBack. fold (loserOf (chain matchId) winner).
    fold loser.
    assert (Hl : Leaderboard.get loser
                   (Leaderboard.onSettled Leaderboard.Binary64Number
                      winner payout t) = Leaderboard.get loser t).
    { rewrite <- Ht'. now apply Hothers. }
    rewrite Hl. unfold statsOf at 2.
    destruct (Leaderboard.get loser t); now rewrite statsOf_set_same.
Qed.

(** The match of the concrete run, settled for account 11 with 10 GT, as
    an aggregator that has seen its creation handles it: account 12, the
    loser, still has no match played; account 11 has one, and 10 GT. *)
Lemma settled_listener_skips_the_loser_witness :
  Leaderboard.matchesPlayed
    (statsOf (Leaderboard.settledListener Leaderboard.Binary64Number
                Leaderboard.PLAY_GAME_ABI (settled_chain (5 * 10 ^ 18)) 7 11
                (10 * 10 ^ 18)
                (Leaderboard.onMatchCreated Leaderboard.Binary64Number 11 12 []))
             12) = 0 /\
  Leaderboard.matchesPlayed
    (statsOf (Leaderboard.settledListener Leaderboard.Binary64Number
                Leaderboard.PLAY_GAME_ABI (settled_chain (5 * 10 ^ 18)) 7 11
                (10 * 10 ^ 18)
                (Leaderboard.onMatchCreated Leaderboard.Binary64Number 11 12 []))
             11) = 1 /\
  Leaderboard.totalGTWon
    (statsOf (Leaderboard.settledListener Leaderboard.Binary64Number
                Leaderboard.PLAY_GAME_ABI (settled_chain (5 * 10 ^ 18)) 7 11
                (10 * 10 ^ 18)
                (Leaderboard.onMatchCreated Leaderboard.Binary64Number 11 12 []))
             11) = Binary64.ofZ 10.
Proof.
  destruct (settled_listener_skips_the_loser
              (Leaderboard.onMatchCreated Leaderboard.Binary64Number 11 12 [])
              (settled_chain (5 * 10 ^ 18)) 7 11 (10 * 10 ^ 18))
    as (_ & _ & _ & Hplayed & Hwon & _ & Hloser & _).
  split; [|split].
  - apply Hloser. vm_compute. discriminate.
  - exact Hplayed.
  - apply (Hwon 0 10); try lia; reflexivity.
Defined.

(** C9, as the code has it.  After any sequence of callbacks run from an
    empty table, [GET /stats] reports [totalWins <= totalMatches]; and when
    the settlement payouts seen since the last reset are whole numbers of GT
    that add up to less than 2^53 GT, the [totalGTWon] it reports is exactly
    their sum. *)
Theorem stats_totals (inputs : list Leaderboard.Input) :
  Leaderboard.totalWins
    (Leaderboard.getStats Leaderboard.Binary64Number
       (Leaderboard.process Leaderboard.Binary64Number inputs []))
  <= Leaderboard.totalMatches
       (Leaderboard.getStats Leaderboard.Binary64Number
          (Leaderboard.process Leaderboard.Binary64Number inputs []))
  /\
  (wholeGT (Leaderboard.payoutsSinceReset inputs []) ->
   holdsUnits
     (Leaderboard.totalGTWonOut
        (Leaderboard.getStats Leaderboard.Binary64Number
           (Leaderboard.process Leaderboard.Binary64Number inputs [])))
     (sumUnits (Leaderboard.payoutsSinceReset inputs []))).
Proof.
  split.
  - cbn. unfold Leaderboard.sumWins, Leaderboard.sumMatches.
    apply sums_ordered; [|lia].
    apply process_sound. constructor.
  - intros Hw.
    destruct (process_total inputs [] []) as (K & HK & Ht); [|exact Hw|].
    { intros _. exists 0. split; [reflexivity|]. exists []. now repeat split. }
    destruct (wholeGT_total _ Hw) as (K' & HK' & Hb).
    assert (K' = K) by lia. subst K'.
    cbn [Leaderboard.getStats Leaderboard.totalGTWonOut].
    rewrite (sumGTWon_whole _ K) by (auto; lia).
    change (Leaderboard.toFixed2 Leaderboard.Binary64Number)
      with Binary64.toFixed2.
    rewrite toFixed2_whole by lia. rewrite HK. now apply holdsUnits_whole.
Qed.

Lemma stats_totals_witness :
  holdsUnits
    (Leaderboard.totalGTWonOut
       (Leaderboard.getStats Leaderboard.Binary64Number
          (Leaderboard.process Leaderboard.Binary64Number whole_settlement [])))
    (sumUnits (Leaderboard.payoutsSinceReset whole_settlement [])).
Proof.
  destruct (stats_totals whole_settlement) as (_ & H).
  apply H. split.
  - repeat constructor. vm_compute. discriminate.
  - vm_compute. reflexivity.
Defined.

(** C9 does not hold as stated.  One settlement of 0.002 GT: the payouts
    sum to 2 * 10^15 units, and [GET /stats] reports a [totalGTWon] of 0. *)
Lemma stats_winnings_not_the_sum :
  sumUnits (Leaderboard.payoutsSinceReset small_settlement []) = 2 * 10 ^ 15 /\
  Leaderboard.totalGTWonOut
    (Leaderboard.getStats Leaderboard.Binary64Number
       (Leaderboard.process Leaderboard.Binary64Number small_settlement []))
  = S754_zero false /\
  ~ holdsUnits
      (Leaderboard.totalGTWonOut
         (Leaderboard.getStats Leaderboard.Binary64Number
            (Leaderboard.process Leaderboard.Binary64Number small_settlement [])))
      (sumUnits (Leaderboard.payoutsSinceReset small_settlement [])).
Proof.
  split; [reflexivity|]. split; [vm_compute; reflexivity|].
  vm_compute. discriminate.
Qed.

(** The counters of that run: the winner's match is counted, the loser's
    is not. *)
Example stats_small_settlement :
  Leaderboard.totalWins
    (Leaderboard.getStats Leaderboard.Binary64Number
       (Leaderboard.process Leaderboard.Binary64Number small_settlement [])) = 1 /\
  Leaderboard.totalMatches
    (Leaderboard.getStats Leaderboard.Binary64Number
       (Leaderboard.process Leaderboard.Binary64Number small_settlement [])) = 1 /\
  Leaderboard.totalPlayers
    (Leaderboard.getStats Leaderboard.Binary64Number
       (Leaderboard.process Leaderboard.Binary64Number small_settlement [])) = 2.
Proof. repeat split. Qed.

(** A payout of 1.005000000000000001 GT: the number nearest to it lies
    below 1.005, and [toFixed(2)] reports 1 where the payout rounds to
    1.01. *)
Example stats_rounds_the_number :
  Leaderboard.totalGTWonOut
    (Leaderboard.getStats Leaderboard.Binary64Number
       (Leaderboard.process Leaderboard.Binary64Number
          [Leaderboard.GameEvent
             (PlayGame.Settled 7 11 (1005 * 10 ^ 15 + 1))] []))
  = Binary64.ofZ 1.
Proof. vm_compute. reflexivity. Qed.

(* ================================================================== *)
(** * More on the escrow: creating matches and naming the operator    *)
(* ================================================================== *)

Lemma exec_ok_done e c s s' :
  exec e c s = (Ok tt, s') -> dispatch e c s = Done tt s'.
Proof.
  intros He. pose proof (transact_ok_done (dispatch e c) s tt) as H.
  unfold exec in He. rewrite He in H. now apply H.
Qed.

Lemma exec_succeeded e c s :
  succeeded (fst (exec e c s)) = true ->
  exists s', exec e c s = (Ok tt, s').
Proof.
  unfold exec, transact. destruct (dispatch e c s) as [[] s'|r s']; cbn;
    [eauto | discriminate].
Qed.

(** X1.  [createMatch] succeeds exactly when the caller is the owner, both
    participants are non-zero and different, the stake is positive and no
    match is stored under the id; it then stores the new match as PENDING
    with both flags unset and start time zero, emits [MatchCreated], and
    changes neither another match nor the token ledger. *)
Theorem createMatch_succeeds_iff s e matchId a b amount :
  (succeeded (fst (exec e (CreateMatch matchId a b amount) s)) = true <->
   sender e = owner s /\ a <> 0 /\ b <> 0 /\ a <> b /\ 0 < amount /\
   p1 (matches s matchId) = 0) /\
  (forall s', exec e (CreateMatch matchId a b amount) s = (Ok tt, s') ->
     matches s' matchId = mkMatch a b amount 0 PENDING false false /\
     (forall k, k <> matchId -> matches s' k = matches s k) /\
     gameToken s' = gameToken s /\
     owner s' = owner s /\ backendOperator s' = backendOperator s /\
     log s' = log s ++ [MatchCreated matchId a b amount]).
Proof.
  split.
  - split.
    + intros Hs. destruct (exec_succeeded _ _ _ Hs) as [s' He].
      apply exec_ok_done in He. unfold dispatch in He.
      destruct (createMatch_done _ _ _ _ _ _ _ He)
        as (H1 & H2 & H3 & H4 & H5 & H6 & _).
      split_all; assumption.
    + intros (H1 & H2 & H3 & H4 & H5 & H6).
      destruct (createMatch_runs e matchId s a b amount H1 H2 H3 H4 H5 H6)
        as [s' D].
      unfold exec, dispatch. now rewrite (transact_done _ _ _ _ D).
  - intros s' He. apply exec_ok_done in He. unfold dispatch in He.
    destruct (createMatch_done _ _ _ _ _ _ _ He)
      as (_ & _ & _ & _ & _ & _ & Hms & Hg & _ & Ho & Hb & _ & Hl).
    split_all; auto.
    + now rewrite Hms, Z.eqb_refl.
    + intros k Hk. rewrite Hms. case_eqb; [contradiction | reflexivity].
Qed.

(** In any state, [commitResult] from an account that is not the backend
    operator is rejected. *)
Lemma commitResult_rejects_stranger s e matchId winner :
  sender e <> backendOperator s ->
  exists r, exec e (CommitResult matchId winner) s = (Err r, s).
Proof.
  intros Hne. apply transact_not_done. intros s' D.
  now destruct (commitResult_done _ _ _ _ _ D) as (_ & E & _).
Qed.

(** X2.  [setBackendOperator] succeeds exactly when the caller is the
    owner.  It changes the operator and nothing else (no match, no balance,
    no event), and from then on [commitResult] from any account other than
    the new operator, the previous operator included, is rejected. *)
Theorem setBackendOperator_hands_over s e a :
  (succeeded (fst (exec e (SetBackendOperator a) s)) = true <->
   sender e = owner s) /\
  (forall s', exec e (SetBackendOperator a) s = (Ok tt, s') ->
     backendOperator s' = a /\ owner s' = owner s /\
     matches s' = matches s /\ gameToken s' = gameToken s /\
     log s' = log s /\
     forall e' matchId winner,
       sender e' <> a ->
       exists r, exec e' (CommitResult matchId winner) s' = (Err r, s')).
Proof.
  split.
  - unfold exec, transact, dispatch, setBackendOperator. unfold_monad. cbn.
    destruct (Z.eqb_spec (sender e) (owner s)); cbn; split; intros;
      try reflexivity; try assumption; try discriminate; contradiction.
  - intros s' He. apply exec_ok_done in He.
    unfold dispatch, setBackendOperator in He. run_done He.
    split_all; try reflexivity.
    intros e' matchId winner Hne.
    now apply commitResult_rejects_stranger.
Qed.

(* ================================================================== *)
(** * More on the escrow: staking                                     *)
(* ================================================================== *)

(** X3.  In every reachable state, [stake(id)] succeeds exactly when the
    match exists and is PENDING, the caller is a participant who has not
    staked yet, and the caller has approved the escrow for the stake and
    holds it. *)
Theorem stake_succeeds_iff s e matchId :
  Reachable s -> valid_env s e = true ->
  (succeeded (fst (exec e (Stake matchId) s)) = true <->
   p1 (matches s matchId) <> 0 /\
   status (matches s matchId) = PENDING /\
   ((sender e = p1 (matches s matchId) /\ p1Staked (matches s matchId) = false) \/
    (sender e = p2 (matches s matchId) /\ p2Staked (matches s matchId) = false)) /\
   stakeAmount (matches s matchId)
     <= Ledger.allowances (gameToken s) (sender e) (this s) /\
   stakeAmount (matches s matchId)
     <= Ledger.balanceOf (gameToken s) (sender e)).
Proof.
  intros Hr Henv. pose proof (reachable_inv _ Hr) as HInv. split.
  - intros Hs. destruct (exec_succeeded _ _ _ Hs) as [s' He].
    apply exec_ok_done in He. unfold dispatch in He.
    destruct (stake_done _ _ _ _ He)
      as (_ & Hp & Hst & Hc & Hf & (g' & Ht & _) & _).
    destruct (transferFrom_done _ _ _ _ _ _ Ht) as (Hal & Hbal & _).
    split_all; auto.
    destruct (Z.eqb_spec (sender e) (p1 (matches s matchId))); [now left|].
    destruct Hc; [contradiction | now right].
  - intros (Hp & Hst & Hc & Hal & Hbal).
    pose proof (ok_stake _ _ (inv_matches _ HInv matchId) Hp) as Hpos.
    destruct (ok_players _ _ (inv_matches _ HInv matchId) Hp) as (_ & Hdiff).
    destruct (transferFrom_runs (this s) (sender e) (this s)
                (stakeAmount (matches s matchId)) (gameToken s)
                (inv_ledger _ HInv)) as [g' Ht];
      [unfold Ledger.balanceOf in Hbal; lia | exact Hal |].
    assert (Hf : (if sender e =? p1 (matches s matchId)
                  then p1Staked (matches s matchId)
                  else p2Staked (matches s matchId)) = false).
    { destruct Hc as [[E F] | [E F]].
      - now rewrite E, Z.eqb_refl.
      - destruct (Z.eqb_spec (sender e) (p1 (matches s matchId)));
          [congruence | exact F]. }
    destruct (stake_runs e matchId s g' (inv_guard _ HInv) Hp Hst
                ltac:(destruct Hc as [[E _]|[E _]]; auto) Hf Ht) as [s' D].
    unfold exec, dispatch. now rewrite (transact_done _ _ _ _ D).
Qed.

Lemma stake_succeeds_iff_witness :
  succeeded (fst (exec (mkEnv Scenario.alice 2000) (Stake Scenario.matchId)
                       Scenario.created)) = true /\
  succeeded (fst (exec (mkEnv Scenario.bob 2000) (Stake Scenario.matchId)
                       Scenario.created)) = false.
Proof.
  split.
  - apply (stake_succeeds_iff Scenario.created (mkEnv Scenario.alice 2000)
             Scenario.matchId created_reachable eq_refl).
    vm_compute. repeat split; try discriminate. left. split; reflexivity.
  - apply not_true_is_false. intros H.
    apply (stake_succeeds_iff Scenario.created (mkEnv Scenario.bob 2000)
             Scenario.matchId created_reachable eq_refl) in H.
    destruct H as (_ & _ & _ & Hal & _). vm_compute in Hal. now apply Hal.
Defined.

Lemma staked_match_fields e m :
  status m = PENDING ->
  (if sender e =? p1 m then p1Staked m else p2Staked m) = false ->
  p1Staked (staked_match e m) = (p1Staked m || (sender e =? p1 m)) /\
  p2Staked (staked_match e m) = (p2Staked m || negb (sender e =? p1 m)) /\
  status (staked_match e m) =
    (if p1Staked m || p2Staked m then STAKED else PENDING) /\
  startTime (staked_match e m) =
    (if p1Staked m || p2Staked m then timestamp e else startTime m).
Proof.
  destruct m as [q1 q2 st t0 stt f1 f2]. unfold staked_match. cbn.
  intros -> Hf.
  destruct (sender e =? q1), f1, f2; cbn in *; try discriminate; auto.
Qed.

(** X4.  What a successful [stake] does, in every reachable state: exactly
    the stake moves from the caller to the escrow, the caller's allowance
    drops by it, no other balance and no other match changes, the caller's
    flag is set, and the match becomes STAKED with the block timestamp as
    start time exactly when the other participant had staked already. *)
Theorem stake_pulls_the_stake s e matchId s' :
  Reachable s -> valid_env s e = true ->
  exec e (Stake matchId) s = (Ok tt, s') ->
  Ledger.balanceOf (gameToken s') (sender e) =
    Ledger.balanceOf (gameToken s) (sender e) - stakeAmount (matches s matchId) /\
  Ledger.balanceOf (gameToken s') (this s) =
    Ledger.balanceOf (gameToken s) (this s) + stakeAmount (matches s matchId) /\
  (forall a, a <> sender e -> a <> this s ->
     Ledger.balanceOf (gameToken s') a = Ledger.balanceOf (gameToken s) a) /\
  Ledger.allowances (gameToken s') (sender e) (this s) =
    Ledger.allowances (gameToken s) (sender e) (this s)
    - stakeAmount (matches s matchId) /\
  (forall k, k <> matchId -> matches s' k = matches s k) /\
  p1Staked (matches s' matchId) =
    (p1Staked (matches s matchId) || (sender e =? p1 (matches s matchId))) /\
  p2Staked (matches s' matchId) =
    (p2Staked (matches s matchId) || negb (sender e =? p1 (matches s matchId))) /\
  status (matches s' matchId) =
    (if p1Staked (matches s matchId) || p2Staked (matches s matchId)
     then STAKED else PENDING) /\
  startTime (matches s' matchId) =
    (if p1Staked (matches s matchId) || p2Staked (matches s matchId)
     then timestamp e else 0) /\
  log s' = log s ++ [Staked matchId (sender e)].
Proof.
  intros Hr Henv He. pose proof (reachable_inv _ Hr) as HInv.
  apply valid_env_true in Henv. destruct Henv as (Hne & _).
  apply exec_ok_done in He. unfold dispatch in He.
  destruct (stake_done _ _ _ _ He)
    as (_ & Hp & Hst & Hc & Hf & (g' & Ht & Hg) & Hms & _ & _ & _ & _ & Hlog).
  destruct (transferFrom_done _ _ _ _ _ _ Ht) as (_ & _ & Hb & Hal & _).
  destruct (ok_pending _ _ (inv_matches _ HInv matchId) Hst) as (Hz & Hboth).
  unfold Ledger.balanceOf. rewrite Hg.
  assert (Hm : matches s' matchId = staked_match e (matches s matchId))
    by now rewrite Hms, Z.eqb_refl.
  destruct (staked_match_fields e _ Hst Hf) as (F1 & F2 & F3 & F4).
  rewrite Hz in F4.
  split_all; try (rewrite Hm; assumption).
  - rewrite Hb. unfold moved. case_eqb; try congruence; lia.
  - rewrite Hb. unfold moved. case_eqb; try congruence; lia.
  - intros a H1 H2. rewrite Hb. unfold moved. case_eqb; try congruence; lia.
  - rewrite Hal, !Z.eqb_refl. cbn. lia.
  - intros k Hk. rewrite Hms. case_eqb; [contradiction | reflexivity].
  - exact Hlog.
Qed.

Lemma stake_pulls_the_stake_witness :
  Ledger.balanceOf (gameToken Scenario.one_staked) Scenario.alice =
    Ledger.balanceOf (gameToken Scenario.created) Scenario.alice
    - stakeAmount (matches Scenario.created Scenario.matchId) /\
  Ledger.balanceOf (gameToken Scenario.one_staked) Scenario.escrow =
    Ledger.balanceOf (gameToken Scenario.created) Scenario.escrow
    + stakeAmount (matches Scenario.created Scenario.matchId).
Proof.
  destruct (stake_pulls_the_stake Scenario.created (mkEnv Scenario.alice 2000)
              Scenario.matchId Scenario.one_staked created_reachable eq_refl)
    as (H1 & H2 & _).
  - vm_compute. reflexivity.
  - split; [exact H1 | exact H2].
Defined.

(* ================================================================== *)
(** * More on the escrow: payouts                                     *)
(* ================================================================== *)

Lemma settled_reachable : Reachable Outcomes.settled.
Proof. apply Reachable_step; [apply staked_reachable | reflexivity..]. Qed.

Lemma refunded_reachable : Reachable Outcomes.refunded.
Proof. apply Reachable_step; [apply staked_reachable | reflexivity..]. Qed.

(** X5.  Once a match is SETTLED or REFUNDED, then after any further
    sequence of transactions every [stake], [commitResult] and [refund] on
    it is rejected: a match pays out at most once. *)
Theorem terminal_match_is_closed s s2 matchId :
  Reachable s -> is_terminal (status (matches s matchId)) = true ->
  Run s s2 ->
  forall e winner,
    (exists r, exec e (Stake matchId) s2 = (Err r, s2)) /\
    (exists r, exec e (CommitResult matchId winner) s2 = (Err r, s2)) /\
    (exists r, exec e (Refund matchId) s2 = (Err r, s2)).
Proof.
  intros Hr Ht Hrun e winner.
  pose proof (run_terminal _ _ matchId Hrun (reachable_inv _ Hr) Ht) as E.
  assert (Ht2 : is_terminal (status (matches s2 matchId)) = true)
    by now rewrite E.
  split_all; apply transact_not_done; intros s' D.
  - destruct (stake_done _ _ _ _ D) as (_ & _ & Hst & _).
    rewrite Hst in Ht2. discriminate.
  - destruct (commitResult_done _ _ _ _ _ D) as (_ & _ & _ & Hst & _).
    rewrite Hst in Ht2. discriminate.
  - destruct (refund_done _ _ _ _ D) as (_ & _ & Hst & _).
    rewrite Hst in Ht2. discriminate.
Qed.

Lemma terminal_match_is_closed_witness :
  exists r, exec (mkEnv Scenario.carol (3000 + 86400))
                 (Refund Scenario.matchId) Outcomes.settled
            = (Err r, Outcomes.settled).
Proof.
  apply (terminal_match_is_closed Outcomes.settled Outcomes.settled
           Scenario.matchId settled_reachable eq_refl (Run_nil _)
           (mkEnv Scenario.carol (3000 + 86400)) Scenario.alice).
Defined.

(** X6.  The escrow is solvent in every reachable state: the reentrancy
    guard is open between transactions, and for any set of matches the
    stakes the escrow still holds for them (one stake per flag of a PENDING
    or STAKED match) are covered by its token balance. *)
Theorem escrow_is_solvent s (ids : list bytes32) :
  Reachable s -> NoDup ids ->
  entered s = false /\
  sumOver (fun matchId => escrowed (matches s matchId)) ids
  <= Ledger.balanceOf (gameToken s) (this s).
Proof.
  intros Hr Hnd. pose proof (reachable_inv _ Hr) as HInv. split.
  - apply HInv.
  - now apply (inv_solvent _ HInv).
Qed.

Lemma escrow_is_solvent_witness :
  sumOver (fun matchId => escrowed (matches Scenario.staked matchId))
          [Scenario.matchId; 8]
  <= Ledger.balanceOf (gameToken Scenario.staked) Scenario.escrow.
Proof.
  apply (escrow_is_solvent Scenario.staked [Scenario.matchId; 8]
           staked_reachable).
  repeat constructor; cbn; intuition discriminate.
Defined.

(** X7.  What a successful [refund] does, in every reachable state: each
    participant receives exactly the stake, the escrow pays exactly twice
    the stake, no other balance and no other match changes, the match
    becomes REFUNDED and [Refunded(id, p1, p2, stake)] is emitted. *)
Theorem refund_moves_exactly_the_stakes s e matchId s' :
  Reachable s -> exec e (Refund matchId) s = (Ok tt, s') ->
  Ledger.balanceOf (gameToken s') (p1 (matches s matchId)) =
    Ledger.balanceOf (gameToken s) (p1 (matches s matchId))
    + stakeAmount (matches s matchId) /\
  Ledger.balanceOf (gameToken s') (p2 (matches s matchId)) =
    Ledger.balanceOf (gameToken s) (p2 (matches s matchId))
    + stakeAmount (matches s matchId) /\
  Ledger.balanceOf (gameToken s') (this s) =
    Ledger.balanceOf (gameToken s) (this s)
    - 2 * stakeAmount (matches s matchId) /\
  (forall a, a <> p1 (matches s matchId) -> a <> p2 (matches s matchId) ->
     a <> this s ->
     Ledger.balanceOf (gameToken s') a = Ledger.balanceOf (gameToken s) a) /\
  matches s' matchId = set_status REFUNDED (matches s matchId) /\
  (forall k, k <> matchId -> matches s' k = matches s k) /\
  log s' = log s ++ [Refunded matchId (p1 (matches s matchId))
                       (p2 (matches s matchId))
                       (stakeAmount (matches s matchId))].
Proof.
  intros Hr He. pose proof (reachable_inv _ Hr) as HInv.
  apply exec_ok_done in He. unfold dispatch in He.
  destruct (refund_done _ _ _ _ He)
    as (_ & Hp & Hst & _ & _ & (g' & Ht & Hg) & Hms & _ & _ & _ & _ & Hlog).
  destruct (staked_facts _ _ HInv Hst)
    as (_ & F1 & F2 & N1 & N2 & Hpos & _ & Hbal & _).
  destruct (ok_players _ _ (inv_matches _ HInv matchId) Hp) as (_ & Hdiff).
  rewrite refunded_ledger_both in Ht by assumption.
  destruct (Ledger.move (this s) (p1 (matches s matchId)) _ (gameToken s))
    as [g1|] eqn:Hm1; [|discriminate].
  destruct (move_done _ _ _ _ _ Hm1) as (_ & Hb1 & _).
  destruct (move_done _ _ _ _ _ Ht) as (_ & Hb2 & _).
  unfold Ledger.balanceOf. rewrite Hg.
  split_all.
  - rewrite Hb2. unfold moved. rewrite Hb1. unfold moved.
    case_eqb; try congruence; lia.
  - rewrite Hb2. unfold moved. rewrite Hb1. unfold moved.
    case_eqb; try congruence; lia.
  - rewrite Hb2. unfold moved. rewrite Hb1. unfold moved.
    case_eqb; try congruence; lia.
  - intros a A1 A2 A3. rewrite Hb2. unfold moved. rewrite Hb1. unfold moved.
    case_eqb; try congruence; lia.
  - now rewrite Hms, Z.eqb_refl.
  - intros k Hk. rewrite Hms. case_eqb; [contradiction | reflexivity].
  - exact Hlog.
Qed.

Lemma refund_moves_exactly_the_stakes_witness :
  Ledger.balanceOf (gameToken Outcomes.refunded) Scenario.alice = 20 * 10 ^ 18 /\
  Ledger.balanceOf (gameToken Outcomes.refunded) Scenario.bob = 20 * 10 ^ 18 /\
  Ledger.balanceOf (gameToken Outcomes.refunded) Scenario.escrow = 0.
Proof.
  destruct (refund_moves_exactly_the_stakes Scenario.staked
              (mkEnv Scenario.carol (3000 + 86400)) Scenario.matchId
              Outcomes.refunded staked_reachable)
    as (H1 & H2 & H3 & _).
  - vm_compute. reflexivity.
  - split_all.
    + etransitivity; [exact H1 | vm_compute; reflexivity].
    + etransitivity; [exact H2 | vm_compute; reflexivity].
    + etransitivity; [exact H3 | vm_compute; reflexivity].
Defined.

(** X8.  A whole game.  When [createMatch], the stakes of the two
    participants and [commitResult] succeed one after the other, the winner
    ends with the stake more than before, the other participant with the
    stake less, the escrow and everybody else with what they had; the match
    is SETTLED and the log has grown by the four events in order. *)
Theorem winner_takes_all s e1 e2 e3 e4 matchId a b amount winner s1 s2 s3 s4 :
  sender e2 <> this s -> sender e3 <> this s ->
  exec e1 (CreateMatch matchId a b amount) s = (Ok tt, s1) ->
  exec e2 (Stake matchId) s1 = (Ok tt, s2) ->
  exec e3 (Stake matchId) s2 = (Ok tt, s3) ->
  exec e4 (CommitResult matchId winner) s3 = (Ok tt, s4) ->
  Ledger.balanceOf (gameToken s4) winner =
    Ledger.balanceOf (gameToken s) winner + amount /\
  Ledger.balanceOf (gameToken s4) (if winner =? a then b else a) =
    Ledger.balanceOf (gameToken s) (if winner =? a then b else a) - amount /\
  Ledger.balanceOf (gameToken s4) (this s) =
    Ledger.balanceOf (gameToken s) (this s) /\
  (forall x, x <> a -> x <> b ->
     Ledger.balanceOf (gameToken s4) x = Ledger.balanceOf (gameToken s) x) /\
  status (matches s4 matchId) = SETTLED /\
  log s4 = log s ++ [MatchCreated matchId a b amount;
                     Staked matchId (sender e2);
                     Staked matchId (sender e3);
                     Settled matchId winner (2 * amount)].
Proof.
  intros N2 N3 He1 He2 He3 He4.
  apply exec_ok_done in He1, He2, He3, He4. unfold dispatch in *.
  destruct (createMatch_done _ _ _ _ _ _ _ He1)
    as (_ & _ & _ & Hab & _ & _ & Hms1 & Hg1 & Ht1 & _ & _ & _ & Hl1).
  destruct (stake_done _ _ _ _ He2)
    as (_ & _ & Hst2 & Hc2 & Hf2 & (g2 & Hp2 & Hg2) & Hms2 & Ht2 & _ & _ & _ & Hl2).
  destruct (stake_done _ _ _ _ He3)
    as (_ & _ & Hst3 & Hc3 & Hf3 & (g3 & Hp3 & Hg3) & Hms3 & Ht3 & _ & _ & _ & Hl3).
  destruct (commitResult_done _ _ _ _ _ He4)
    as (_ & _ & _ & Hst4 & Hw & _ & (g4 & Hp4 & Hg4) & Hms4 & _ & _ & _ & _ & Hl4).
  assert (M1 : matches s1 matchId = mkMatch a b amount 0 PENDING false false)
    by now rewrite Hms1, Z.eqb_refl.
  assert (M2 : matches s2 matchId = staked_match e2 (matches s1 matchId))
    by now rewrite Hms2, Z.eqb_refl.
  assert (M3 : matches s3 matchId = staked_match e3 (matches s2 matchId))
    by now rewrite Hms3, Z.eqb_refl.
  rewrite M1 in *. cbn in Hc2, Hf2, Hp2.
  (* who staked first *)
  assert (Hwho : (sender e2 = a /\ sender e3 = b) \/
                 (sender e2 = b /\ sender e3 = a)).
  { rewrite M2 in Hc3, Hf3, Hst3. unfold staked_match in Hc3, Hf3, Hst3.
    cbn in Hc3, Hf3, Hst3.
    destruct (Z.eqb_spec (sender e2) a) as [E2|E2]; cbn in Hc3, Hf3, Hst3.
    - left. split; [exact E2|].
      destruct (Z.eqb_spec (sender e3) a); [discriminate|].
      destruct Hc3; [contradiction | assumption].
    - right. destruct Hc2 as [?|E2b]; [contradiction|]. split; [exact E2b|].
      destruct (Z.eqb_spec (sender e3) a); [assumption|].
      cbn in Hf3. discriminate. }
  assert (S3 : stakeAmount (matches s2 matchId) = amount
               /\ stakeAmount (matches s3 matchId) = amount
               /\ p1 (matches s3 matchId) = a /\ p2 (matches s3 matchId) = b).
  { rewrite M3, M2. unfold staked_match. cbn.
    repeat match goal with
           | |- context [if ?c then _ else _] => destruct c; cbn
           end; auto. }
  destruct S3 as (A2 & A3 & P1 & P2).
  rewrite A2 in Hp3. rewrite A3 in Hp4, Hl4. rewrite P1, P2 in Hw.
  rewrite Ht2, Ht1 in Hp3. rewrite Ht1 in Hp2.
  destruct (transferFrom_done _ _ _ _ _ _ Hp2) as (_ & _ & B2 & _).
  destruct (transferFrom_done _ _ _ _ _ _ Hp3) as (_ & _ & B3 & _).
  unfold Ledger.transfer in Hp4.
  destruct (move_done _ _ _ _ _ Hp4) as (_ & B4 & _).
  rewrite Ht3, Ht2, Ht1 in B4.
  assert (Hbal : forall x,
            Ledger.balances (gameToken s4) x =
            Ledger.balances (gameToken s) x
            - (if x =? sender e2 then amount else 0)
            - (if x =? sender e3 then amount else 0)
            + (if x =? winner then 2 * amount else 0)).
  { intros x. rewrite Hg4, B4. unfold moved. rewrite Hg3, B3. unfold moved.
    rewrite Hg2, B2. unfold moved. rewrite Hg1.
    case_eqb; subst; try congruence; lia. }
  unfold Ledger.balanceOf. split_all.
  - rewrite Hbal, Z.eqb_refl.
    destruct Hwho as [[E2 E3]|[E2 E3]], Hw as [W|W]; subst;
      case_eqb; try congruence; lia.
  - rewrite Hbal.
    destruct Hwho as [[E2 E3]|[E2 E3]], Hw as [W|W]; subst;
      case_eqb; try congruence; lia.
  - rewrite Hbal.
    destruct Hwho as [[E2 E3]|[E2 E3]], Hw as [W|W]; subst;
      case_eqb; try congruence; lia.
  - intros x Xa Xb. rewrite Hbal.
    destruct Hwho as [[E2 E3]|[E2 E3]], Hw as [W|W]; subst;
      case_eqb; try congruence; lia.
  - now rewrite Hms4, Z.eqb_refl.
  - rewrite Hl4, Hl3, Hl2, Hl1, <- !app_assoc.
    replace (amount * 2) with (2 * amount) by lia. reflexivity.
Qed.

Lemma winner_takes_all_witness :
  Ledger.balanceOf (gameToken Outcomes.game4) Scenario.alice = 25 * 10 ^ 18 /\
  Ledger.balanceOf (gameToken Outcomes.game4) Scenario.bob = 15 * 10 ^ 18.
Proof.
  destruct (winner_takes_all Outcomes.approved
              (mkEnv Scenario.deployer 1200) (mkEnv Scenario.bob 2000)
              (mkEnv Scenario.alice 3000) (mkEnv Scenario.backend 4000)
              8 Scenario.alice Scenario.bob (5 * Scenario.GT) Scenario.alice
              Outcomes.game1 Outcomes.game2 Outcomes.game3 Outcomes.game4)
    as (H1 & H2 & _).
  - vm_compute. discriminate.
  - vm_compute. discriminate.
  - vm_compute. reflexivity.
  - vm_compute. reflexivity.
  - vm_compute. reflexivity.
  - vm_compute. reflexivity.
  - split.
    + etransitivity; [exact H1 | vm_compute; reflexivity].
    + etransitivity; [exact H2 | vm_compute; reflexivity].
Defined.

(* ================================================================== *)
(** * More on the escrow: the event log                               *)
(* ================================================================== *)

Lemma step_keeps_flags s e c matchId :
  Inv s ->
  (p1Staked (matches s matchId) = true ->
   p1Staked (matches (snd (exec e c s)) matchId) = true) /\
  (p2Staked (matches s matchId) = true ->
   p2Staked (matches (snd (exec e c s)) matchId) = true).
Proof.
  intros HInv. unfold exec, transact.
  destruct (dispatch e c s) as [[] s'|r s'] eqn:D; cbn; [|auto].
  destruct c; unfold dispatch in D.
  - destruct (createMatch_done _ _ _ _ _ _ _ D)
      as (_ & _ & _ & _ & _ & Hold & Hms & _).
    rewrite Hms. case_eqb; [|auto]. subst.
    rewrite (ok_absent _ _ (inv_matches _ HInv _) Hold). cbn.
    split; discriminate.
  - destruct (stake_done _ _ _ _ D) as (_ & _ & Hst & _ & Hf & _ & Hms & _).
    rewrite Hms. case_eqb; [|auto]. subst.
    destruct (staked_match_fields e _ Hst Hf) as (-> & -> & _).
    split; intros ->; reflexivity.
  - destruct (commitResult_done _ _ _ _ _ D)
      as (_ & _ & _ & _ & _ & _ & _ & Hms & _).
    rewrite Hms. case_eqb; subst; cbn; auto.
  - destruct (refund_done _ _ _ _ D) as (_ & _ & _ & _ & _ & _ & Hms & _).
    rewrite Hms. case_eqb; subst; cbn; auto.
  - unfold setBackendOperator in D. run_done D. auto.
  - run_done D. auto.
  - run_done D. auto.
  - run_done D. auto.
  - run_done D. auto.
  - run_done D. auto.
  - run_done D. auto.
  - run_done D. auto.
Qed.

Lemma flag_means_exists self m :
  match_ok self m -> p1Staked m = true \/ p2Staked m = true \/ status m <> PENDING ->
  p1 m <> 0.
Proof.
  intros Hok H E. rewrite (ok_absent _ _ Hok E) in H. cbn in H.
  destruct H as [H | [H | H]]; try discriminate. now apply H.
Qed.

(** An event that describes the state keeps describing it. *)
Lemma event_ok_step s e c ev :
  Inv s -> event_ok s ev -> event_ok (snd (exec e c s)) ev.
Proof.
  intros HInv Hev.
  destruct ev as [matchId a b amount | matchId player
                 | matchId winner amount | matchId a b amount];
    cbn in *.
  - destruct Hev as (Ha & E1 & E2 & E3).
    destruct (step_keeps_identity s e c matchId) as (F1 & F2 & F3);
      [congruence|].
    split_all; congruence.
  - assert (Hp : p1 (matches s matchId) <> 0).
    { apply (flag_means_exists _ _ (inv_matches _ HInv matchId)).
      destruct Hev as [[_ F] | [_ F]]; auto. }
    destruct (step_keeps_identity s e c matchId Hp) as (F1 & F2 & _).
    destruct (step_keeps_flags s e c matchId HInv) as (G1 & G2).
    rewrite F1, F2. destruct Hev as [[E F] | [E F]]; auto.
  - destruct Hev as (Hst & Hw & Hamt).
    assert (Hp : p1 (matches s matchId) <> 0).
    { apply (flag_means_exists _ _ (inv_matches _ HInv matchId)).
      right. right. congruence. }
    destruct (step_keeps_identity s e c matchId Hp) as (F1 & F2 & F3).
    pose proof (step_status s e c matchId HInv) as Hstep.
    rewrite Hst in Hstep. rewrite F1, F2, F3. split_all; auto.
    destruct (status (matches (snd (exec e c s)) matchId));
      cbn in Hstep; congruence.
  - destruct Hev as (Hst & Ha & Hb & Hamt).
    assert (Hp : p1 (matches s matchId) <> 0).
    { apply (flag_means_exists _ _ (inv_matches _ HInv matchId)).
      right. right. congruence. }
    destruct (step_keeps_identity s e c matchId Hp) as (F1 & F2 & F3).
    pose proof (step_status s e c matchId HInv) as Hstep.
    rewrite Hst in Hstep. rewrite F1, F2, F3. split_all; auto.
    destruct (status (matches (snd (exec e c s)) matchId));
      cbn in Hstep; congruence.
Qed.

Lemma step_log_ok s e c :
  Inv s -> Forall (event_ok s) (log s) ->
  Forall (event_ok (snd (exec e c s))) (log (snd (exec e c s))).
Proof.
  intros HInv Hlog.
  assert (Hold : Forall (event_ok (snd (exec e c s))) (log s)).
  { eapply Forall_impl; [|exact Hlog]. intros ev. now apply event_ok_step. }
  revert Hold. unfold exec, transact.
  destruct (dispatch e c s) as [[] s'|r s'] eqn:D; cbn; [|auto].
  intros Hold. destruct c; unfold dispatch in D.
  - destruct (createMatch_done _ _ _ _ _ _ _ D)
      as (_ & Ha & _ & _ & _ & _ & Hms & _ & _ & _ & _ & _ & Hl).
    rewrite Hl. apply Forall_app. split; [exact Hold|].
    constructor; [|constructor]. cbn. rewrite Hms, Z.eqb_refl. cbn. auto.
  - destruct (stake_done _ _ _ _ D)
      as (_ & _ & Hst & Hc & Hf & _ & Hms & _ & _ & _ & _ & Hl).
    rewrite Hl. apply Forall_app. split; [exact Hold|].
    constructor; [|constructor]. cbn. rewrite Hms, Z.eqb_refl.
    destruct (staked_match_fields e _ Hst Hf) as (F1 & F2 & _).
    assert (I1 : p1 (staked_match e (matches s matchId)) = p1 (matches s matchId)
                 /\ p2 (staked_match e (matches s matchId)) = p2 (matches s matchId)).
    { unfold staked_match.
      repeat match goal with
             | |- context [if ?b then _ else _] => destruct b; cbn
             end; auto. }
    destruct I1 as (-> & ->). rewrite F1, F2.
    destruct (Z.eqb_spec (sender e) (p1 (matches s matchId))).
    + left. split; [assumption | apply orb_true_r].
    + right. split; [destruct Hc; [contradiction | assumption]
                    | apply orb_true_r].
  - destruct (commitResult_done _ _ _ _ _ D)
      as (_ & _ & _ & _ & Hw & _ & _ & Hms & _ & _ & _ & _ & Hl).
    rewrite Hl. apply Forall_app. split; [exact Hold|].
    constructor; [|constructor]. cbn -[Z.mul]. rewrite Hms, Z.eqb_refl.
    cbn -[Z.mul]. split_all; auto. lia.
  - destruct (refund_done _ _ _ _ D)
      as (_ & _ & _ & _ & _ & _ & Hms & _ & _ & _ & _ & Hl).
    rewrite Hl. apply Forall_app. split; [exact Hold|].
    constructor; [|constructor]. cbn. rewrite Hms, Z.eqb_refl. cbn.
    split_all; auto.
  - unfold setBackendOperator in D. run_done D. exact Hold.
  - run_done D. exact Hold.
  - run_done D. exact Hold.
  - run_done D. exact Hold.
  - run_done D. exact Hold.
  - run_done D. exact Hold.
  - run_done D. exact Hold.
  - run_done D. exact Hold.
Qed.

Lemma run_log_ok s s' :
  Run s s' -> Inv s -> Forall (event_ok s) (log s) ->
  Forall (event_ok s') (log s').
Proof.
  induction 1 as [|s e c s' Henv Hc _ IH]; intros HInv Hlog; [assumption|].
  apply IH; [now apply step_inv | now apply step_log_ok].
Qed.

Lemma script_run script s :
  Scenario.valid_script s script = true -> Run s (Scenario.run_script script s).
Proof.
  revert s. induction script as [|[e c] script IH]; intros s Hv;
    [apply Run_nil|].
  cbn in Hv. apply andb_true_iff in Hv. destruct Hv as (Hv1 & Hv2).
  apply andb_true_iff in Hv1. destruct Hv1 as (He & Hc).
  cbn. apply Run_cons with (e := e) (c := c); auto.
  apply IH. unfold Scenario.valid_script, valid_env in *.
  rewrite step_this. exact Hv2.
Qed.

(** X9.  Every event in the log of the escrow is true of the current
    state, whatever happened since it was emitted: a [MatchCreated] names
    the participants and the stake stored under its id, a [Staked] names a
    participant whose flag is set, a [Settled] names a participant of a
    SETTLED match with twice its stake as amount, and a [Refunded] names
    both participants and the stake of a REFUNDED match. *)
Theorem events_reflect_state s0 s :
  genesis s0 -> log s0 = [] -> Run s0 s ->
  Forall (event_ok s) (log s).
Proof.
  intros Hg Hl Hrun.
  apply (run_log_ok _ _ Hrun (genesis_inv _ Hg)).
  rewrite Hl. constructor.
Qed.

Lemma events_reflect_state_witness :
  Forall (event_ok Outcomes.played) (log Outcomes.played).
Proof.
  apply (events_reflect_state Scenario.deployed Outcomes.played
           deployed_genesis eq_refl).
  apply script_run. reflexivity.
Defined.

(** X10.  The read-back the leaderboard relies on.  For every [Settled]
    event in the log of the escrow, the match read back under its id (at
    any later time) has the winner as one participant, and the address
    [updateLoserStats] picks is the other participant, different from the
    winner; the amount of the event is twice the stored stake. *)
Theorem settled_event_names_the_loser s0 s matchId winner amount :
  genesis s0 -> log s0 = [] -> Run s0 s ->
  In (Settled matchId winner amount) (log s) ->
  loserOf (matches s matchId) winner <> winner /\
  ((winner = p1 (matches s matchId) /\
    loserOf (matches s matchId) winner = p2 (matches s matchId)) \/
   (winner = p2 (matches s matchId) /\
    loserOf (matches s matchId) winner = p1 (matches s matchId))) /\
  amount = 2 * stakeAmount (matches s matchId).
Proof.
  intros Hg Hl Hrun Hin.
  pose proof (run_inv _ _ Hrun (genesis_inv _ Hg)) as HInv.
  assert (Hlog : Forall (event_ok s) (log s)).
  { apply (run_log_ok _ _ Hrun (genesis_inv _ Hg)). rewrite Hl. constructor. }
  rewrite Forall_forall in Hlog. specialize (Hlog _ Hin). cbn in Hlog.
  destruct Hlog as (Hst & Hw & Hamt).
  assert (Hp : p1 (matches s matchId) <> 0).
  { apply (flag_means_exists _ _ (inv_matches _ HInv matchId)).
    right. right. congruence. }
  destruct (ok_players _ _ (inv_matches _ HInv matchId) Hp) as (_ & Hdiff).
  unfold loserOf.
  destruct (Z.eqb_spec (p1 (matches s matchId)) winner) as [E|E].
  - split_all; auto. congruence.
  - destruct Hw as [W|W]; [congruence|]. split_all; auto.
Qed.

Lemma settled_event_names_the_loser_witness :
  loserOf (matches Outcomes.played Scenario.matchId) Scenario.alice
  <> Scenario.alice.
Proof.
  apply (settled_event_names_the_loser Scenario.deployed Outcomes.played
           Scenario.matchId Scenario.alice (10 * 10 ^ 18)
           deployed_genesis eq_refl).
  - apply script_run. reflexivity.
  - vm_compute. auto 10.
Defined.

(* ================================================================== *)
(** * More on the token store                                         *)
(* ================================================================== *)

Section StoreMore.

Import TokenStore.

Ltac unfold_store :=
  unfold TokenStore.nonReentrant, TokenStore.onlyOwner, TokenStore.emit,
    usdt_transferFrom, usdt_transfer, gameToken_mint,
    bind, require, checked, gets, modify, ret, revert in *.

Lemma withdrawUSDT_done sender to amount s s' :
  withdrawUSDT sender to amount s = Done tt s' ->
  sender = owner s /\ to <> 0 /\ 0 < amount /\
  (exists u', Ledger.transfer (this s) to amount (usdt s) = Some u' /\
              usdt s' = u') /\
  gameToken s' = gameToken s /\ log s' = log s /\ this s' = this s /\
  owner s' = owner s /\ entered s' = entered s.
Proof.
  intros H. unfold withdrawUSDT in H. unfold_store. cbn in H.
  repeat (break_if H; cbn in H; try discriminate H).
  injection H as <-. cbn. reflect_tests. split_all; eauto.
Qed.

(** X11.  [withdrawUSDT] is rejected for a caller who is not the owner,
    for the zero address, for a non-positive amount and for an amount above
    the store's USDT balance; when it succeeds exactly [amount] USDT moves
    from the store to [to], no other USDT balance changes, the game-token
    ledger is untouched and no event is emitted. *)
Theorem withdrawUSDT_moves_the_amount s sender to amount :
  (sender <> owner s ->
   exists r, transact (withdrawUSDT sender to amount) s = (Err r, s)) /\
  (to = 0 ->
   exists r, transact (withdrawUSDT sender to amount) s = (Err r, s)) /\
  (amount <= 0 ->
   exists r, transact (withdrawUSDT sender to amount) s = (Err r, s)) /\
  (Ledger.balanceOf (usdt s) (this s) < amount ->
   exists r, transact (withdrawUSDT sender to amount) s = (Err r, s)) /\
  (forall s', transact (withdrawUSDT sender to amount) s = (Ok tt, s') ->
     (to <> this s ->
      Ledger.balanceOf (usdt s') (this s)
        = Ledger.balanceOf (usdt s) (this s) - amount /\
      Ledger.balanceOf (usdt s') to = Ledger.balanceOf (usdt s) to + amount) /\
     (forall a, a <> to -> a <> this s ->
        Ledger.balanceOf (usdt s') a = Ledger.balanceOf (usdt s) a) /\
     Ledger.totalSupply (usdt s') = Ledger.totalSupply (usdt s) /\
     gameToken s' = gameToken s /\ log s' = log s).
Proof.
  assert (Hrej : forall P : Prop,
            (forall s', withdrawUSDT sender to amount s = Done tt s' -> ~ P) ->
            P -> exists r, transact (withdrawUSDT sender to amount) s = (Err r, s)).
  { intros P HP Hp. apply transact_not_done. intros s' D. exact (HP s' D Hp). }
  split_all.
  - apply Hrej. intros s' D. destruct (withdrawUSDT_done _ _ _ _ _ D) as (H & _).
    congruence.
  - apply Hrej. intros s' D.
    destruct (withdrawUSDT_done _ _ _ _ _ D) as (_ & H & _). congruence.
  - apply Hrej. intros s' D.
    destruct (withdrawUSDT_done _ _ _ _ _ D) as (_ & _ & H & _). lia.
  - apply Hrej. intros s' D.
    destruct (withdrawUSDT_done _ _ _ _ _ D) as (_ & _ & _ & (u' & Ht & _) & _).
    unfold Ledger.transfer in Ht. destruct (move_done _ _ _ _ _ Ht) as (H & _).
    unfold Ledger.balanceOf. intros Hlt. lia.
  - intros s' He.
    assert (D : withdrawUSDT sender to amount s = Done tt s').
    { pose proof (transact_ok_done (withdrawUSDT sender to amount) s tt) as H.
      rewrite He in H. now apply H. }
    destruct (withdrawUSDT_done _ _ _ _ _ D)
      as (_ & _ & _ & (u' & Ht & Hu) & Hg & Hl & _).
    unfold Ledger.transfer in Ht.
    destruct (move_done _ _ _ _ _ Ht) as (_ & Hb & _ & Hs & _).
    unfold Ledger.balanceOf. rewrite Hu. split_all; auto.
    + intros Hto. rewrite !Hb. unfold moved.
      split; case_eqb; try congruence; lia.
    + intros a A1 A2. rewrite Hb. unfold moved. case_eqb; try congruence; lia.
Qed.

(** X12.  The accounting of a successful [buy] by an account other than
    the store itself: the buyer's USDT balance and allowance drop by the
    amount, the store's USDT balance grows by it, the USDT supply is
    unchanged and the game-token supply grows by exactly the output; and,
    when the USDT ledger is sound, the owner can at once withdraw the
    amount to any non-zero address. *)
Theorem buy_funds_the_store s sender usdtAmount s' :
  sender <> this s ->
  transact (buy sender usdtAmount) s = (Ok tt, s') ->
  Ledger.balanceOf (usdt s') sender
    = Ledger.balanceOf (usdt s) sender - usdtAmount /\
  Ledger.balanceOf (usdt s') (this s)
    = Ledger.balanceOf (usdt s) (this s) + usdtAmount /\
  Ledger.allowances (usdt s') sender (this s)
    = Ledger.allowances (usdt s) sender (this s) - usdtAmount /\
  Ledger.totalSupply (usdt s') = Ledger.totalSupply (usdt s) /\
  Ledger.totalSupply (gameToken s')
    = Ledger.totalSupply (gameToken s) + usdtAmount * gtPerUsdt s / 10 ^ 6 /\
  (ledger_ok (usdt s) ->
   forall to, to <> 0 ->
     succeeded (fst (transact (withdrawUSDT (owner s') to usdtAmount) s'))
     = true).
Proof.
  intros Hne He.
  assert (D : buy sender usdtAmount s = Done tt s').
  { pose proof (transact_ok_done (buy sender usdtAmount) s tt) as H.
    rewrite He in H. now apply H. }
  destruct (buy_done _ _ _ _ D)
    as (_ & Hpos & Hr & _ & (u' & Ht & Hu) & (g' & Hm & Hg) & Hthis & _ & _ & _).
  destruct (transferFrom_done _ _ _ _ _ _ Ht) as (_ & _ & Hb & Hal & Hs & _).
  destruct (mint_done _ _ _ _ _ Hm) as (_ & _ & _ & _ & Hgs & _).
  assert (Hq : Z.quot (usdtAmount * gtPerUsdt s) 1000000
               = usdtAmount * gtPerUsdt s / 10 ^ 6).
  { change (10 ^ 6) with 1000000. apply Z.quot_div_nonneg; lia. }
  unfold Ledger.balanceOf. rewrite Hu, Hg.
  assert (Hstore : Ledger.balances u' (this s)
                   = Ledger.balances (usdt s) (this s) + usdtAmount).
  { rewrite Hb. unfold moved. case_eqb; try congruence; lia. }
  split_all.
  - rewrite Hb. unfold moved. case_eqb; try congruence; lia.
  - exact Hstore.
  - rewrite Hal, !Z.eqb_refl. cbn. lia.
  - exact Hs.
  - rewrite Hgs. lia.
  - intros Hok to Hto.
    assert (Hok' : ledger_ok u') by (eapply transferFrom_ok; eauto; lia).
    destruct (move_runs (this s) to usdtAmount u' Hok') as [u2 Hmv].
    { destruct Hok as (Hp & _). specialize (Hp (this s)). lia. }
    unfold transact, withdrawUSDT. unfold_store. cbn.
    rewrite Z.eqb_refl. cbn.
    destruct (Z.eqb_spec to 0); [contradiction|]. cbn.
    destruct (Z.ltb_spec 0 usdtAmount); [|lia]. cbn.
    rewrite Hu, Hthis. unfold Ledger.transfer. rewrite Hmv. reflexivity.
Qed.

Lemma buy_funds_the_store_witness :
  Ledger.totalSupply
    (gameToken (snd (transact (buy StoreScenario.buyer (10 * 10 ^ 6))
                              StoreScenario.opened)))
  = 10 * 10 ^ 18.
Proof.
  destruct (buy_funds_the_store StoreScenario.opened StoreScenario.buyer
              (10 * 10 ^ 6)
              (snd (transact (buy StoreScenario.buyer (10 * 10 ^ 6))
                             StoreScenario.opened)))
    as (_ & _ & _ & _ & H & _).
  - vm_compute. discriminate.
  - vm_compute. reflexivity.
  - etransitivity; [exact H | vm_compute; reflexivity].
Defined.

(** X13.  With the guard open and a product that fits a [uint256], a
    positive [buy] is rejected with "Invalid conversion" exactly when
    [amount * rate] is below [10^6]; otherwise the output [q] it goes on
    with is the product rounded down: [q * 10^6 <= amount * rate <
    (q + 1) * 10^6]. *)
Theorem buy_invalid_conversion_iff s sender usdtAmount :
  entered s = false -> 0 < usdtAmount ->
  0 <= usdtAmount * gtPerUsdt s <= MAX_UINT256 ->
  (transact (buy sender usdtAmount) s = (Err "Invalid conversion", s) <->
   usdtAmount * gtPerUsdt s < 10 ^ 6) /\
  (10 ^ 6 <= usdtAmount * gtPerUsdt s ->
   0 < Z.quot (usdtAmount * gtPerUsdt s) 1000000 /\
   Z.quot (usdtAmount * gtPerUsdt s) 1000000 * 10 ^ 6
     <= usdtAmount * gtPerUsdt s
     < (Z.quot (usdtAmount * gtPerUsdt s) 1000000 + 1) * 10 ^ 6).
Proof.
  intros Hen Hpos Hr.
  assert (Hq : Z.quot (usdtAmount * gtPerUsdt s) 1000000
               = usdtAmount * gtPerUsdt s / 1000000)
    by (apply Z.quot_div_nonneg; lia).
  change (10 ^ 6) with 1000000.
  pose proof (Z.div_mod (usdtAmount * gtPerUsdt s) 1000000 ltac:(lia)) as Hdm.
  pose proof (Z.mod_pos_bound (usdtAmount * gtPerUsdt s) 1000000 ltac:(lia))
    as Hmb.
  split.
  - unfold transact, buy. unfold_store. cbn. rewrite Hen. cbn.
    destruct (Z.ltb_spec 0 usdtAmount); [|lia]. cbn.
    apply is_uint256_true in Hr. rewrite Hr. cbn.
    destruct (Z.ltb_spec 0 (Z.quot (usdtAmount * gtPerUsdt s) 1000000))
      as [Hlt | Hge]; cbn.
    + split; [|intros; lia].
      destruct (Ledger.transferFrom _ _ _ _ _); cbn;
        [destruct (Ledger.mint _ _ _ _); cbn|]; intros [= ?]; discriminate.
    + split; [intros _; lia | reflexivity].
  - intros Hge. rewrite Hq. lia.
Qed.

Lemma buy_invalid_conversion_iff_witness :
  transact (buy StoreScenario.buyer 5)
    (mkState StoreScenario.storeAddr 1 false
       (usdt StoreScenario.opened) (gameToken StoreScenario.opened)
       (10 ^ 5) [])
  = (Err "Invalid conversion",
     mkState StoreScenario.storeAddr 1 false
       (usdt StoreScenario.opened) (gameToken StoreScenario.opened)
       (10 ^ 5) []).
Proof.
  apply (buy_invalid_conversion_iff
           (mkState StoreScenario.storeAddr 1 false
              (usdt StoreScenario.opened) (gameToken StoreScenario.opened)
              (10 ^ 5) [])
           StoreScenario.buyer 5 eq_refl eq_refl).
  - vm_compute. split; discriminate.
  - vm_compute. reflexivity.
Defined.

(** X14.  The quote of [GET /purchase]: a missing, non-numeric or
    non-positive amount is answered with status 400; for an amount below
    [2^53], which a JavaScript number holds and prints exactly, and a rate
    that is not negative, the quoted output is exactly [amount * rate] base
    units, and it is what [buy] mints for the same number of whole USDT
    whenever that call succeeds. *)
Theorem purchase_quotes_what_buy_mints (n rate : Z) :
  Api.purchase None (Some rate) = Api.BadRequest "Invalid USDT amount" /\
  (n <= 0 ->
   Api.purchase (Some n) (Some rate) = Api.BadRequest "Invalid USDT amount") /\
  (0 < n < 2 ^ 53 -> 0 <= rate ->
   Api.purchase (Some n) (Some rate) = Api.Quote n (n * rate) /\
   forall s sender s',
     gtPerUsdt s = rate ->
     transact (buy sender (n * 10 ^ 6)) s = (Ok tt, s') ->
     Ledger.balanceOf (gameToken s') sender
     = Ledger.balanceOf (gameToken s) sender + n * rate).
Proof.
  split_all.
  - reflexivity.
  - intros Hn. unfold Api.purchase.
    destruct (Z.leb_spec n 0); [reflexivity | lia].
  - intros Hn Hrate. split.
    + unfold Api.purchase.
      destruct (Z.leb_spec n 0); [lia|].
      rewrite toString_whole by lia. f_equal.
      replace (n * 10 ^ 6 * rate) with (n * rate * (1 * 10 ^ 6)) by lia.
      apply Z.quot_mul. discriminate.
    + intros s sender s' Hs He.
      assert (D : buy sender (n * 10 ^ 6) s = Done tt s').
      { pose proof (transact_ok_done (buy sender (n * 10 ^ 6)) s tt) as H.
        rewrite He in H. now apply H. }
      destruct (buy_done _ _ _ _ D)
        as (_ & _ & _ & _ & _ & (g' & Hm & Hg) & _).
      destruct (mint_done _ _ _ _ _ Hm) as (_ & _ & Hb & _).
      unfold Ledger.balanceOf. rewrite Hg, Hb, Z.eqb_refl, Hs. f_equal.
      replace (n * 10 ^ 6 * rate) with (n * rate * 1000000) by lia.
      apply Z.quot_mul. discriminate.
Qed.

(** Beyond 2^53 the number read is the nearest binary64 number and the
    quote is made for the digits it prints: 2^60 is quoted as
    1152921504606847000 USDT.  From 10^21 on the number prints in exponent
    notation, which [parseUnits] refuses: status 500. *)
Example purchase_beyond_safe_integers :
  Api.purchase (Some (2 ^ 60)) (Some (10 ^ 18))
    = Api.Quote 1152921504606847000 (1152921504606847000 * 10 ^ 18) /\
  Api.purchase (Some (2 ^ 53 + 1)) (Some (10 ^ 18))
    = Api.Quote (2 ^ 53) (2 ^ 53 * 10 ^ 18) /\
  Api.purchase (Some (10 ^ 21)) (Some (10 ^ 18))
    = Api.ServerError "Purchase failed".
Proof. split_all; vm_compute; reflexivity. Qed.

End StoreMore.

(* ================================================================== *)
(** * More on the leaderboard: the listeners                          *)
(* ================================================================== *)

Section Listeners.

Import Leaderboard.

Variable N : JsNumber.

Implicit Types (t : Table N) (k a : address) (v : Stats N).

Lemma has_set k v t a : has a (set k v t) = ((a =? k) || has a t).
Proof.
  unfold has. destruct (Z.eqb_spec a k) as [->|Hne]; cbn.
  - now rewrite get_set_same.
  - now rewrite get_set_other.
Qed.

Lemma statsOf_set k v t a :
  statsOf (set k v t) a = if a =? k then v else statsOf t a.
Proof.
  destruct (Z.eqb_spec a k) as [->|Hne].
  - apply statsOf_set_same.
  - now apply statsOf_set_other.
Qed.

Lemma statsOf_present a t st : get a t = Some st -> statsOf t a = st.
Proof. unfold statsOf. now intros ->. Qed.

Lemma statsOf_absent a t : get a t = None -> statsOf t a = newStats N.
Proof. unfold statsOf. now intros ->. Qed.

Lemma initPlayer_stats p t a : statsOf (initPlayer N p t) a = statsOf t a.
Proof.
  unfold initPlayer, has. destruct (get p t) eqn:E; cbn [negb]; [reflexivity|].
  rewrite statsOf_set. destruct (Z.eqb_spec a p) as [->|]; [|reflexivity].
  now rewrite (statsOf_absent _ _ E).
Qed.

Lemma initPlayer_has p t a :
  has a (initPlayer N p t) = ((a =? p) || has a t).
Proof.
  unfold initPlayer. destruct (has p t) eqn:E; cbn [negb].
  - destruct (Z.eqb_spec a p) as [->|]; cbn; [now rewrite E | reflexivity].
  - apply has_set.
Qed.

Lemma initPlayer_get p t a :
  has a t = true -> get a (initPlayer N p t) = get a t.
Proof.
  intros Ha. unfold initPlayer. destruct (has p t) eqn:E; cbn [negb];
    [reflexivity|].
  apply get_set_other. intros ->. congruence.
Qed.

(** X15.  The [MatchCreated] and [Purchase] listeners only make sure the
    accounts they name have a record: afterwards these accounts are in the
    table, every record that existed is exactly as it was, the statistics
    read for any address are unchanged (a new record holds zeros), and
    running the listener again changes nothing. *)
Theorem init_listeners_only_add_zero_records t p1 p2 buyer :
  (has p1 (onMatchCreated N p1 p2 t) = true /\
   has p2 (onMatchCreated N p1 p2 t) = true /\
   (forall a, statsOf (onMatchCreated N p1 p2 t) a = statsOf t a) /\
   (forall a, has a t = true ->
      get a (onMatchCreated N p1 p2 t) = get a t) /\
   onMatchCreated N p1 p2 (onMatchCreated N p1 p2 t)
     = onMatchCreated N p1 p2 t) /\
  (has buyer (onPurchase N buyer t) = true /\
   (forall a, statsOf (onPurchase N buyer t) a = statsOf t a) /\
   (forall a, has a t = true -> get a (onPurchase N buyer t) = get a t) /\
   onPurchase N buyer (onPurchase N buyer t) = onPurchase N buyer t).
Proof.
  unfold onMatchCreated, onPurchase. split; split_all.
  - rewrite !initPlayer_has. rewrite Z.eqb_refl. apply orb_true_r.
  - rewrite initPlayer_has, Z.eqb_refl. reflexivity.
  - intros a. now rewrite !initPlayer_stats.
  - intros a Ha. rewrite initPlayer_get; [now apply initPlayer_get|].
    rewrite initPlayer_has, Ha. apply orb_true_r.
  - assert (H1 : has p1 (initPlayer N p2 (initPlayer N p1 t)) = true).
    { rewrite !initPlayer_has, Z.eqb_refl. apply orb_true_r. }
    assert (H2 : has p2 (initPlayer N p2 (initPlayer N p1 t)) = true).
    { rewrite initPlayer_has, Z.eqb_refl. reflexivity. }
    unfold initPlayer at 2. rewrite H1. cbn [negb].
    unfold initPlayer at 1. now rewrite H2.
  - rewrite initPlayer_has, Z.eqb_refl. reflexivity.
  - intros a. apply initPlayer_stats.
  - intros a. apply initPlayer_get.
  - unfold initPlayer at 1. rewrite initPlayer_has, Z.eqb_refl. reflexivity.
Qed.

Lemma bumpPlayed_has p t a : has a (bumpPlayed N p t) = has a t.
Proof.
  unfold bumpPlayed. destruct (get p t) as [st|] eqn:E; [|reflexivity].
  rewrite has_set. destruct (Z.eqb_spec a p) as [->|]; cbn; [|reflexivity].
  unfold has. now rewrite E.
Qed.

Lemma bumpPlayed_stats p t a :
  statsOf (bumpPlayed N p t) a =
  if (a =? p) && has p t
  then mkStats (wins (statsOf t p)) (totalGTWon (statsOf t p))
               (matchesPlayed (statsOf t p) + 1)
  else statsOf t a.
Proof.
  unfold bumpPlayed, has. destruct (get p t) as [st|] eqn:E.
  - rewrite statsOf_set, (statsOf_present _ _ _ E).
    now destruct (a =? p).
  - now rewrite andb_false_r.
Qed.

(** X16.  The [Refunded] listener, for two different participants: each
    participant who has a record gets one more match played; a participant
    without a record is not added; wins and winnings of everybody, and the
    records of all other accounts, stay as they are. *)
Theorem refunded_listener_counts_known_players t p1 p2 a :
  p1 <> p2 ->
  has a (onRefunded N p1 p2 t) = has a t /\
  matchesPlayed (statsOf (onRefunded N p1 p2 t) a) =
    matchesPlayed (statsOf t a)
    + (if ((a =? p1) || (a =? p2)) && has a t then 1 else 0) /\
  wins (statsOf (onRefunded N p1 p2 t) a) = wins (statsOf t a) /\
  totalGTWon (statsOf (onRefunded N p1 p2 t) a) = totalGTWon (statsOf t a).
Proof.
  intros Hne. unfold onRefunded.
  rewrite !bumpPlayed_has. split; [reflexivity|].
  rewrite (bumpPlayed_stats p2). rewrite bumpPlayed_has.
  rewrite !(bumpPlayed_stats p1).
  destruct (Z.eqb_spec a p1) as [E1|H1]; destruct (Z.eqb_spec a p2) as [E2|H2];
    try congruence; subst; cbn;
    repeat match goal with
           | |- context [?x =? ?y] =>
               destruct (Z.eqb_spec x y); try congruence; cbn
           end;
    try (destruct (has _ t); cbn; split_all; try reflexivity; lia).
  split_all; try reflexivity; lia.
Qed.

End Listeners.

Lemma refunded_listener_counts_known_players_witness :
  Leaderboard.has 12
    (Leaderboard.onRefunded Leaderboard.Binary64Number 11 12
       (Leaderboard.onSettled Leaderboard.Binary64Number 11 (10 ^ 19) [])) = false /\
  Leaderboard.matchesPlayed
    (statsOf (Leaderboard.onRefunded Leaderboard.Binary64Number 11 12
                (Leaderboard.onSettled Leaderboard.Binary64Number 11 (10 ^ 19) [])) 11) = 2.
Proof.
  split.
  - etransitivity;
      [apply (refunded_listener_counts_known_players Leaderboard.Binary64Number
                (Leaderboard.onSettled Leaderboard.Binary64Number 11 (10 ^ 19) []) 11 12 12);
       discriminate | reflexivity].
  - etransitivity;
      [apply (refunded_listener_counts_known_players Leaderboard.Binary64Number
                (Leaderboard.onSettled Leaderboard.Binary64Number 11 (10 ^ 19) []) 11 12 11);
       discriminate | reflexivity].
Defined.

(* ================================================================== *)
(** * More on the leaderboard: what a run of callbacks keeps          *)
(* ================================================================== *)

Section Runs.

Import Leaderboard.

Variable N : JsNumber.

Implicit Types (t : Table N) (k a : address) (v : Stats N).

(** One callback other than a reset: records stay, counts do not drop. *)
Lemma handle_grows t i a :
  match i with Reset => False | _ => True end ->
  (has a t = true -> has a (handle N t i) = true) /\
  wins (statsOf t a) <= wins (statsOf (handle N t i) a) /\
  matchesPlayed (statsOf t a) <= matchesPlayed (statsOf (handle N t i) a).
Proof.
  intros Hi. destruct i as [[mid q1 q2 amt | mid pl | mid winner amt | mid q1 q2 amt] | [buyer u g] | mid winner readBack | ];
    cbn [handle]; try contradiction.
  - unfold onMatchCreated. rewrite !initPlayer_stats, !initPlayer_has.
    split_all; try lia. intros ->. now rewrite !orb_true_r.
  - split_all; auto; lia.
  - unfold onSettled. destruct (get winner t) as [st|] eqn:E;
      rewrite has_set, statsOf_set;
      (split; [intros ->; apply orb_true_r|]);
      destruct (Z.eqb_spec a winner) as [->|]; cbn; try lia.
    + rewrite (statsOf_present N _ _ _ E). lia.
    + rewrite (statsOf_absent N _ _ E). cbn. lia.
  - pose proof (bumpPlayed_stats N q1 t) as B1.
    unfold onRefunded. rewrite !bumpPlayed_has. split; [auto|].
    rewrite (bumpPlayed_stats N q2), bumpPlayed_has.
    destruct ((a =? q2) && has q2 t) eqn:E2; cbn.
    + apply andb_true_iff in E2. destruct E2 as (E2 & _).
      apply Z.eqb_eq in E2. subst a. rewrite !B1.
      destruct (Z.eqb_spec q2 q1); [subst|]; cbn;
        [destruct (has q1 t); cbn; lia | lia].
    + rewrite B1. destruct ((a =? q1) && has q1 t) eqn:E1; cbn; [|lia].
      apply andb_true_iff in E1. destruct E1 as (E1 & _).
      apply Z.eqb_eq in E1. subst a. lia.
  - unfold onPurchase. rewrite initPlayer_stats, initPlayer_has.
    split_all; try lia. intros ->. apply orb_true_r.
  - unfold afterReadBack. destruct readBack as [m|]; [|split_all; auto; lia].
    fold (loserOf m winner).
    destruct (get (loserOf m winner) t) as [st|] eqn:E;
      rewrite has_set, statsOf_set;
      (split; [intros ->; apply orb_true_r|]);
      destruct (Z.eqb_spec a (loserOf m winner)) as [->|]; cbn; try lia.
    + rewrite (statsOf_present N _ _ _ E). lia.
    + rewrite (statsOf_absent N _ _ E). cbn. lia.
Qed.

(** X17.  The statistics are additive: over any sequence of callbacks
    without a reset, an account that has a record keeps one, and nobody's
    wins or matches played ever decrease. *)
Theorem statistics_only_grow inputs t a :
  noReset inputs = true ->
  (has a t = true -> has a (process N inputs t) = true) /\
  wins (statsOf t a) <= wins (statsOf (process N inputs t) a) /\
  matchesPlayed (statsOf t a) <= matchesPlayed (statsOf (process N inputs t) a).
Proof.
  revert t. induction inputs as [|i inputs IH]; intros t Hn; cbn.
  - split_all; auto; lia.
  - cbn in Hn. apply andb_true_iff in Hn. destruct Hn as (Hi & Hn).
    destruct (handle_grows t i a) as (G1 & G2 & G3).
    { destruct i; try exact I. discriminate. }
    destruct (IH (handle N t i) Hn) as (H1 & H2 & H3).
    unfold process in *. cbn. split_all; [auto | lia | lia].
Qed.

(** ** Counting *)

Lemma fold_count (f : Stats N -> Z) t acc :
  fold_left (fun acc (kv : address * Stats N) => acc + f (snd kv)) t acc
  = acc + fold_left (fun acc (kv : address * Stats N) => acc + f (snd kv)) t 0.
Proof.
  revert acc. induction t as [|kv t IH]; intros acc; simpl; [lia|].
  rewrite IH. rewrite (IH (f (snd kv))). lia.
Qed.

Lemma count_set (f : Stats N -> Z) k v t :
  fold_left (fun acc (kv : address * Stats N) => acc + f (snd kv)) (set k v t) 0
  = fold_left (fun acc (kv : address * Stats N) => acc + f (snd kv)) t 0
    + f v - match get k t with Some old => f old | None => 0 end.
Proof.
  induction t as [|[k' v'] t IH]; simpl; [lia|].
  destruct (k' =? k); simpl.
  - rewrite (fold_count f t (f v)), (fold_count f t (f v')). lia.
  - rewrite (fold_count f _ (f v')), (fold_count f t (f v')), IH. lia.
Qed.

Lemma initPlayer_count (f : Stats N -> Z) p t :
  f (newStats N) = 0 ->
  fold_left (fun acc (kv : address * Stats N) => acc + f (snd kv))
            (initPlayer N p t) 0
  = fold_left (fun acc (kv : address * Stats N) => acc + f (snd kv)) t 0.
Proof.
  intros H0. unfold initPlayer, has.
  destruct (get p t) eqn:E; cbn [negb]; [reflexivity|].
  rewrite count_set, E, H0. lia.
Qed.

Lemma handle_wins t i :
  sumWins N (handle N t i) =
  match i with
  | GameEvent (PlayGame.Settled _ _ _) => sumWins N t + 1
  | Reset => 0
  | _ => sumWins N t
  end.
Proof.
  unfold sumWins. destruct i as [[mid q1 q2 amt | mid pl | mid winner amt | mid q1 q2 amt] | [buyer u g] | mid winner readBack | ];
    cbn [handle]; try reflexivity.
  - unfold onMatchCreated. now rewrite !(initPlayer_count wins).
  - unfold onSettled. destruct (get winner t) as [st|] eqn:E;
      rewrite (count_set wins), E; cbn; lia.
  - unfold onRefunded, bumpPlayed.
    destruct (get q1 t) as [st1|] eqn:E1.
    + destruct (get q2 (set q1 _ t)) as [st2|] eqn:E2;
        rewrite ?(count_set wins), ?E1, ?E2; cbn; lia.
    + destruct (get q2 t) as [st2|] eqn:E2;
        rewrite ?(count_set wins), ?E2; cbn; lia.
  - unfold onPurchase. now rewrite (initPlayer_count wins).
  - unfold afterReadBack. destruct readBack as [m|]; [|reflexivity].
    destruct (get _ t) as [st|] eqn:E;
      rewrite (count_set wins), E; cbn; lia.
Qed.

Lemma process_wins inputs t acc :
  sumWins N t = Z.of_nat (List.length acc) ->
  sumWins N (process N inputs t)
  = Z.of_nat (List.length (payoutsSinceReset inputs acc)).
Proof.
  revert t acc. induction inputs as [|i inputs IH]; intros t acc H; [exact H|].
  cbn [process fold_left]. change (fold_left (handle N) inputs (handle N t i))
    with (process N inputs (handle N t i)).
  pose proof (handle_wins t i) as Hh.
  destruct i as [[mid q1 q2 amt | mid pl | mid winner amt | mid q1 q2 amt] | [buyer u g] | mid winner readBack | ];
    cbn [payoutsSinceReset]; apply IH; rewrite Hh; try exact H.
  - rewrite length_app. cbn. lia.
  - reflexivity.
Qed.

(** X18.  After any sequence of callbacks run from an empty table, the
    [totalWins] of [GET /stats] is the number of [Settled] events seen
    since the last reset. *)
Theorem total_wins_counts_settlements (inputs : list Input) :
  totalWins (getStats N (process N inputs []))
  = Z.of_nat (List.length (payoutsSinceReset inputs [])).
Proof. cbn. now apply process_wins. Qed.

(** ** Every record *)

Lemma get_bounded k t v :
  Forall (fun kv => counts_bounded (snd kv)) t -> get k t = Some v ->
  counts_bounded v.
Proof.
  induction 1 as [|[k' v'] t Hh Ht IH]; simpl; [discriminate|].
  destruct (k' =? k); [now intros [= <-] | exact IH].
Qed.

Lemma set_bounded k v t :
  Forall (fun kv => counts_bounded (snd kv)) t -> counts_bounded v ->
  Forall (fun kv : address * Stats N => counts_bounded (snd kv)) (set k v t).
Proof.
  intros Ht Hv. induction Ht as [|[k' v'] t Hh Ht IH]; simpl.
  - repeat constructor; apply Hv.
  - destruct (k' =? k); constructor; auto.
Qed.

Lemma handle_bounded t i :
  Forall (fun kv => counts_bounded (snd kv)) t ->
  Forall (fun kv : address * Stats N => counts_bounded (snd kv)) (handle N t i).
Proof.
  intros Ht.
  assert (Hinit : forall p t',
            Forall (fun kv => counts_bounded (snd kv)) t' ->
            Forall (fun kv : address * Stats N => counts_bounded (snd kv))
                   (initPlayer N p t')).
  { intros p t' H. unfold initPlayer. destruct (negb (has p t')); [|exact H].
    apply set_bounded; [exact H|]. unfold counts_bounded. cbn. lia. }
  assert (Hbump : forall p t',
            Forall (fun kv => counts_bounded (snd kv)) t' ->
            Forall (fun kv : address * Stats N => counts_bounded (snd kv))
                   (bumpPlayed N p t')).
  { intros p t' H. unfold bumpPlayed.
    destruct (get p t') as [st|] eqn:E; [|exact H].
    apply set_bounded; [exact H|].
    pose proof (get_bounded _ _ _ H E) as B. unfold counts_bounded in *.
    cbn. lia. }
  destruct i as [[mid q1 q2 amt | mid pl | mid winner amt | mid q1 q2 amt] | [buyer u g] | mid winner readBack | ];
    cbn [handle].
  - unfold onMatchCreated. auto.
  - exact Ht.
  - unfold onSettled. destruct (get winner t) as [st|] eqn:E;
      (apply set_bounded; [exact Ht|]); unfold counts_bounded; cbn; [|lia].
    pose proof (get_bounded _ _ _ Ht E) as B. unfold counts_bounded in B. lia.
  - unfold onRefunded. auto.
  - unfold onPurchase. auto.
  - unfold afterReadBack. destruct readBack as [m|]; [|exact Ht].
    destruct (get _ t) as [st|] eqn:E;
      (apply set_bounded; [exact Ht|]); unfold counts_bounded; cbn; [|lia].
    pose proof (get_bounded _ _ _ Ht E) as B. unfold counts_bounded in B. lia.
  - constructor.
Qed.

Lemma process_bounded inputs t :
  Forall (fun kv => counts_bounded (snd kv)) t ->
  Forall (fun kv : address * Stats N => counts_bounded (snd kv))
         (process N inputs t).
Proof.
  revert t. induction inputs as [|i inputs IH]; intros t Ht; [exact Ht|].
  cbn. apply IH. now apply handle_bounded.
Qed.

(** X19.  After any sequence of callbacks run from an empty table, the
    statistics read for any address have a win count that is not negative
    and not above the matches played. *)
Theorem every_player_wins_at_most_played (inputs : list Input) a :
  0 <= wins (statsOf (process N inputs []) a)
    <= matchesPlayed (statsOf (process N inputs []) a).
Proof.
  pose proof (process_bounded inputs [] (Forall_nil _)) as H.
  unfold statsOf. destruct (get a (process N inputs [])) as [st|] eqn:E.
  - exact (get_bounded _ _ _ H E).
  - cbn. lia.
Qed.

End Runs.

Lemma statistics_only_grow_witness :
  Leaderboard.wins (@statsOf Leaderboard.Binary64Number [] 11)
  <= Leaderboard.wins
       (statsOf (Leaderboard.process Leaderboard.Binary64Number
                   small_settlement []) 11).
Proof.
  apply (statistics_only_grow Leaderboard.Binary64Number small_settlement [] 11).
  reflexivity.
Defined.

(* ================================================================== *)
(** * More on the leaderboard: the ranking                            *)
(* ================================================================== *)


Section RankingFacts.

Import Ranking.

Variable N : Leaderboard.JsNumber.
Variable gtb : Leaderboard.num N -> Leaderboard.num N -> bool.

(** On the amounts [ok], [>] is a strict order whose complement is
    transitive, as it is on numbers that are not NaN. *)
Variable ok : Leaderboard.num N -> Prop.
Hypothesis gtb_asym :
  forall a b, ok a -> ok b -> gtb a b = true -> gtb b a = false.
Hypothesis ngt_trans :
  forall a b c, ok a -> ok b -> ok c ->
    gtb b a = false -> gtb c b = false -> gtb c a = false.













End RankingFacts.


Example leaderboard_small_settlement :
  map fst (fst (Ranking.getLeaderboard Leaderboard.Binary64Number
                  (fun x y => SFltb y x)
                  (Leaderboard.process Leaderboard.Binary64Number
                     (small_settlement ++
                      [Leaderboard.GameEvent (PlayGame.Settled 9 12 (3 * 10 ^ 15))])
                     [])))
  = [12; 11].
Proof. reflexivity. Qed.

(* ================================================================== *)
(** * More on the escrow: what never happens                          *)
(* ================================================================== *)

Lemma step_keeps_start s e c matchId :
  Inv s -> status (matches s matchId) <> PENDING ->
  startTime (matches (snd (exec e c s)) matchId)
  = startTime (matches s matchId).
Proof.
  intros HInv Hne. unfold exec, transact.
  destruct (dispatch e c s) as [[] s'|r s'] eqn:D; cbn; [|reflexivity].
  destruct c; unfold dispatch in D.
  - destruct (createMatch_done _ _ _ _ _ _ _ D)
      as (_ & _ & _ & _ & _ & Hold & Hms & _).
    rewrite Hms. case_eqb; [|reflexivity]. subst.
    rewrite (ok_absent _ _ (inv_matches _ HInv _) Hold) in Hne.
    now destruct Hne.
  - destruct (stake_done _ _ _ _ D) as (_ & _ & Hst & _ & _ & _ & Hms & _).
    rewrite Hms. case_eqb; [|reflexivity]. subst. contradiction.
  - destruct (commitResult_done _ _ _ _ _ D)
      as (_ & _ & _ & _ & _ & _ & _ & Hms & _).
    rewrite Hms. case_eqb; subst; reflexivity.
  - destruct (refund_done _ _ _ _ D) as (_ & _ & _ & _ & _ & _ & Hms & _).
    rewrite Hms. case_eqb; subst; reflexivity.
  - unfold setBackendOperator in D. now run_done D.
  - now run_done D.
  - now run_done D.
  - now run_done D.
  - now run_done D.
  - now run_done D.
  - now run_done D.
  - now run_done D.
Qed.

Lemma run_keeps_start s s' matchId :
  Run s s' -> Inv s -> status (matches s matchId) <> PENDING ->
  startTime (matches s' matchId) = startTime (matches s matchId) /\
  status (matches s' matchId) <> PENDING.
Proof.
  induction 1 as [|s e c s' Henv Hc _ IH]; intros HInv Hne; [auto|].
  pose proof (step_keeps_start s e c matchId HInv Hne) as E.
  pose proof (step_status s e c matchId HInv) as Hstep.
  assert (Hne' : status (matches (snd (exec e c s)) matchId) <> PENDING).
  { destruct (status (matches s matchId)),
             (status (matches (snd (exec e c s)) matchId));
      cbn in Hstep; congruence. }
  destruct (IH (step_inv _ _ _ HInv Henv Hc) Hne') as (F & G).
  split; [congruence | exact G].
Qed.

(** X21.  Once both participants have staked, the terms of a match are
    frozen: after any further sequence of transactions its participants,
    its stake and its start time (hence the moment from which a refund is
    possible) are what they were, and it never is PENDING again. *)
Theorem staked_match_is_frozen s s' matchId :
  Reachable s -> status (matches s matchId) <> PENDING -> Run s s' ->
  p1 (matches s' matchId) = p1 (matches s matchId) /\
  p2 (matches s' matchId) = p2 (matches s matchId) /\
  stakeAmount (matches s' matchId) = stakeAmount (matches s matchId) /\
  startTime (matches s' matchId) = startTime (matches s matchId) /\
  status (matches s' matchId) <> PENDING.
Proof.
  intros Hr Hne Hrun. pose proof (reachable_inv _ Hr) as HInv.
  assert (Hp : p1 (matches s matchId) <> 0).
  { apply (flag_means_exists _ _ (inv_matches _ HInv matchId)). auto. }
  destruct (run_keeps_identity _ _ matchId Hrun Hp) as (E1 & E2 & E3).
  destruct (run_keeps_start _ _ matchId Hrun HInv Hne) as (E4 & E5).
  split_all; assumption.
Qed.

Lemma staked_match_is_frozen_witness :
  startTime (matches Outcomes.settled Scenario.matchId) = 3000.
Proof.
  destruct (staked_match_is_frozen Scenario.staked Outcomes.settled
              Scenario.matchId staked_reachable) as (_ & _ & _ & H & _).
  - vm_compute. discriminate.
  - unfold Outcomes.settled.
    apply Run_cons with (e := mkEnv Scenario.backend 4000)
                        (c := CommitResult Scenario.matchId Scenario.alice);
      [vm_compute; reflexivity | reflexivity | apply Run_nil].
  - etransitivity; [exact H | vm_compute; reflexivity].
Defined.

(** X22.  In every reachable state, [commitResult(id, winner)] succeeds
    exactly when the caller is the backend operator, the match is STAKED
    and [winner] is one of its two participants. *)
Theorem commitResult_succeeds_iff s e matchId winner :
  Reachable s ->
  (succeeded (fst (exec e (CommitResult matchId winner) s)) = true <->
   sender e = backendOperator s /\
   status (matches s matchId) = STAKED /\
   (winner = p1 (matches s matchId) \/ winner = p2 (matches s matchId))).
Proof.
  intros Hr. pose proof (reachable_inv _ Hr) as HInv. split.
  - intros Hs. destruct (exec_succeeded _ _ _ Hs) as [s' He].
    apply exec_ok_done in He. unfold dispatch in He.
    destruct (commitResult_done _ _ _ _ _ He) as (_ & H1 & _ & H2 & H3 & _).
    auto.
  - intros (Hop & Hst & Hw).
    destruct (staked_facts _ _ HInv Hst)
      as (Hp & _ & _ & _ & _ & Hpos & _ & Hbal & _).
    pose proof (inv_ledger _ HInv) as Hl.
    pose proof (ledger_balance_max _ (this s) Hl) as Hmax.
    destruct (move_runs (this s) winner (stakeAmount (matches s matchId) * 2)
                (gameToken s) Hl ltac:(lia)) as [g' Hm].
    destruct (commitResult_runs e matchId s winner g' (inv_guard _ HInv)
                Hop Hp Hst Hw ltac:(lia) Hm) as [s' D].
    unfold exec, dispatch. now rewrite (transact_done _ _ _ _ D).
Qed.

Lemma commitResult_succeeds_iff_witness :
  succeeded (fst (exec (mkEnv Scenario.alice 4000)
                       (CommitResult Scenario.matchId Scenario.alice)
                       Scenario.staked)) = false.
Proof.
  apply not_true_is_false. intros H.
  apply (commitResult_succeeds_iff Scenario.staked (mkEnv Scenario.alice 4000)
           Scenario.matchId Scenario.alice staked_reachable) in H.
  destruct H as (H & _). vm_compute in H. discriminate.
Defined.

Lemma refunded_ledger_done self m g g' :
  refunded_ledger self m g = Some g' ->
  Ledger.totalSupply g' = Ledger.totalSupply g /\
  Ledger.allowances g' = Ledger.allowances g /\
  forall a, a <> self -> a <> p1 m -> a <> p2 m ->
            Ledger.balances g' a = Ledger.balances g a.
Proof.
  unfold refunded_ledger, Ledger.transfer.
  destruct (p1Staked m), (p2Staked m).
  - destruct (Ledger.move self (p1 m) _ g) as [g1|] eqn:M1; [|discriminate].
    intros M2.
    destruct (move_done _ _ _ _ _ M1) as (_ & B1 & A1 & S1 & _).
    destruct (move_done _ _ _ _ _ M2) as (_ & B2 & A2 & S2 & _).
    split_all; try congruence.
    intros a H1 H2 H3. rewrite B2. unfold moved. rewrite B1. unfold moved.
    case_eqb; try congruence; lia.
  - destruct (Ledger.move self (p1 m) _ g) as [g1|] eqn:M1; [|discriminate].
    intros [= <-].
    destruct (move_done _ _ _ _ _ M1) as (_ & B1 & A1 & S1 & _).
    split_all; try congruence.
    intros a H1 H2 H3. rewrite B1. unfold moved.
    case_eqb; try congruence; lia.
  - intros M2.
    destruct (move_done _ _ _ _ _ M2) as (_ & B2 & A2 & S2 & _).
    split_all; try congruence.
    intros a H1 H2 H3. rewrite B2. unfold moved.
    case_eqb; try congruence; lia.
  - intros [= <-]. auto.
Qed.

(** X23.  In any state, the functions of the escrow neither create nor
    destroy tokens and touch nobody else's: [createMatch] leaves the
    ledger alone; [stake] changes only the caller's and the escrow's
    balance; [commitResult] only the winner's and the escrow's; [refund]
    only the participants' and the escrow's; the total supply is always
    unchanged, and only [stake] changes an allowance. *)
Theorem escrow_touches_only_the_parties s e :
  (forall matchId a b amount s',
     exec e (CreateMatch matchId a b amount) s = (Ok tt, s') ->
     gameToken s' = gameToken s) /\
  (forall matchId s',
     exec e (Stake matchId) s = (Ok tt, s') ->
     Ledger.totalSupply (gameToken s') = Ledger.totalSupply (gameToken s) /\
     (forall a, a <> sender e -> a <> this s ->
        Ledger.balanceOf (gameToken s') a = Ledger.balanceOf (gameToken s) a) /\
     (forall o sp, (o, sp) <> (sender e, this s) ->
        Ledger.allowances (gameToken s') o sp
        = Ledger.allowances (gameToken s) o sp)) /\
  (forall matchId winner s',
     exec e (CommitResult matchId winner) s = (Ok tt, s') ->
     Ledger.totalSupply (gameToken s') = Ledger.totalSupply (gameToken s) /\
     Ledger.allowances (gameToken s') = Ledger.allowances (gameToken s) /\
     (forall a, a <> winner -> a <> this s ->
        Ledger.balanceOf (gameToken s') a = Ledger.balanceOf (gameToken s) a)) /\
  (forall matchId s',
     exec e (Refund matchId) s = (Ok tt, s') ->
     Ledger.totalSupply (gameToken s') = Ledger.totalSupply (gameToken s) /\
     Ledger.allowances (gameToken s') = Ledger.allowances (gameToken s) /\
     (forall a, a <> this s -> a <> p1 (matches s matchId) ->
        a <> p2 (matches s matchId) ->
        Ledger.balanceOf (gameToken s') a = Ledger.balanceOf (gameToken s) a)).
Proof.
  unfold Ledger.balanceOf. split; [|split; [|split]].
  - intros matchId a b amount s' He. apply exec_ok_done in He.
    unfold dispatch in He.
    now destruct (createMatch_done _ _ _ _ _ _ _ He)
      as (_ & _ & _ & _ & _ & _ & _ & Hg & _).
  - intros matchId s' He. apply exec_ok_done in He. unfold dispatch in He.
    destruct (stake_done _ _ _ _ He)
      as (_ & _ & _ & _ & _ & (g' & Ht & Hg) & _).
    destruct (transferFrom_done _ _ _ _ _ _ Ht) as (_ & _ & Hb & Hal & Hs & _).
    rewrite Hg. split_all; auto.
    + intros a H1 H2. rewrite Hb. unfold moved. case_eqb; try congruence; lia.
    + intros o sp Hne. rewrite Hal.
      destruct (Z.eqb_spec o (sender e)), (Z.eqb_spec sp (this s));
        cbn; try lia. subst. now destruct Hne.
  - intros matchId winner s' He. apply exec_ok_done in He.
    unfold dispatch in He.
    destruct (commitResult_done _ _ _ _ _ He)
      as (_ & _ & _ & _ & _ & _ & (g' & Ht & Hg) & _).
    unfold Ledger.transfer in Ht.
    destruct (move_done _ _ _ _ _ Ht) as (_ & Hb & Hal & Hs & _).
    rewrite Hg. split_all; auto.
    intros a H1 H2. rewrite Hb. unfold moved. case_eqb; try congruence; lia.
  - intros matchId s' He. apply exec_ok_done in He. unfold dispatch in He.
    destruct (refund_done _ _ _ _ He)
      as (_ & _ & _ & _ & _ & (g' & Ht & Hg) & _).
    destruct (refunded_ledger_done _ _ _ _ Ht) as (Hs & Hal & Hb).
    rewrite Hg. split_all; auto.
Qed.
